(** * AP Poker (pokerbots 2021): card allocator, equity estimator,
      betting policy and threshold tuner of [bot/AP_Poker/player.py]

    Python [int] is [Z]; Python [float] is IEEE-754 binary64, that is Rocq's
    primitive [float], operation for operation.  Card strings, the strength
    dictionary and the per-board lists are strings, a [gmap] and lists.
    Exceptions ([KeyError], [IndexError], [ZeroDivisionError], ...) are [None]. *)

From Stdlib Require Import ZArith Lia Bool String Ascii Floats.
From stdpp Require Import base option list strings gmap.

Set Warnings "-inexact-float".
Local Open Scope Z_scope.

(** ** Python numbers *)

Module PyFloat.

(** [float(n)] for an [int]: the nearest binary64, ties to even. *)
Definition float_of_Z (z : Z) : float :=
  SF2Prim (binary_normalize prec emax z 0 false).

(** [int(x)] for a [float]: truncation toward zero; [ValueError] on nan and
    [OverflowError] on an infinity. *)
Definition int_of_float (x : float) : option Z :=
  match Prim2SF x with
  | S754_zero _ => Some 0
  | S754_finite s m e =>
      let v := if 0 <=? e then Z.pos m * 2 ^ e else Z.pos m / 2 ^ (- e) in
      Some (if s then - v else v)
  | S754_infinity _ | S754_nan => None
  end.

(** [math.sqrt(x)]: [ValueError] on a negative argument. *)
Definition math_sqrt (x : float) : option float :=
  if (x <? 0)%float then None else Some (PrimFloat.sqrt x).

(** [x / y] on floats: [ZeroDivisionError] when [y == 0]. *)
Definition float_div (x y : float) : option float :=
  if (y =? 0)%float then None else Some (x / y)%float.

(** [a / b] on ints (true division).  Both operands are converted and the
    quotient rounded once, which is Python's result whenever the operands are
    below [2^53] in magnitude, as chip counts and round numbers are. *)
Definition int_div (a b : Z) : option float :=
  if b =? 0 then None else Some (float_of_Z a / float_of_Z b)%float.

(** [max(0, x)]: the builtin keeps its first argument unless a later one is
    strictly greater. *)
Definition max0 (x : float) : float :=
  if (0 <? x)%float then x else 0%float.

(** *** The order of binary64 values

    [SFcompare] is a lexicographic comparison of (class and sign, exponent,
    mantissa); [fkey] names that triple, and is undefined on nan only. *)

Definition fkey (x : spec_float) : option (Z * Z * Z) :=
  match x with
  | S754_nan => None
  | S754_infinity true => Some (-2, 0, 0)
  | S754_finite true m e => Some (-1, - e, Z.neg m)
  | S754_zero _ => Some (0, 0, 0)
  | S754_finite false m e => Some (1, e, Z.pos m)
  | S754_infinity false => Some (2, 0, 0)
  end.

Definition lex3 (k1 k2 : Z * Z * Z) : comparison :=
  let '(a1, b1, c1) := k1 in
  let '(a2, b2, c2) := k2 in
  match a1 ?= a2 with
  | Eq => match b1 ?= b2 with Eq => c1 ?= c2 | r => r end
  | r => r
  end.

Definition not_nan (x : float) : Prop := is_Some (fkey (Prim2SF x)).

Definition cmp_le (c : comparison) : bool :=
  match c with Gt => false | _ => true end.

(** A binary64 value that is a zero or positive and at most one: below the
    exponent of one, or one itself ([2^52] at exponent [-52]).  Meant for
    values in canonical form. *)
Definition le1 (x : spec_float) : Prop :=
  match x with
  | S754_zero _ => True
  | S754_finite false m e => e < -52 \/ (e = -52 /\ m = 4503599627370496%positive)
  | _ => False
  end.


Lemma SFcompare_lex x y kx ky :
  fkey x = Some kx -> fkey y = Some ky -> SFcompare x y = Some (lex3 kx ky).
Proof.
  destruct x as [[]|[]| |[] mx ex], y as [[]|[]| |[] my ey]; simpl;
    intros Hx Hy; inversion Hx; inversion Hy; subst; simpl; try reflexivity.
  rewrite Z.compare_opp, (Z.compare_antisym ex ey).
  destruct (ex ?= ey); reflexivity.
Qed.

Lemma SFcompare_None x y :
  fkey x = None \/ fkey y = None -> SFcompare x y = None.
Proof.
  destruct x as [[]|[]| |[] mx ex], y as [[]|[]| |[] my ey]; simpl;
    intros [H|H]; try discriminate H; reflexivity.
Qed.

Lemma lex3_refl k : lex3 k k = Eq.
Proof. destruct k as [[a b] c]. simpl. now rewrite !Z.compare_refl. Qed.

Lemma lex3_antisym k1 k2 : lex3 k2 k1 = CompOpp (lex3 k1 k2).
Proof.
  destruct k1 as [[a1 b1] c1], k2 as [[a2 b2] c2]. simpl.
  rewrite (Z.compare_antisym a1 a2), (Z.compare_antisym b1 b2),
    (Z.compare_antisym c1 c2).
  destruct (a1 ?= a2), (b1 ?= b2), (c1 ?= c2); reflexivity.
Qed.

(** Transitivity, by cases on the three component-wise comparisons. *)
Ltac lex3_cases :=
  unfold lex3;
  repeat match goal with
         | |- context [?a ?= ?b] => destruct (Z.compare_spec a b); simpl
         end;
  intros; try discriminate; try reflexivity; lia.

Lemma lex3_le_trans k1 k2 k3 :
  cmp_le (lex3 k1 k2) = true -> cmp_le (lex3 k2 k3) = true ->
  cmp_le (lex3 k1 k3) = true.
Proof.
  destruct k1 as [[a1 b1] c1], k2 as [[a2 b2] c2], k3 as [[a3 b3] c3].
  lex3_cases.
Qed.

Lemma lex3_lt_le_trans k1 k2 k3 :
  lex3 k1 k2 = Lt -> cmp_le (lex3 k2 k3) = true -> lex3 k1 k3 = Lt.
Proof.
  destruct k1 as [[a1 b1] c1], k2 as [[a2 b2] c2], k3 as [[a3 b3] c3].
  lex3_cases.
Qed.

Lemma lex3_le_lt_trans k1 k2 k3 :
  cmp_le (lex3 k1 k2) = true -> lex3 k2 k3 = Lt -> lex3 k1 k3 = Lt.
Proof.
  destruct k1 as [[a1 b1] c1], k2 as [[a2 b2] c2], k3 as [[a3 b3] c3].
  lex3_cases.
Qed.

(** The comparisons of the program, read through the key. *)

Lemma ltb_key x y :
  (x <? y)%float = true <->
  exists kx ky, fkey (Prim2SF x) = Some kx /\ fkey (Prim2SF y) = Some ky /\
                lex3 kx ky = Lt.
Proof.
  rewrite ltb_spec. unfold SFltb.
  destruct (fkey (Prim2SF x)) as [kx|] eqn:Hx.
  2:{ rewrite SFcompare_None by auto. split; [discriminate|].
      intros (? & ? & ? & _); discriminate. }
  destruct (fkey (Prim2SF y)) as [ky|] eqn:Hy.
  2:{ rewrite SFcompare_None by auto. split; [discriminate|].
      intros (? & ? & _ & ? & _); discriminate. }
  rewrite (SFcompare_lex _ _ _ _ Hx Hy). split.
  - intros H. exists kx, ky. repeat split. destruct (lex3 kx ky); congruence.
  - intros (? & ? & [= <-] & [= <-] & ->). reflexivity.
Qed.

Lemma leb_key x y :
  (x <=? y)%float = true <->
  exists kx ky, fkey (Prim2SF x) = Some kx /\ fkey (Prim2SF y) = Some ky /\
                cmp_le (lex3 kx ky) = true.
Proof.
  rewrite leb_spec. unfold SFleb.
  destruct (fkey (Prim2SF x)) as [kx|] eqn:Hx.
  2:{ rewrite SFcompare_None by auto. split; [discriminate|].
      intros (? & ? & ? & _); discriminate. }
  destruct (fkey (Prim2SF y)) as [ky|] eqn:Hy.
  2:{ rewrite SFcompare_None by auto. split; [discriminate|].
      intros (? & ? & _ & ? & _); discriminate. }
  rewrite (SFcompare_lex _ _ _ _ Hx Hy). split.
  - intros H. exists kx, ky. repeat split. destruct (lex3 kx ky); simpl; congruence.
  - intros (? & ? & [= <-] & [= <-] & H). destruct (lex3 kx ky); simpl in *; congruence.
Qed.

(** [a < b] rules out [a >= b] (Python writes the latter [b <= a]). *)
Lemma ltb_not_ge x y : (x <? y)%float = true -> (y <=? x)%float = false.
Proof.
  intros (kx & ky & Hx & Hy & Hlt)%ltb_key.
  destruct (y <=? x)%float eqn:E; [|reflexivity].
  apply leb_key in E as (ky' & kx' & Hy' & Hx' & Hle).
  rewrite Hx in Hx'; rewrite Hy in Hy'. injection Hx' as <-; injection Hy' as <-.
  rewrite lex3_antisym, Hlt in Hle. discriminate.
Qed.

Lemma zero_not_nan : not_nan 0%float.
Proof. now exists (0, 0, 0). Qed.

Lemma ltb_not_nan_r x y : (x <? y)%float = true -> not_nan y.
Proof. intros (kx & ky & _ & Hy & _)%ltb_key. now exists ky. Qed.

Lemma ltb_false_ge x y :
  not_nan x -> not_nan y -> (x <? y)%float = false -> (y <=? x)%float = true.
Proof.
  intros [kx Hx] [ky Hy] H. apply leb_key. exists ky, kx. repeat split; trivial.
  rewrite lex3_antisym. destruct (lex3 kx ky) eqn:E; trivial.
  assert ((x <? y)%float = true) as H' by (apply ltb_key; eauto 6).
  congruence.
Qed.

Lemma ltb_leb x y : (x <? y)%float = true -> (x <=? y)%float = true.
Proof.
  intros (kx & ky & Hx & Hy & Hlt)%ltb_key. apply leb_key.
  exists kx, ky. now rewrite Hlt.
Qed.

Lemma leb_refl x : not_nan x -> (x <=? x)%float = true.
Proof.
  intros [k Hk]. apply leb_key. exists k, k. now rewrite lex3_refl.
Qed.

Lemma leb_trans x y z :
  (x <=? y)%float = true -> (y <=? z)%float = true -> (x <=? z)%float = true.
Proof.
  intros (kx & ky & Hx & Hy & H1)%leb_key (ky' & kz & Hy' & Hz & H2)%leb_key.
  rewrite Hy in Hy'. injection Hy' as <-.
  apply leb_key. exists kx, kz. eauto using lex3_le_trans.
Qed.

Lemma ltb_leb_trans x y z :
  (x <? y)%float = true -> (y <=? z)%float = true -> (x <? z)%float = true.
Proof.
  intros (kx & ky & Hx & Hy & H1)%ltb_key (ky' & kz & Hy' & Hz & H2)%leb_key.
  rewrite Hy in Hy'. injection Hy' as <-.
  apply ltb_key. exists kx, kz. eauto using lex3_lt_le_trans.
Qed.

Lemma leb_ltb_trans x y z :
  (x <=? y)%float = true -> (y <? z)%float = true -> (x <? z)%float = true.
Proof.
  intros (kx & ky & Hx & Hy & H1)%leb_key (ky' & kz & Hy' & Hz & H2)%ltb_key.
  rewrite Hy in Hy'. injection Hy' as <-.
  apply ltb_key. exists kx, kz. eauto using lex3_le_lt_trans.
Qed.

(** *** The quotient of two small integers

    Binary64 division is specified by [SFdiv]; for 53-bit mantissas its
    rounding is followed by cases on the size of the integer quotient. *)

Lemma digits2_bounds p :
  2 ^ (Z.pos (digits2_pos p) - 1) <= Z.pos p < 2 ^ Z.pos (digits2_pos p).
Proof.
  induction p as [p IH|p IH|]; simpl digits2_pos.
  - rewrite Pos2Z.inj_succ, Z.pow_succ_r by lia.
    replace (Z.succ (Z.pos (digits2_pos p)) - 1)
      with (Z.succ (Z.pos (digits2_pos p) - 1)) by lia.
    rewrite Z.pow_succ_r by lia. lia.
  - rewrite Pos2Z.inj_succ, Z.pow_succ_r by lia.
    replace (Z.succ (Z.pos (digits2_pos p)) - 1)
      with (Z.succ (Z.pos (digits2_pos p) - 1)) by lia.
    rewrite Z.pow_succ_r by lia. lia.
  - simpl. lia.
Qed.

Lemma digits2_unique p d :
  2 ^ (d - 1) <= Z.pos p < 2 ^ d -> Z.pos (digits2_pos p) = d.
Proof.
  intros H. pose proof (digits2_bounds p) as B.
  destruct (Z.lt_trichotomy (Z.pos (digits2_pos p)) d) as [L|[E|G]]; [|done|].
  - assert (2 ^ Z.pos (digits2_pos p) <= 2 ^ (d - 1))
      by (apply Z.pow_le_mono_r; lia). lia.
  - assert (0 < d).
    { destruct (Z.le_gt_cases d 0) as [Hd|]; [|done].
      assert (2 ^ d <= 2 ^ 0) by (apply Z.pow_le_mono_r; lia). simpl in *. lia. }
    assert (2 ^ d <= 2 ^ (Z.pos (digits2_pos p) - 1))
      by (apply Z.pow_le_mono_r; lia). lia.
Qed.

Lemma iter_xO_spec p k :
  Z.pos (Pos.iter xO p k) = Z.pos p * 2 ^ Z.pos k /\
  digits2_pos (Pos.iter xO p k) = (digits2_pos p + k)%positive.
Proof.
  induction k as [|k [IH1 IH2]] using Pos.peano_ind.
  - simpl. split; [lia|]. now rewrite Pos.add_1_r.
  - rewrite Pos.iter_succ. split.
    + rewrite Pos2Z.inj_xO, IH1, Pos2Z.inj_succ, Z.pow_succ_r; lia.
    + simpl. rewrite IH2. lia.
Qed.


Lemma fexp_small e : -1021 <= e -> fexp prec emax e = e - 53.
Proof. unfold fexp, emin, prec, emax. lia. Qed.

Lemma loc_of_record m l : loc_of_shr_record (shr_record_of_loc m l) = l.
Proof. destruct l as [|[]]; reflexivity. Qed.

Lemma shr_m_record m l : shr_m (shr_record_of_loc m l) = m.
Proof. destruct l as [|[]]; reflexivity. Qed.

Lemma shr_fexp_53 m E l :
  Z.pos (digits2_pos m) = 53 -> -1074 <= E ->
  shr_fexp prec emax (Z.pos m) E l = (shr_record_of_loc (Z.pos m) l, E).
Proof.
  intros Hd HE. unfold shr_fexp. simpl Zdigits2. rewrite Hd.
  rewrite fexp_small by lia.
  replace (53 + E - 53 - E) with 0 by lia. reflexivity.
Qed.

Lemma shr_fexp_54 m E l :
  Z.pos (digits2_pos m) = 54 -> -1075 <= E ->
  shr_fexp prec emax (Z.pos m) E l = (shr_1 (shr_record_of_loc (Z.pos m) l), E + 1).
Proof.
  intros Hd HE. unfold shr_fexp. simpl Zdigits2. rewrite Hd.
  rewrite fexp_small by lia.
  replace (54 + E - 53 - E) with 1 by lia. reflexivity.
Qed.

Lemma le1_leb x :
  le1 x -> SFleb (S754_zero false) x = true /\
           SFleb x (S754_finite false 4503599627370496 (-52)) = true.
Proof.
  destruct x as [s| | |[] m e]; simpl; try tauto; try (intros; split; reflexivity).
  intros [H|[-> ->]]; (split; [reflexivity|]); unfold SFleb, SFcompare.
  - destruct (Z.compare_spec e (-52)); try lia; reflexivity.
  - reflexivity.
Qed.

(** Rounding a 53-bit mantissa. *)
Lemma round_53 q E l :
  Z.pos (digits2_pos q) = 53 -> -1074 <= E <= 970 ->
  (exists m, binary_round_aux prec emax false (Z.pos q) E l = S754_finite false m E) \/
  binary_round_aux prec emax false (Z.pos q) E l
    = S754_finite false 4503599627370496 (E + 1).
Proof.
  intros Hd HE. unfold binary_round_aux.
  rewrite shr_fexp_53 by (done || lia).
  rewrite loc_of_record, shr_m_record.
  pose proof (digits2_bounds q) as B. rewrite Hd in B.
  change (2 ^ (53 - 1)) with 4503599627370496 in B.
  change (2 ^ 53) with 9007199254740992 in B.
  assert (exists m1, round_nearest_even (Z.pos q) l = Z.pos m1 /\
                     Z.pos q <= Z.pos m1 <= Z.pos q + 1) as (m1 & -> & Hm1).
  { destruct l as [|[]]; unfold round_nearest_even;
      try (exists q; split; [reflexivity|lia]).
    - destruct (Z.even (Z.pos q)); [exists q; split; [reflexivity|lia]|].
      exists (q + 1)%positive. split; [reflexivity|lia].
    - exists (q + 1)%positive. split; [reflexivity|lia]. }
  destruct (Z.lt_ge_cases (Z.pos m1) 9007199254740992) as [Hlt|Hge].
  - left. rewrite shr_fexp_53; [|apply digits2_unique; simpl; lia|lia].
    simpl. destruct (Z.leb_spec E (emax - prec)); [eauto|].
    unfold emax, prec in *. lia.
  - right. assert (m1 = 9007199254740992%positive) as -> by lia.
    rewrite shr_fexp_54 by (reflexivity || lia). simpl.
    destruct (Z.leb_spec (E + 1) (emax - prec)); [done|].
    unfold emax, prec in *. lia.
Qed.

Lemma round_exact_53 q E :
  Z.pos (digits2_pos q) = 53 -> -1074 <= E <= 971 ->
  binary_round_aux prec emax false (Z.pos q) E loc_Exact = S754_finite false q E.
Proof.
  intros Hd HE. unfold binary_round_aux.
  rewrite shr_fexp_53 by (done || lia). simpl.
  rewrite shr_fexp_53 by (done || lia). simpl.
  destruct (Z.leb_spec E (emax - prec)); [done|].
  unfold emax, prec in *. lia.
Qed.

(** Rounding a 54-bit mantissa. *)
Lemma round_54 q E l :
  Z.pos (digits2_pos q) = 54 -> -1075 <= E <= 969 ->
  (exists m, binary_round_aux prec emax false (Z.pos q) E l
             = S754_finite false m (E + 1)) \/
  binary_round_aux prec emax false (Z.pos q) E l
    = S754_finite false 4503599627370496 (E + 2).
Proof.
  intros Hd HE. unfold binary_round_aux.
  rewrite shr_fexp_54 by (done || lia).
  pose proof (digits2_bounds q) as B. rewrite Hd in B.
  change (2 ^ (54 - 1)) with 9007199254740992 in B.
  change (2 ^ 54) with 18014398509481984 in B.
  assert (exists m r s, shr_1 (shr_record_of_loc (Z.pos q) l)
                        = Build_shr_record (Z.pos m) r s /\
                        4503599627370496 <= Z.pos m < 9007199254740992)
    as (m & r & s & -> & Hm).
  { destruct q as [q|q|]; [| |lia];
      destruct l as [|[]]; simpl; do 3 eexists; (split; [reflexivity|lia]). }
  cbn [shr_m].
  assert (exists m1, round_nearest_even (Z.pos m)
                       (loc_of_shr_record (Build_shr_record (Z.pos m) r s))
                     = Z.pos m1 /\
                     Z.pos m <= Z.pos m1 <= Z.pos m + 1) as (m1 & -> & Hm1).
  { destruct r, s; unfold round_nearest_even, loc_of_shr_record;
      try (exists m; split; [reflexivity|lia]);
      try (exists (m + 1)%positive; split; [reflexivity|lia]).
    destruct (Z.even (Z.pos m)); [exists m; split; [reflexivity|lia]|].
    exists (m + 1)%positive. split; [reflexivity|lia]. }
  destruct (Z.lt_ge_cases (Z.pos m1) 9007199254740992) as [Hlt|Hge].
  - left. rewrite shr_fexp_53; [|apply digits2_unique; simpl; lia|lia].
    simpl. destruct (Z.leb_spec (E + 1) (emax - prec)); [eauto|].
    unfold emax, prec in *. lia.
  - right. assert (m1 = 9007199254740992%positive) as -> by lia.
    rewrite shr_fexp_54 by (reflexivity || lia). simpl.
    replace (E + 1 + 1) with (E + 2) by lia.
    destruct (Z.leb_spec (E + 2) (emax - prec)); [done|].
    unfold emax, prec in *. lia.
Qed.

(** The binary64 value of a positive integer below 2^53: its 53-bit
    mantissa and its exponent. *)
Lemma binary_normalize_small p :
  Z.pos p < 2 ^ 53 ->
  exists M,
    binary_normalize prec emax (Z.pos p) 0 false
      = S754_finite false M (Z.pos (digits2_pos p) - 53) /\
    Z.pos M = Z.pos p * 2 ^ (53 - Z.pos (digits2_pos p)) /\
    Z.pos (digits2_pos M) = 53.
Proof.
  intros Hp. pose proof (digits2_bounds p) as B.
  assert (Z.pos (digits2_pos p) <= 53) as Hd.
  { destruct (Z.le_gt_cases (Z.pos (digits2_pos p)) 53); [done|].
    assert (2 ^ 53 <= 2 ^ (Z.pos (digits2_pos p) - 1))
      by (apply Z.pow_le_mono_r; lia). lia. }
  unfold binary_normalize, binary_round, shl_align.
  rewrite fexp_small by lia.
  destruct (Z.pos (digits2_pos p) + 0 - 53 - 0) as [|k|k] eqn:Hk; [|lia|].
  - exists p. assert (Z.pos (digits2_pos p) = 53) as E by lia.
    rewrite E. split; [by apply round_exact_53|]. split; [simpl; lia|done].
  - destruct (iter_xO_spec p k) as [V D].
    exists (Pos.iter xO p k).
    assert (Z.pos (digits2_pos (Pos.iter xO p k)) = 53) as D' by (rewrite D; lia).
    replace (Z.pos (digits2_pos p) + 0 - 53) with (Z.pos (digits2_pos p) - 53) by lia.
    split; [apply round_exact_53; [done|lia]|]. split; [|done].
    rewrite V. f_equal. f_equal. lia.
Qed.

(** The quotient of two positive 53-bit values, the divisor being the
    larger, is at most one. *)
Lemma SFdiv_le1 M1 E1 M2 E2 :
  Z.pos (digits2_pos M1) = 53 -> Z.pos (digits2_pos M2) = 53 ->
  -52 <= E1 <= E2 -> E2 <= 0 ->
  (E1 = E2 -> Z.pos M1 <= Z.pos M2) ->
  le1 (SFdiv prec emax (S754_finite false M1 E1) (S754_finite false M2 E2)).
Proof.
  intros D1 D2 HE1 HE2 HM.
  pose proof (digits2_bounds M1) as B1. rewrite D1 in B1.
  pose proof (digits2_bounds M2) as B2. rewrite D2 in B2.
  change (2 ^ (53 - 1)) with 4503599627370496 in *.
  change (2 ^ 53) with 9007199254740992 in *.
  unfold SFdiv, SFdiv_core_binary. simpl Zdigits2. rewrite D1, D2.
  rewrite fexp_small by lia.
  replace (Z.min (53 + E1 - (53 + E2) - 53) (E1 - E2)) with (E1 - E2 - 53) by lia.
  replace (E1 - E2 - (E1 - E2 - 53)) with 53 by lia.
  rewrite Z.shiftl_mul_pow2 by lia.
  change (2 ^ 53) with 9007199254740992.
  pose proof (Z_div_mod (Z.pos M1 * 9007199254740992) (Z.pos M2) eq_refl) as Hdiv.
  destruct (Z.div_eucl (Z.pos M1 * 9007199254740992) (Z.pos M2)) as [q r].
  destruct Hdiv as [Heq Hr].
  assert (4503599627370496 <= q) as Hq_lo by nia.
  assert (q < 18014398509481984) as Hq_hi by nia.
  destruct q as [|q|q]; try lia.
  simpl xorb.
  destruct (Z.lt_ge_cases (Z.pos q) 9007199254740992) as [Hlt|Hge].
  - (* a 53-bit quotient *)
    assert (Z.pos (digits2_pos q) = 53) as Dq by (apply digits2_unique; simpl; lia).
    destruct (round_53 q (E1 - E2 - 53) (new_location (Z.pos M2) r) Dq)
      as [[m ->]| ->]; [lia| |]; simpl.
    + left. lia.
    + destruct (Z.eq_dec E1 E2); [right|left]; [split; [lia|done]|lia].
  - (* a 54-bit quotient *)
    assert (Z.pos (digits2_pos q) = 54) as Dq by (apply digits2_unique; simpl; lia).
    destruct (Z.eq_dec E1 E2) as [->|Hne].
    + (* equal exponents: the mantissas are equal and the quotient is 2^53 *)
      specialize (HM eq_refl).
      assert (Z.pos q = 9007199254740992 /\ r = 0) as [Hq ->] by nia.
      assert (q = 9007199254740992%positive) as -> by lia.
      replace (E2 - E2 - 53) with (-53) by lia.
      assert (new_location (Z.pos M2) 0 = loc_Exact) as ->.
      { unfold new_location, new_location_even, new_location_odd.
        destruct (Z.even _); reflexivity. }
      vm_compute. right. split; reflexivity.
    + destruct (round_54 q (E1 - E2 - 53) (new_location (Z.pos M2) r) Dq)
        as [[m ->]| ->]; [lia| |]; simpl.
      * left. lia.
      * destruct (Z.eq_dec (E1 - E2 - 53 + 2) (-52)); [right|left];
          [split; [lia|done]|lia].
Qed.

Lemma Prim2SF_float_of_Z_small p :
  Z.pos p < 2 ^ 53 ->
  exists M,
    Prim2SF (float_of_Z (Z.pos p))
      = S754_finite false M (Z.pos (digits2_pos p) - 53) /\
    Z.pos M = Z.pos p * 2 ^ (53 - Z.pos (digits2_pos p)) /\
    Z.pos (digits2_pos M) = 53.
Proof.
  intros Hp. destruct (binary_normalize_small p Hp) as (M & HM & HV & HD).
  exists M. split; [|done]. unfold float_of_Z. rewrite HM.
  apply Prim2SF_SF2Prim. unfold valid_binary, bounded, canonical_mantissa.
  rewrite HD, fexp_small by lia.
  pose proof (digits2_bounds p).
  assert (0 < Z.pos (digits2_pos p) <= 53) as Hd.
  { split; [lia|]. destruct (Z.le_gt_cases (Z.pos (digits2_pos p)) 53); [done|].
    assert (2 ^ 53 <= 2 ^ (Z.pos (digits2_pos p) - 1))
      by (apply Z.pow_le_mono_r; lia). lia. }
  apply andb_true_intro. split; [apply Z.eqb_eq; lia|].
  apply Z.leb_le. unfold emax, prec. lia.
Qed.

(** The binary64 quotient of two integers [0 <= a <= b], [0 < b < 2^53],
    lies in [0, 1]. *)
Lemma int_div_unit a b :
  0 <= a <= b -> 0 < b < 2 ^ 53 ->
  (0 <=? float_of_Z a / float_of_Z b)%float = true /\
  (float_of_Z a / float_of_Z b <=? 1)%float = true.
Proof.
  intros Ha Hb. rewrite !leb_spec, div_spec.
  change (Prim2SF 0) with (S754_zero false).
  change (Prim2SF 1) with (S754_finite false 4503599627370496 (-52)).
  apply le1_leb.
  destruct b as [|b|b]; try lia.
  destruct (Prim2SF_float_of_Z_small b) as (M2 & -> & V2 & D2); [lia|].
  destruct a as [|a|a]; try lia.
  { change (Prim2SF (float_of_Z 0)) with (S754_zero false). exact I. }
  destruct (Prim2SF_float_of_Z_small a) as (M1 & -> & V1 & D1); [lia|].
  pose proof (digits2_bounds a) as Ba. pose proof (digits2_bounds b) as Bb.
  assert (Z.pos (digits2_pos a) <= Z.pos (digits2_pos b)) as Hd.
  { destruct (Z.le_gt_cases (Z.pos (digits2_pos a)) (Z.pos (digits2_pos b)));
      [done|].
    assert (2 ^ Z.pos (digits2_pos b) <= 2 ^ (Z.pos (digits2_pos a) - 1))
      by (apply Z.pow_le_mono_r; lia). lia. }
  assert (Z.pos (digits2_pos b) <= 53) as Hdb.
  { destruct (Z.le_gt_cases (Z.pos (digits2_pos b)) 53); [done|].
    assert (2 ^ 53 <= 2 ^ (Z.pos (digits2_pos b) - 1))
      by (apply Z.pow_le_mono_r; lia). lia. }
  apply SFdiv_le1; try done; try lia.
  intros E. assert (Z.pos (digits2_pos a) = Z.pos (digits2_pos b)) as E' by lia.
  rewrite V1, V2, E'. apply Z.mul_le_mono_nonneg_r; [|lia].
  apply Z.pow_nonneg. lia.
Qed.

End PyFloat.

(** ** Cards, the canonical hole key and the player's state *)

Module Cards.

Local Open Scope string_scope.

(** A card is the engine's two-character string: rank then suit. *)
Definition card := string.

Definition NUMS : list string :=
  ["A"; "2"; "3"; "4"; "5"; "6"; "7"; "8"; "9"; "T"; "J"; "Q"; "K"].
Definition SUITS : list string := ["s"; "c"; "d"; "h"].

(** The two nested loops that fill [FULL_DECK]. *)
Definition FULL_DECK : list card :=
  flat_map (fun n => map (fun s => n +:+ s) SUITS) NUMS.

Definition RANK_DICT : gmap string Z :=
  list_to_map
    [("2", 2); ("3", 3); ("4", 4); ("5", 5); ("6", 6); ("7", 7); ("8", 8);
     ("9", 9); ("T", 10); ("J", 11); ("Q", 12); ("K", 13); ("A", 14)].

(** [s[i]]: a one-character string, or [IndexError]. *)
Definition char_at (s : string) (i : nat) : option string :=
  (fun a => String a EmptyString) <$> String.get i s.

Definition rank_to_numeric (rank : string) : option Z := RANK_DICT !! rank.

(** [sorted(cards, reverse=True, key=...)]: every key is computed first (a
    bad rank raises), then a stable sort in descending key order: cards of
    equal rank keep their input order. *)
Fixpoint insert_desc (x : Z * card) (l : list (Z * card)) : list (Z * card) :=
  match l with
  | [] => [x]
  | y :: t => if (x.1 <? y.1)%Z then y :: insert_desc x t else x :: l
  end.

Definition sorted_desc (l : list (Z * card)) : list (Z * card) :=
  foldr insert_desc [] l.

Definition sort_cards_by_rank (cards : list card) : option (list card) :=
  keyed ← mapM (fun x => r ← char_at x 0; n ← rank_to_numeric r; Some (n, x)) cards;
  Some (snd <$> sorted_desc keyed).

Definition hole_list_to_key (hole : list card) : option string :=
  card_1 ← hole !! 0%nat;
  card_2 ← hole !! 1%nat;
  rank_1 ← char_at card_1 0;
  suit_1 ← char_at card_1 1;
  rank_2 ← char_at card_2 0;
  suit_2 ← char_at card_2 1;
  numeric_1 ← rank_to_numeric rank_1;
  numeric_2 ← rank_to_numeric rank_2;
  let suited := bool_decide (suit_1 = suit_2) in
  let suit_string := if suited then "s" else "o" in
  Some (if (numeric_2 <=? numeric_1)%Z
        then rank_1 +:+ rank_2 +:+ suit_string
        else rank_2 +:+ rank_1 +:+ suit_string).

(** The fields of [Player] that the four components read and write. *)
Record Player := mkPlayer {
  board_allocations : list (list card);
  hole_strengths : list float;
  total_payoffs : Z;
  mutated : bool;
  draise_pre : float;
  draise_post : float;
  dcall_pre : float;
  dcall_post : float;
  draise_exp : float;
  draise_const : float;
  starting_strengths : gmap string float
}.

(** The player as [__init__] leaves it, around a given table. *)
Definition init_player (table : gmap string float) : Player :=
  mkPlayer [[]; []; []] [0; 0; 0]%float 0 false 0 0 0 0 0 0 table.

(** [l[i] = x] on a Python list: [IndexError] out of range. *)
Definition list_store {A} (l : list A) (i : nat) (x : A) : option (list A) :=
  if decide (i < length l)%nat then Some (<[i := x]> l) else None.

(** [l.remove(x)]: drops the first element equal to [x]; [ValueError] when
    there is none. *)
Fixpoint list_remove (x : card) (l : list card) : option (list card) :=
  match l with
  | [] => None
  | y :: t => if decide (y = x) then Some t else (y ::.) <$> list_remove x t
  end.

End Cards.

(** ** The card allocator *)

Module Allocator.
Import Cards.

(** The pairs [(my_cards[i], my_cards[j])], [i < j], in the order the two
    nested loops meet them. *)
Fixpoint all_pairs (l : list card) : list (card * card) :=
  match l with
  | [] => []
  | x :: t => map (pair x) t ++ all_pairs t
  end.

(** The body of the inner loop; the accumulator is
    [(temp_cards, max_strength_hole)]. *)
Definition scan_pair (self : Player) (acc : list card * float)
    (p : card * card) : option (list card * float) :=
  let hole_list := [p.1; p.2] in
  temp_hole ← hole_list_to_key hole_list;
  strength ← starting_strengths self !! temp_hole;
  Some (if (acc.2 <? strength)%float then (hole_list, strength) else acc).

Fixpoint scan_pairs (self : Player) (ps : list (card * card))
    (acc : list card * float) : option (list card * float) :=
  match ps with
  | [] => Some acc
  | p :: ps' => acc' ← scan_pair self acc p; scan_pairs self ps' acc'
  end.

(** One iteration of [for k in range(3)]. *)
Definition allocate_round (k : nat) (st : list card * Player)
    : option (list card * Player) :=
  let '(my_cards, self) := st in
  '(temp_cards, max_strength_hole) ←
     scan_pairs self (all_pairs my_cards) ([], 0%float);
  allocs ← list_store (board_allocations self) (2 - k) temp_cards;
  strengths ← list_store (hole_strengths self) (2 - k) max_strength_hole;
  c0 ← temp_cards !! 0%nat;
  my_cards1 ← list_remove c0 my_cards;
  c1 ← temp_cards !! 1%nat;
  my_cards2 ← list_remove c1 my_cards1;
  Some (my_cards2,
        mkPlayer allocs strengths (total_payoffs self) (mutated self)
          (draise_pre self) (draise_post self) (dcall_pre self)
          (dcall_post self) (draise_exp self) (draise_const self)
          (starting_strengths self)).

Arguments allocate_round : simpl never.

Fixpoint allocate_loop (ks : list nat) (st : list card * Player)
    : option (list card * Player) :=
  match ks with
  | [] => Some st
  | k :: ks' => st' ← allocate_round k st; allocate_loop ks' st'
  end.

(** [allocate_cards]: the updated player, or the exception. *)
Definition allocate_cards (self : Player) (my_cards : list card)
    : option Player :=
  sorted ← sort_cards_by_rank my_cards;
  snd <$> allocate_loop (seq 0 3) (sorted, self).

(** *** The notions the statements about the allocator use *)

(** The table strength of a candidate pair, as the inner loop reads it. *)
Definition pair_strength (table : gmap string float) (p : card * card)
    : option float :=
  temp_hole ← hole_list_to_key [p.1; p.2];
  table !! temp_hole.

(** The pair has a key, the key is in the table, and its strength is positive. *)
Definition pair_ok (table : gmap string float) (p : card * card) : Prop :=
  exists s, pair_strength table p = Some s /\ (0 <? s)%float = true.

Definition str_le (table : gmap string float) (s : float) (q : card * card)
    : Prop :=
  exists sq, pair_strength table q = Some sq /\ (sq <=? s)%float = true.

Definition str_lt (table : gmap string float) (s : float) (q : card * card)
    : Prop :=
  exists sq, pair_strength table q = Some sq /\ (sq <? s)%float = true.

(** [p], of strength [s], is the first pair of maximal strength of the scan
    [ps]: strictly stronger than every pair met before it, and at least as
    strong as every pair met after it. *)
Definition first_max (table : gmap string float) (ps : list (card * card))
    (p : card * card) (s : float) : Prop :=
  exists pre post,
    ps = pre ++ p :: post /\ pair_strength table p = Some s /\
    Forall (str_lt table s) pre /\ Forall (str_le table s) post.

(** The cards left once the two cards of [p] are removed. *)
Definition remove_pair (p : card * card) (l : list card) : option (list card) :=
  l1 ← list_remove p.1 l; list_remove p.2 l1.

(** The order in which the two nested loops meet index pairs: by the outer
    index, then by the inner one. *)
Definition scanned_before (x y : nat * nat) : Prop :=
  (x.1 < y.1)%nat \/ (x.1 = y.1 /\ (x.2 < y.2)%nat).

(** [p], of strength [s], is the greedy choice among all the pairs of cards
    of [l]: [p] is [(l[i], l[j])] for some [i < j]; every pair
    [(l[i'], l[j'])] with [i' < j'] that the loops meet before [(i, j)] is
    strictly weaker than [s], and every such pair they meet after it is at
    most as strong. *)
Definition greedy_choice (table : gmap string float) (l : list card)
    (p : card * card) (s : float) : Prop :=
  exists i j,
    (i < j)%nat /\ l !! i = Some p.1 /\ l !! j = Some p.2 /\
    pair_strength table p = Some s /\
    forall i' j' a b,
      (i' < j')%nat -> l !! i' = Some a -> l !! j' = Some b ->
      (scanned_before (i', j') (i, j) -> str_lt table s (a, b)) /\
      (scanned_before (i, j) (i', j') -> str_le table s (a, b)).

(** The precondition of the allocator: six distinct cards, every pair of
    which has a positive strength in the table, and the three-slot lists
    that [__init__] and [handle_round_over] set up. *)
Definition allocator_input (self : Player) (my_cards : list card) : Prop :=
  length my_cards = 6%nat /\ NoDup my_cards /\
  length (board_allocations self) = 3%nat /\
  length (hole_strengths self) = 3%nat /\
  (forall a b, a ∈ my_cards -> b ∈ my_cards -> a <> b ->
               pair_ok (starting_strengths self) (a, b)).

(** A boolean check of the table precondition, for concrete hands. *)
Definition pair_okb (table : gmap string float) (p : card * card) : bool :=
  match pair_strength table p with
  | Some s => (0 <? s)%float
  | None => false
  end.

Definition all_pairs_okb (table : gmap string float) (cards : list card) : bool :=
  forallb (fun a =>
    forallb (fun b => bool_decide (a = b) || pair_okb table (a, b)) cards) cards.

(** A sample of the strength table (the shipped [hole_strengths.csv] is data
    outside the sources), enough for the hand As Ah Kd Ks 2c 2d. *)
Definition sample_strengths : gmap string float :=
  list_to_map
    [("AAo", 0.85); ("KKo", 0.82); ("AKs", 0.67); ("AKo", 0.65);
     ("A2o", 0.55); ("K2s", 0.53); ("K2o", 0.51); ("22o", 0.5)]%float.

Definition sample_hand : list card := ["2c"; "Ks"; "As"; "2d"; "Kd"; "Ah"].

Definition sample_allocated : Player :=
  mkPlayer [["2c"; "2d"]; ["Ks"; "Kd"]; ["As"; "Ah"]] [0.5; 0.82; 0.85]%float
    0 false 0 0 0 0 0 0 sample_strengths.

Section AllocatorFacts.

Variable self : Player.
Let table := starting_strengths self.

Lemma scan_pair_strength acc p :
  scan_pair self acc p =
  (s ← pair_strength table p;
   Some (if (acc.2 <? s)%float then ([p.1; p.2], s) else acc)).
Proof.
  unfold scan_pair, pair_strength.
  destruct (hole_list_to_key [p.1; p.2]); reflexivity.
Qed.

(** The scan either keeps its accumulator, when no pair beats it, or ends on
    the first pair of maximal strength. *)
Lemma scan_pairs_spec ps : forall acc,
  Forall (pair_ok table) ps -> PyFloat.not_nan acc.2 ->
  exists acc', scan_pairs self ps acc = Some acc' /\
    ((acc' = acc /\ Forall (str_le table acc.2) ps) \/
     (exists p s, acc' = ([p.1; p.2], s) /\ (acc.2 <? s)%float = true /\
                  first_max table ps p s)).
Proof.
  induction ps as [|p ps IH]; intros acc Hok Hnan.
  - exists acc. split; [reflexivity|]. left. split; [reflexivity|constructor].
  - inversion Hok as [|? ? (s & Hs & Hpos) Hok']; subst.
    assert (PyFloat.not_nan s) as Hs_nan by eauto using PyFloat.ltb_not_nan_r.
    simpl. rewrite scan_pair_strength, Hs. simpl.
    destruct (acc.2 <? s)%float eqn:Hlt.
    + destruct (IH ([p.1; p.2], s) Hok' Hs_nan) as (acc' & Hrun & Hcase).
      exists acc'. split; [exact Hrun|]. right.
      destruct Hcase as [[-> Hall]|(p' & s' & -> & Hlt' & pre & post & -> & Hs' & Hpre & Hpost)].
      * exists p, s. repeat split; trivial.
        exists [], ps. repeat split; trivial.
      * simpl in Hlt'. exists p', s'. repeat split.
        -- eauto using PyFloat.ltb_leb_trans, PyFloat.ltb_leb.
        -- exists (p :: pre), post. repeat split; trivial.
           constructor; trivial. exists s. auto.
    + assert ((s <=? acc.2)%float = true) as Hle
        by auto using PyFloat.ltb_false_ge.
      destruct (IH acc Hok' Hnan) as (acc' & Hrun & Hcase).
      exists acc'. split; [exact Hrun|].
      destruct Hcase as [[-> Hall]|(p' & s' & -> & Hlt' & pre & post & -> & Hs' & Hpre & Hpost)].
      * left. split; trivial. constructor; trivial. exists s. auto.
      * right. exists p', s'. repeat split; trivial.
        exists (p :: pre), post. repeat split; trivial.
        constructor; trivial. exists s. eauto using PyFloat.leb_ltb_trans.
Qed.

(** From the initial accumulator, over a non-empty scan of good pairs, the
    scan ends on the first maximal pair. *)
Lemma scan_pairs_first_max ps :
  ps <> [] -> Forall (pair_ok table) ps ->
  exists p s, scan_pairs self ps ([], 0%float) = Some ([p.1; p.2], s) /\
              (0 <? s)%float = true /\ first_max table ps p s.
Proof.
  intros Hne Hok.
  destruct (scan_pairs_spec ps ([], 0%float) Hok PyFloat.zero_not_nan)
    as (acc' & Hrun & [[-> Hall]|(p & s & -> & Hlt & Hmax)]).
  - destruct ps as [|q ps]; [congruence|].
    inversion Hok as [|? ? (s & Hs & Hpos) _]; subst.
    inversion Hall as [|? ? (s' & Hs' & Hle) _]; subst. simpl in Hle.
    rewrite Hs in Hs'. injection Hs' as <-.
    apply PyFloat.ltb_not_ge in Hpos. congruence.
  - exists p, s. auto.
Qed.

End AllocatorFacts.

(** Lists: removal and the pairs of a list. *)

Lemma list_remove_elem x l :
  x ∈ l -> exists l', list_remove x l = Some l' /\ l ≡ₚ x :: l' /\ l' `sublist_of` l.
Proof.
  induction l as [|y t IH]; intros Hin; [by apply elem_of_nil in Hin|].
  simpl. destruct (decide (y = x)) as [->|Hne].
  - exists t. split; [reflexivity|]. split; [reflexivity|]. by apply sublist_cons.
  - apply elem_of_cons in Hin as [->|Hin]; [congruence|].
    destruct (IH Hin) as (l' & -> & Hp & Hs). exists (y :: l'). simpl.
    split; [reflexivity|]. split.
    + rewrite Hp. apply Permutation_swap.
    + by apply sublist_skip.
Qed.

Lemma all_pairs_elem a b l : (a, b) ∈ all_pairs l -> a ∈ l /\ b ∈ l.
Proof.
  induction l as [|x t IH]; simpl; [by intros ?%elem_of_nil|].
  intros [Hin|Hin]%elem_of_app.
  - apply list_elem_of_fmap in Hin as (y & [= -> ->] & Hy).
    split; [by left|by right].
  - destruct (IH Hin). split; by right.
Qed.

Lemma all_pairs_distinct a b l : NoDup l -> (a, b) ∈ all_pairs l -> a <> b.
Proof.
  induction l as [|x t IH]; simpl; [by intros _ ?%elem_of_nil|].
  intros [Hx Hnd]%NoDup_cons [Hin|Hin]%elem_of_app.
  - apply list_elem_of_fmap in Hin as (y & [= -> ->] & Hy). congruence.
  - auto.
Qed.

Lemma all_pairs_sublist l1 l2 :
  l1 `sublist_of` l2 -> all_pairs l1 ⊆ all_pairs l2.
Proof.
  induction 1 as [|x l1 l2 Hs IH|x l1 l2 Hs IH]; simpl; [done| |].
  - intros p [Hp|Hp]%elem_of_app; apply elem_of_app; [left|right; auto].
    apply list_elem_of_fmap in Hp as (y & -> & Hy).
    apply list_elem_of_fmap. exists y. split; [done|].
    by eapply elem_of_sublist.
  - intros p Hp. apply elem_of_app. right. auto.
Qed.

Lemma all_pairs_nonempty l : (2 <= length l)%nat -> all_pairs l <> [].
Proof. destruct l as [|x [|y t]]; simpl; try lia. discriminate. Qed.

(** One round on a hand of at least two distinct cards whose pairs are all
    in the table: the round succeeds, picks the first maximal pair, stores
    it at index [2 - k] and removes its two cards. *)
Lemma allocate_round_spec k my_cards self :
  (k <= 2)%nat ->
  length (board_allocations self) = 3%nat ->
  length (hole_strengths self) = 3%nat ->
  NoDup my_cards -> (2 <= length my_cards)%nat ->
  (forall a b, a ∈ my_cards -> b ∈ my_cards -> a <> b ->
               pair_ok (starting_strengths self) (a, b)) ->
  exists p s rest self',
    allocate_round k (my_cards, self) = Some (rest, self') /\
    first_max (starting_strengths self) (all_pairs my_cards) p s /\
    (0 <? s)%float = true /\
    remove_pair p my_cards = Some rest /\
    my_cards ≡ₚ p.1 :: p.2 :: rest /\
    rest `sublist_of` my_cards /\
    board_allocations self' = <[(2 - k)%nat := [p.1; p.2]]> (board_allocations self) /\
    hole_strengths self' = <[(2 - k)%nat := s]> (hole_strengths self) /\
    starting_strengths self' = starting_strengths self.
Proof.
  intros Hk Hba Hhs Hnd Hlen Hok.
  assert (Forall (pair_ok (starting_strengths self)) (all_pairs my_cards)) as Hall.
  { apply Forall_forall. intros [a b] Hin.
    destruct (all_pairs_elem _ _ _ Hin).
    eauto using all_pairs_distinct. }
  destruct (scan_pairs_first_max self _ (all_pairs_nonempty _ Hlen) Hall)
    as (p & s & Hrun & Hpos & Hmax).
  assert (p ∈ all_pairs my_cards) as Hp.
  { destruct Hmax as (pre & post & -> & _). apply elem_of_app. right. by left. }
  destruct p as [a b]. simpl in *.
  destruct (all_pairs_elem _ _ _ Hp) as [Ha Hb].
  pose proof (all_pairs_distinct _ _ _ Hnd Hp) as Hab.
  destruct (list_remove_elem a my_cards Ha) as (l1 & Hr1 & Hp1 & Hs1).
  assert (b ∈ l1) as Hb1.
  { rewrite Hp1 in Hb. apply elem_of_cons in Hb as [->|Hb]; [congruence|done]. }
  destruct (list_remove_elem b l1 Hb1) as (l2 & Hr2 & Hp2 & Hs2).
  eexists (a, b), s, l2, _. unfold allocate_round, remove_pair, list_store.
  rewrite Hrun. simpl. rewrite Hba, Hhs.
  rewrite !decide_True by lia. simpl. rewrite Hr1. simpl. rewrite Hr2. simpl.
  split; [reflexivity|]. repeat split; trivial.
  - by rewrite Hp1, Hp2.
  - by etrans.
Qed.

(** Sorting by rank permutes the hand, provided every card has a rank. *)
Lemma insert_desc_perm x l : insert_desc x l ≡ₚ x :: l.
Proof.
  induction l as [|y t IH]; simpl; [done|].
  destruct (x.1 <? y.1); [|done].
  rewrite IH. apply Permutation_swap.
Qed.

Lemma sorted_desc_perm l : sorted_desc l ≡ₚ l.
Proof.
  induction l as [|x t IH]; simpl; [done|].
  by rewrite insert_desc_perm, IH.
Qed.

Lemma sort_cards_by_rank_perm cards :
  (forall c, c ∈ cards ->
     exists r n, char_at c 0 = Some r /\ rank_to_numeric r = Some n) ->
  exists sorted, sort_cards_by_rank cards = Some sorted /\ sorted ≡ₚ cards.
Proof.
  intros Hrank. unfold sort_cards_by_rank.
  destruct (mapM _ cards) as [keyed|] eqn:Hk; simpl.
  2:{ apply mapM_None, Exists_exists in Hk as (c & Hc & Hnone).
      destruct (Hrank c Hc) as (r & n & Hr & Hn).
      rewrite Hr in Hnone. simpl in Hnone. rewrite Hn in Hnone. discriminate. }
  eexists. split; [reflexivity|].
  rewrite sorted_desc_perm.
  apply mapM_Some in Hk.
  assert (snd <$> keyed = cards) as ->; [|done].
  clear Hrank. induction Hk as [|x y l k Hxy _ IH]; [done|].
  rewrite fmap_cons, IH. f_equal.
  destruct (char_at x 0) as [r|]; simpl in Hxy; [|discriminate].
  destruct (rank_to_numeric r); simpl in Hxy; [|discriminate].
  by injection Hxy as <-.
Qed.

Lemma pair_ok_rank table a b :
  pair_ok table (a, b) ->
  exists r n, char_at a 0 = Some r /\ rank_to_numeric r = Some n.
Proof.
  intros (s & Hs & _). unfold pair_strength, hole_list_to_key in Hs.
  simpl in Hs.
  destruct (char_at a 0) as [r|]; simpl in Hs; [|discriminate].
  destruct (char_at a 1); simpl in Hs; [|discriminate].
  destruct (char_at b 0); simpl in Hs; [|discriminate].
  destruct (char_at b 1); simpl in Hs; [|discriminate].
  destruct (rank_to_numeric r) as [n|] eqn:Hn; simpl in Hs; [|discriminate].
  eauto.
Qed.

(** The run of [allocate_cards] spelled out: the sorted hand, the three
    selections with the cards left after each, and the final lists. *)
Lemma allocate_cards_run self my_cards :
  allocator_input self my_cards ->
  exists sorted p1 s1 r1 p2 s2 r2 p3 s3 self',
    allocate_cards self my_cards = Some self' /\
    sort_cards_by_rank my_cards = Some sorted /\ sorted ≡ₚ my_cards /\
    first_max (starting_strengths self) (all_pairs sorted) p1 s1 /\
    remove_pair p1 sorted = Some r1 /\
    first_max (starting_strengths self) (all_pairs r1) p2 s2 /\
    remove_pair p2 r1 = Some r2 /\
    first_max (starting_strengths self) (all_pairs r2) p3 s3 /\
    remove_pair p3 r2 = Some [] /\
    r1 `sublist_of` sorted /\ r2 `sublist_of` r1 /\
    sorted ≡ₚ [p3.1; p3.2; p2.1; p2.2; p1.1; p1.2] /\
    board_allocations self' = [[p3.1; p3.2]; [p2.1; p2.2]; [p1.1; p1.2]] /\
    hole_strengths self' = [s3; s2; s1].
Proof.
  intros (Hlen & Hnd & Hba & Hhs & Hok).
  destruct (sort_cards_by_rank_perm my_cards) as (sorted & Hsort & Hperm).
  { intros c Hc.
    destruct my_cards as [|c1 [|c2 t]]; simpl in Hlen; try lia.
    apply NoDup_cons in Hnd as [Hc1 _].
    destruct (decide (c = c1)) as [->|Hne].
    - apply (pair_ok_rank (starting_strengths self) c1 c2).
      apply Hok; [by left|by right; left|].
      intros ->. apply Hc1. by left.
    - apply (pair_ok_rank (starting_strengths self) c c1).
      apply Hok; [done|by left|done]. }
  assert (NoDup sorted) as Hnd0 by (by rewrite Hperm).
  assert (length sorted = 6%nat) as Hlen0 by (by rewrite Hperm).
  assert (forall a b, a ∈ sorted -> b ∈ sorted -> a <> b ->
            pair_ok (starting_strengths self) (a, b)) as Hok0.
  { intros a b Ha Hb. rewrite Hperm in Ha, Hb. auto. }
  destruct (allocate_round_spec 0 sorted self) as
    (p1 & s1 & r1 & self1 & Hrun1 & Hmax1 & _ & Hrem1 & Hp1 & Hsub1 & Hba1 & Hhs1 & Htab1);
    [lia|done|done|done|lia|done|].
  assert (NoDup r1) as Hnd1 by eauto using sublist_NoDup.
  assert (length r1 = 4%nat) as Hlen1.
  { apply Permutation_length in Hp1. simpl in Hp1. lia. }
  destruct (allocate_round_spec 1 r1 self1) as
    (p2 & s2 & r2 & self2 & Hrun2 & Hmax2 & _ & Hrem2 & Hp2 & Hsub2 & Hba2 & Hhs2 & Htab2);
    [lia|by rewrite Hba1, length_insert|by rewrite Hhs1, length_insert|done|lia| |].
  { rewrite Htab1. intros a b Ha Hb. eauto using elem_of_sublist. }
  assert (NoDup r2) as Hnd2 by eauto using sublist_NoDup.
  assert (length r2 = 2%nat) as Hlen2.
  { apply Permutation_length in Hp2. simpl in Hp2. lia. }
  destruct (allocate_round_spec 2 r2 self2) as
    (p3 & s3 & r3 & self3 & Hrun3 & Hmax3 & _ & Hrem3 & Hp3 & Hsub3 & Hba3 & Hhs3 & Htab3);
    [lia|by rewrite Hba2, Hba1, !length_insert|by rewrite Hhs2, Hhs1, !length_insert
    |done|lia| |].
  { rewrite Htab2, Htab1. intros a b Ha Hb.
    assert (r2 `sublist_of` sorted) by (by etrans). eauto using elem_of_sublist. }
  assert (r3 = []) as ->.
  { apply Permutation_length in Hp3. simpl in Hp3.
    destruct r3; [done|simpl in Hp3; lia]. }
  rewrite Htab1 in Hmax2. rewrite Htab2, Htab1 in Hmax3.
  exists sorted, p1, s1, r1, p2, s2, r2, p3, s3, self3.
  unfold allocate_cards. rewrite Hsort. simpl.
  rewrite Hrun1. simpl. rewrite Hrun2. simpl.
  rewrite Hrun3. simpl.
  repeat split; trivial.
  - rewrite Hp1, Hp2, Hp3.
    change ([p1.1; p1.2] ++ [p2.1; p2.2] ++ [p3.1; p3.2]
            ≡ₚ ([p3.1; p3.2] ++ [p2.1; p2.2]) ++ [p1.1; p1.2]).
    rewrite (Permutation_app_comm [p2.1; p2.2] [p3.1; p3.2]).
    apply Permutation_app_comm.
  - rewrite Hba3, Hba2, Hba1.
    destruct (board_allocations self) as [|x0 [|x1 [|x2 [|]]]];
      simpl in Hba; try discriminate. reflexivity.
  - rewrite Hhs3, Hhs2, Hhs1.
    destruct (hole_strengths self) as [|x0 [|x1 [|x2 [|]]]];
      simpl in Hhs; try discriminate. reflexivity.
Qed.

(** Whatever the table holds, a scan that completes leaves an accumulator
    that bounds every comparable strength it met. *)
Lemma scan_pairs_bound self ps : forall acc acc',
  scan_pairs self ps acc = Some acc' -> PyFloat.not_nan acc.2 ->
  PyFloat.not_nan acc'.2 /\
  (acc.2 <=? acc'.2)%float = true /\
  (forall q sq, q ∈ ps -> pair_strength (starting_strengths self) q = Some sq ->
                PyFloat.not_nan sq -> (sq <=? acc'.2)%float = true) /\
  (acc' = acc \/
   exists p, p ∈ ps /\ acc'.1 = [p.1; p.2] /\
             pair_strength (starting_strengths self) p = Some acc'.2).
Proof.
  induction ps as [|p ps IH]; intros acc acc' Hrun Hnan; simpl in Hrun.
  - injection Hrun as <-. split; [done|].
    split; [by apply PyFloat.leb_refl|]. split; [|by left].
    intros q sq Hq. by apply elem_of_nil in Hq.
  - rewrite scan_pair_strength in Hrun.
    destruct (pair_strength (starting_strengths self) p) as [s|] eqn:Hs;
      simpl in Hrun; [|discriminate].
    destruct (acc.2 <? s)%float eqn:Hlt.
    + assert (PyFloat.not_nan s) as Hs_nan by eauto using PyFloat.ltb_not_nan_r.
      destruct (IH _ _ Hrun Hs_nan) as (Hnan' & Hle & Hbound & Hcase).
      simpl in Hle.
      split; [done|]. split; [|split].
      * eauto using PyFloat.leb_trans, PyFloat.ltb_leb.
      * intros q sq [->|Hq]%elem_of_cons Hq_s Hq_nan; [|eauto].
        rewrite Hs in Hq_s. by injection Hq_s as <-.
      * right. destruct Hcase as [->|(p' & Hp' & Hc & Hs')].
        -- exists p. split; [by left|]. split; done.
        -- exists p'. split; [by right|]. split; done.
    + destruct (IH _ _ Hrun Hnan) as (Hnan' & Hle & Hbound & Hcase).
      split; [done|]. split; [done|]. split.
      * intros q sq [->|Hq]%elem_of_cons Hq_s Hq_nan; [|eauto].
        rewrite Hs in Hq_s. injection Hq_s as <-.
        eauto using PyFloat.leb_trans, PyFloat.ltb_false_ge.
      * destruct Hcase as [->|(p' & Hp' & Hc & Hs')]; [by left|].
        right. exists p'. split; [by right|]. split; done.
Qed.

Lemma list_remove_sublist x l l' : list_remove x l = Some l' -> l' `sublist_of` l.
Proof.
  revert l'. induction l as [|y t IH]; intros l' H; simpl in H; [discriminate|].
  destruct (decide (y = x)).
  - injection H as <-. by apply sublist_cons.
  - destruct (list_remove x t) as [t'|]; simpl in H; [|discriminate].
    injection H as <-. apply sublist_skip. auto.
Qed.

(** A round that completes has stored the strength of one of the pairs of
    the hand it was given, and that strength bounds every comparable pair
    strength of that hand; the cards it leaves are a sublist of the hand. *)
Lemma allocate_round_bound k my_cards self rest self' :
  allocate_round k (my_cards, self) = Some (rest, self') ->
  exists p s,
    p ∈ all_pairs my_cards /\
    pair_strength (starting_strengths self) p = Some s /\
    PyFloat.not_nan s /\
    (forall q sq, q ∈ all_pairs my_cards ->
       pair_strength (starting_strengths self) q = Some sq ->
       PyFloat.not_nan sq -> (sq <=? s)%float = true) /\
    rest `sublist_of` my_cards /\
    ((2 - k)%nat < length (hole_strengths self))%nat /\
    hole_strengths self' = <[(2 - k)%nat := s]> (hole_strengths self) /\
    starting_strengths self' = starting_strengths self.
Proof.
  unfold allocate_round, list_store. intros H.
  destruct (scan_pairs self (all_pairs my_cards) ([], 0%float))
    as [[temp_cards m]|] eqn:Hrun; simpl in H; [|discriminate].
  destruct (decide (2 - k < length (board_allocations self))%nat);
    simpl in H; [|discriminate].
  destruct (decide (2 - k < length (hole_strengths self))%nat) as [Hlen|];
    simpl in H; [|discriminate].
  destruct (temp_cards !! 0%nat) as [c0|] eqn:Hc0; simpl in H; [|discriminate].
  destruct (list_remove c0 my_cards) as [l1|] eqn:Hr1; simpl in H; [|discriminate].
  destruct (temp_cards !! 1%nat) as [c1|] eqn:Hc1; simpl in H; [|discriminate].
  destruct (list_remove c1 l1) as [l2|] eqn:Hr2; simpl in H; [|discriminate].
  injection H as <- <-.
  destruct (scan_pairs_bound _ _ _ _ Hrun PyFloat.zero_not_nan)
    as (Hnan & _ & Hbound & [[= -> ->]|(p & Hp & Hc & Hs)]); [discriminate|].
  simpl in *. exists p, m. repeat split; trivial.
  trans l1; eauto using list_remove_sublist.
Qed.

Lemma all_pairs_okb_ok table cards :
  all_pairs_okb table cards = true ->
  forall a b, a ∈ cards -> b ∈ cards -> a <> b -> pair_ok table (a, b).
Proof.
  unfold all_pairs_okb. rewrite forallb_forall. intros H a b Ha Hb Hab.
  apply list_elem_of_In in Ha, Hb.
  specialize (H a Ha). rewrite forallb_forall in H. specialize (H b Hb).
  apply orb_true_iff in H as [H|H].
  - apply bool_decide_eq_true in H. contradiction.
  - unfold pair_okb in H. unfold pair_ok.
    destruct (pair_strength table (a, b)) as [s|]; [eauto|discriminate].
Qed.

Example allocate_sample_hand :
  allocate_cards (init_player sample_strengths) sample_hand = Some sample_allocated.
Proof. vm_compute. reflexivity. Qed.

Lemma sample_allocator_input :
  allocator_input (init_player sample_strengths) sample_hand.
Proof.
  repeat split.
  - apply (bool_decide_unpack (NoDup sample_hand)). vm_compute. exact I.
  - apply all_pairs_okb_ok. vm_compute. reflexivity.
Qed.

(** C4.  On six distinct cards, every pair of which has a positive strength
    in the table, [allocate_cards] returns, and the three hands it stores
    have two cards each and together are exactly the six input cards: their
    concatenation is a permutation of the input, hence without repetition,
    so the hands are pairwise disjoint and no card is left out. *)
Theorem allocate_cards_partition self my_cards :
  allocator_input self my_cards ->
  exists self' h0 h1 h2,
    allocate_cards self my_cards = Some self' /\
    board_allocations self' = [h0; h1; h2] /\
    length h0 = 2%nat /\ length h1 = 2%nat /\ length h2 = 2%nat /\
    h0 ++ h1 ++ h2 ≡ₚ my_cards /\
    NoDup (h0 ++ h1 ++ h2).
Proof.
  intros Hin.
  destruct (allocate_cards_run self my_cards Hin) as
    (sorted & p1 & s1 & r1 & p2 & s2 & r2 & p3 & s3 & self' & Hrun & _ & Hperm
     & _ & _ & _ & _ & _ & _ & _ & _ & Hall & Hba & _).
  exists self', [p3.1; p3.2], [p2.1; p2.2], [p1.1; p1.2].
  assert ([p3.1; p3.2] ++ [p2.1; p2.2] ++ [p1.1; p1.2] ≡ₚ my_cards) as Hp.
  { simpl. by rewrite <- Hall. }
  repeat split; trivial.
  rewrite Hp. by destruct Hin as (_ & Hnd & _).
Qed.

Lemma allocate_cards_partition_witness :
  allocator_input (init_player sample_strengths) sample_hand /\
  exists self' h0 h1 h2,
    allocate_cards (init_player sample_strengths) sample_hand = Some self' /\
    board_allocations self' = [h0; h1; h2] /\
    length h0 = 2%nat /\ length h1 = 2%nat /\ length h2 = 2%nat /\
    h0 ++ h1 ++ h2 ≡ₚ sample_hand /\
    NoDup (h0 ++ h1 ++ h2).
Proof.
  split; [exact sample_allocator_input|].
  exact (allocate_cards_partition _ _ sample_allocator_input).
Defined.

(** The pairs of a list are all its index pairs, and the scan meets them
    row by row. *)
Lemma all_pairs_lookup l : forall i j a b,
  (i < j)%nat -> l !! i = Some a -> l !! j = Some b -> (a, b) ∈ all_pairs l.
Proof.
  induction l as [|x t IH]; intros i j a b Hij Ha Hb; [done|].
  destruct j as [|j]; [lia|]. simpl in Hb. simpl. apply elem_of_app.
  destruct i as [|i]; simpl in Ha.
  - injection Ha as <-. left. apply list_elem_of_fmap_2.
    by eapply list_elem_of_lookup_2.
  - right. apply (IH i j); [lia|done..].
Qed.

Lemma scanned_before_S i' j' i j :
  scanned_before (S i', S j') (S i, S j) <-> scanned_before (i', j') (i, j).
Proof. unfold scanned_before. simpl. lia. Qed.

Lemma first_max_greedy table l : forall pre post p s,
  all_pairs l = pre ++ p :: post -> pair_strength table p = Some s ->
  Forall (str_lt table s) pre -> Forall (str_le table s) post ->
  greedy_choice table l p s.
Proof.
  induction l as [|x t IH]; intros pre post p s Hsplit Hs Hpre Hpost.
  { simpl in Hsplit. by destruct pre. }
  simpl in Hsplit. apply app_eq_app in Hsplit as [l0 [[Hmap Hrest]|[Hp Hrest]]].
  - destruct l0 as [|q l0].
    + (* the whole first row comes before [p] *)
      rewrite app_nil_r in Hmap. simpl in Hrest.
      destruct (IH [] post p s) as (i & j & Hij & Hi & Hj & _ & Hall);
        [done|done|constructor|done|].
      rewrite Forall_forall in Hpre.
      exists (S i), (S j). split; [lia|]. do 3 (split; [done|]).
      intros i' j' a b Hij' Ha Hb.
      destruct j' as [|j']; [lia|]. simpl in Hb.
      destruct i' as [|i']; simpl in Ha.
      * injection Ha as <-. split.
        -- intros _. apply Hpre. rewrite <- Hmap.
           apply list_elem_of_fmap_2. by eapply list_elem_of_lookup_2.
        -- unfold scanned_before. simpl. lia.
      * rewrite !scanned_before_S. apply (Hall i' j' a b); [lia|done..].
    + (* [p] is in the first row *)
      injection Hrest as <- ->.
      change (map (pair x) t) with (pair x <$> t) in Hmap.
      apply fmap_app_inv in Hmap as (t1 & t2' & -> & Hcons & ->).
      symmetry in Hcons.
      apply fmap_cons_inv in Hcons as (y & t2 & -> & -> & ->).
      apply Forall_app in Hpost as [Hrow Hlater].
      rewrite Forall_forall in Hpre, Hrow, Hlater.
      exists 0%nat, (S (length t1)). simpl.
      split; [lia|]. split; [done|]. split; [by apply list_lookup_middle|].
      split; [done|].
      intros i' j' a b Hij' Ha Hb.
      destruct j' as [|j']; [lia|]. simpl in Hb.
      destruct i' as [|i']; simpl in Ha.
      * injection Ha as <-. unfold scanned_before. simpl. split.
        -- intros Hlex. assert (j' < length t1)%nat as Hlt by lia.
           rewrite lookup_app_l in Hb by done.
           apply Hpre, list_elem_of_fmap_2. by eapply list_elem_of_lookup_2.
        -- intros Hlex. assert (length t1 < j')%nat as Hlt by lia.
           rewrite lookup_app_r in Hb by lia.
           destruct (j' - length t1)%nat as [|k] eqn:Ek; [lia|]. simpl in Hb.
           apply Hrow, list_elem_of_fmap_2. by eapply list_elem_of_lookup_2.
      * split.
        -- unfold scanned_before. simpl. lia.
        -- intros _. apply Hlater.
           apply (all_pairs_lookup _ i' j'); [lia|done..].
  - (* [p] is in a later row *)
    subst pre. apply Forall_app in Hpre as [Hrow Hpre].
    destruct (IH l0 post p s) as (i & j & Hij & Hi & Hj & _ & Hall);
      [done|done|done|done|].
    rewrite Forall_forall in Hrow.
    exists (S i), (S j). split; [lia|]. do 3 (split; [done|]).
    intros i' j' a b Hij' Ha Hb.
    destruct j' as [|j']; [lia|]. simpl in Hb.
    destruct i' as [|i']; simpl in Ha.
    + injection Ha as <-. split.
      * intros _. apply Hrow.
        apply list_elem_of_fmap_2. by eapply list_elem_of_lookup_2.
      * unfold scanned_before. simpl. lia.
    + rewrite !scanned_before_S. apply (Hall i' j' a b); [lia|done..].
Qed.

Lemma list_remove_permutation x l l' :
  list_remove x l = Some l' -> l ≡ₚ x :: l'.
Proof.
  revert l'. induction l as [|y t IH]; intros l' H; simpl in H; [discriminate|].
  destruct (decide (y = x)) as [->|].
  - by injection H as <-.
  - destruct (list_remove x t) as [t'|]; simpl in H; [|discriminate].
    injection H as <-. rewrite (IH t' eq_refl). apply Permutation_swap.
Qed.

Lemma remove_pair_rest p l rest :
  remove_pair p l = Some rest -> l ≡ₚ p.1 :: p.2 :: rest /\ rest `sublist_of` l.
Proof.
  unfold remove_pair. intros H.
  destruct (list_remove p.1 l) as [l1|] eqn:H1; simpl in H; [|discriminate].
  split.
  - rewrite (list_remove_permutation _ _ _ H1).
    by rewrite (list_remove_permutation _ _ _ H).
  - trans l1; eauto using list_remove_sublist.
Qed.

(** C8.  The selection loop is a greedy maximum over all remaining pairs.
    The hand is first sorted by rank; then, three times, among all the
    pairs [(cards[i], cards[j])], [i < j], of the cards that remain, the
    loop selects the first pair of maximal table strength in the order the
    nested loops meet them ([greedy_choice]: strictly stronger than every
    pair met before it, at least as strong as every pair met after it) and
    removes its two cards, the others keeping their order.  The first
    selection is stored at board index 2, the second at index 1, the third
    at index 0, each with its strength. *)
Theorem allocate_cards_greedy self my_cards :
  allocator_input self my_cards ->
  exists sorted p1 s1 r1 p2 s2 r2 p3 s3 self',
    allocate_cards self my_cards = Some self' /\
    sort_cards_by_rank my_cards = Some sorted /\
    greedy_choice (starting_strengths self) sorted p1 s1 /\
    remove_pair p1 sorted = Some r1 /\
    sorted ≡ₚ p1.1 :: p1.2 :: r1 /\ r1 `sublist_of` sorted /\
    greedy_choice (starting_strengths self) r1 p2 s2 /\
    remove_pair p2 r1 = Some r2 /\
    r1 ≡ₚ p2.1 :: p2.2 :: r2 /\ r2 `sublist_of` r1 /\
    greedy_choice (starting_strengths self) r2 p3 s3 /\
    board_allocations self' !! 2%nat = Some [p1.1; p1.2] /\
    hole_strengths self' !! 2%nat = Some s1 /\
    board_allocations self' !! 1%nat = Some [p2.1; p2.2] /\
    hole_strengths self' !! 1%nat = Some s2 /\
    board_allocations self' !! 0%nat = Some [p3.1; p3.2] /\
    hole_strengths self' !! 0%nat = Some s3.
Proof.
  intros Hin.
  destruct (allocate_cards_run self my_cards Hin) as
    (sorted & p1 & s1 & r1 & p2 & s2 & r2 & p3 & s3 & self' & Hrun & Hsort & _
     & Hm1 & Hr1 & Hm2 & Hr2 & Hm3 & _ & _ & _ & _ & Hba & Hhs).
  destruct Hm1 as (pre1 & post1 & Hs1 & Hv1 & Hpre1 & Hpost1).
  destruct Hm2 as (pre2 & post2 & Hs2 & Hv2 & Hpre2 & Hpost2).
  destruct Hm3 as (pre3 & post3 & Hs3 & Hv3 & Hpre3 & Hpost3).
  destruct (remove_pair_rest _ _ _ Hr1) as [Hp1 Hsub1].
  destruct (remove_pair_rest _ _ _ Hr2) as [Hp2 Hsub2].
  exists sorted, p1, s1, r1, p2, s2, r2, p3, s3, self'.
  rewrite Hba, Hhs. repeat split; trivial; eauto using first_max_greedy.
Qed.

Lemma allocate_cards_greedy_witness :
  allocator_input (init_player sample_strengths) sample_hand /\
  exists sorted p1 s1 r1 p2 s2 r2 p3 s3 self',
    allocate_cards (init_player sample_strengths) sample_hand = Some self' /\
    sort_cards_by_rank sample_hand = Some sorted /\
    greedy_choice sample_strengths sorted p1 s1 /\
    remove_pair p1 sorted = Some r1 /\
    sorted ≡ₚ p1.1 :: p1.2 :: r1 /\ r1 `sublist_of` sorted /\
    greedy_choice sample_strengths r1 p2 s2 /\
    remove_pair p2 r1 = Some r2 /\
    r1 ≡ₚ p2.1 :: p2.2 :: r2 /\ r2 `sublist_of` r1 /\
    greedy_choice sample_strengths r2 p3 s3 /\
    board_allocations self' !! 2%nat = Some [p1.1; p1.2] /\
    hole_strengths self' !! 2%nat = Some s1 /\
    board_allocations self' !! 1%nat = Some [p2.1; p2.2] /\
    hole_strengths self' !! 1%nat = Some s2 /\
    board_allocations self' !! 0%nat = Some [p3.1; p3.2] /\
    hole_strengths self' !! 0%nat = Some s3.
Proof.
  split; [exact sample_allocator_input|].
  exact (allocate_cards_greedy _ _ sample_allocator_input).
Defined.

(** C9.  Whenever [allocate_cards] returns, the strengths it recorded do not
    increase from the back board down:
    [hole_strengths[2] >= hole_strengths[1] >= hole_strengths[0]]
    (Python's [a >= b] on floats is [b <= a]). *)
Theorem hole_strengths_non_increasing self my_cards self' :
  allocate_cards self my_cards = Some self' ->
  exists s0 s1 s2,
    hole_strengths self' !! 0%nat = Some s0 /\
    hole_strengths self' !! 1%nat = Some s1 /\
    hole_strengths self' !! 2%nat = Some s2 /\
    (s1 <=? s2)%float = true /\ (s0 <=? s1)%float = true.
Proof.
  unfold allocate_cards. intros H.
  destruct (sort_cards_by_rank my_cards) as [sorted|]; simpl in H; [|discriminate].
  simpl in H.
  destruct (allocate_round 0 (sorted, self)) as [[r1 self1]|] eqn:H1;
    simpl in H; [|discriminate].
  destruct (allocate_round 1 (r1, self1)) as [[r2 self2]|] eqn:H2;
    simpl in H; [|discriminate].
  destruct (allocate_round 2 (r2, self2)) as [[r3 self3]|] eqn:H3;
    simpl in H; [|discriminate].
  injection H as <-.
  apply allocate_round_bound in H1 as
    (p1 & s1 & Hp1 & Hs1 & Hn1 & Hb1 & Hsub1 & Hl1 & Hhs1 & Ht1).
  apply allocate_round_bound in H2 as
    (p2 & s2 & Hp2 & Hs2 & Hn2 & Hb2 & Hsub2 & Hl2 & Hhs2 & Ht2).
  apply allocate_round_bound in H3 as
    (p3 & s3 & Hp3 & Hs3 & Hn3 & Hb3 & Hsub3 & Hl3 & Hhs3 & Ht3).
  rewrite Ht2, Ht1 in Hs3. rewrite Ht1 in Hs2, Hb2.
  exists s3, s2, s1.
  rewrite Hhs3, Hhs2, Hhs1. simpl in *.
  assert (length (<[2%nat:=s1]> (hole_strengths self)) = length (hole_strengths self))
    as E1 by apply length_insert.
  repeat split.
  - apply list_lookup_insert_eq. rewrite !length_insert. lia.
  - rewrite list_lookup_insert_ne by lia. apply list_lookup_insert_eq.
    rewrite length_insert. lia.
  - rewrite !list_lookup_insert_ne by lia. by apply list_lookup_insert_eq.
  - apply (Hb1 p2 s2); trivial. eapply all_pairs_sublist; eauto.
  - apply (Hb2 p3 s3); trivial. eapply all_pairs_sublist; eauto.
Qed.

Lemma hole_strengths_non_increasing_witness :
  exists s0 s1 s2,
    hole_strengths sample_allocated !! 0%nat = Some s0 /\
    hole_strengths sample_allocated !! 1%nat = Some s1 /\
    hole_strengths sample_allocated !! 2%nat = Some s2 /\
    (s1 <=? s2)%float = true /\ (s0 <=? s1)%float = true.
Proof.
  apply (hole_strengths_non_increasing (init_player sample_strengths) sample_hand).
  vm_compute. reflexivity.
Defined.

End Allocator.

(** ** The equity estimator *)

Module Equity.
Import Cards.

(** The sample count the betting policy passes. *)
Definition _MONTE_CARLO_ITERS : Z := 400.

(** A sampler that takes the first [k] cards of the population, and an
    evaluator that adds up ranks: stand-ins for the two libraries. *)
Definition sample_prefix {rng} (g : rng) (pop : list card) (k : nat)
    : option (list card * rng) :=
  if decide (k <= length pop)%nat then Some (take k pop, g) else None.

Definition rank_sum (cs : list card) : Z :=
  foldr (fun c acc => default 0 (r ← char_at c 0; rank_to_numeric r) + acc) 0 cs.

Section Estimator.

(** The generator behind [random.sample] and the evaluator [eval7.evaluate]
    (applied to the converted cards) are libraries outside the sources. *)
Context {rng : Type}.
Variable random_sample : rng -> list card -> nat -> option (list card * rng).
Variable evaluate : list card -> Z.

(** [set(FULL_DECK) - set(private) - set(public)]. *)
Definition remaining_cards (private public : list card) : list card :=
  list_difference (list_difference FULL_DECK private) public.

(** The points of one draw: 2 for a strict win, 1 for an exact tie, 0 for a
    loss. *)
Definition outcome (private public draw : list card) : Z :=
  let opp_hole := take 2 draw in
  let hidden_public := drop 2 draw in
  let my_strength := evaluate (private ++ public ++ hidden_public) in
  let opp_strength := evaluate (opp_hole ++ public ++ hidden_public) in
  if opp_strength <? my_strength then 2
  else if my_strength =? opp_strength then 1
  else 0.

(** One iteration of the loop: [random.sample(remaining_cards, _OPP + _PUB)]
    raises [ValueError] on a negative size or one above the population. *)
Definition iteration (private public : list card) (draw_size : Z)
    (st : Z * rng) : option (Z * rng) :=
  let '(score, g) := st in
  if draw_size <? 0 then None else
  '(draw, g') ← random_sample g (remaining_cards private public) (Z.to_nat draw_size);
  Some (score + outcome private public draw, g').

Fixpoint iterations (private public : list card) (draw_size : Z) (n : nat)
    (st : Z * rng) : option (Z * rng) :=
  match n with
  | O => Some st
  | S n' => st' ← iteration private public draw_size st;
            iterations private public draw_size n' st'
  end.

(** [public_eval(private, public, street, iters)]. *)
Definition public_eval (private public : list card) (street iters : Z)
    (g : rng) : option (float * rng) :=
  let _PUB := 5 - street in
  let _OPP := 2 in
  '(score, g') ← iterations private public (_OPP + _PUB) (Z.to_nat iters) (0, g);
  r ← PyFloat.int_div score (2 * iters);
  Some (r, g').

(** *** The draws of a run, and its score *)

(** The samples the loop draws, in order, threading the generator. *)
Fixpoint draws (pop : list card) (k n : nat) (g : rng)
    : option (list (list card) * rng) :=
  match n with
  | O => Some ([], g)
  | S n' => '(d, g1) ← random_sample g pop k;
            '(ds, g2) ← draws pop k n' g1;
            Some (d :: ds, g2)
  end.

Definition total_score (private public : list card) (ds : list (list card)) : Z :=
  foldr (fun d acc => outcome private public d + acc) 0 ds.

Definition wins (private public : list card) (ds : list (list card)) : Z :=
  Z.of_nat (length (filter (fun d => outcome private public d = 2) ds)).

Definition ties (private public : list card) (ds : list (list card)) : Z :=
  Z.of_nat (length (filter (fun d => outcome private public d = 1) ds)).

(** What is asked of [random.sample(population, k)]: it succeeds whenever
    [k] does not exceed the population, and its result has [k] elements
    taken from the population without replacement (a sub-multiset). *)
Definition sampler_ok : Prop :=
  forall g pop k,
    ((k <= length pop)%nat -> is_Some (random_sample g pop k)) /\
    (forall d g', random_sample g pop k = Some (d, g') -> length d = k /\ d ⊆+ pop).

Lemma outcome_cases private public d :
  outcome private public d = 2 \/ outcome private public d = 1 \/
  outcome private public d = 0.
Proof.
  unfold outcome.
  destruct (_ <? _); [auto|]. destruct (_ =? _); auto.
Qed.

Lemma total_score_wins_ties private public ds :
  total_score private public ds = 2 * wins private public ds + ties private public ds.
Proof.
  unfold wins, ties. induction ds as [|d ds IH]; [reflexivity|].
  simpl. rewrite IH, !filter_cons.
  destruct (outcome_cases private public d) as [E|[E|E]]; rewrite E;
    repeat case_decide; try discriminate; simpl length; lia.
Qed.

Lemma total_score_bounds private public ds :
  0 <= total_score private public ds <= 2 * Z.of_nat (length ds).
Proof.
  induction ds as [|d ds IH]; simpl; [lia|].
  destruct (outcome_cases private public d) as [E|[E|E]]; rewrite E; lia.
Qed.

(** The loop is: draw the samples, then add up their points. *)
Lemma iterations_draws private public (k : Z) n : forall score g,
  0 <= k ->
  iterations private public k n (score, g) =
  ('(ds, g') ← draws (remaining_cards private public) (Z.to_nat k) n g;
   Some (score + total_score private public ds, g')).
Proof.
  induction n as [|n IH]; intros score g Hk; simpl.
  - f_equal. f_equal. lia.
  - destruct (Z.ltb_spec k 0); [lia|].
    destruct (random_sample g _ _) as [[d g1]|]; simpl; [|reflexivity].
    rewrite IH by done.
    destruct (draws _ _ n g1) as [[ds g2]|]; simpl; [|reflexivity].
    f_equal. f_equal. lia.
Qed.

Lemma draws_spec pop k n : forall g,
  sampler_ok -> (k <= length pop)%nat ->
  exists ds g', draws pop k n g = Some (ds, g') /\ length ds = n /\
                Forall (fun d => length d = k /\ d ⊆+ pop) ds.
Proof.
  induction n as [|n IH]; intros g Hs Hk; simpl.
  - exists [], g. auto.
  - destruct (Hs g pop k) as [Hsome Hres].
    destruct (Hsome Hk) as [[d g1] Hd]. rewrite Hd. simpl.
    destruct (IH g1 Hs Hk) as (ds & g2 & -> & Hlen & Hall). simpl.
    exists (d :: ds), g2. split; [done|]. split; [simpl; lia|].
    constructor; eauto.
Qed.

End Estimator.

Lemma FULL_DECK_NoDup : NoDup FULL_DECK.
Proof. apply (bool_decide_unpack (NoDup FULL_DECK)). vm_compute. exact I. Qed.

Lemma length_list_difference (l k : list card) :
  NoDup l -> (length l <= length (list_difference l k) + length k)%nat.
Proof.
  intros Hnd. rewrite <- length_app. apply submseteq_length.
  apply NoDup_submseteq; [done|]. intros x Hx.
  apply elem_of_app. destruct (decide (x ∈ k)); [by right|left].
  by apply list_elem_of_difference.
Qed.

Lemma remaining_cards_length private public :
  (52 <= length (remaining_cards private public) + length private + length public)%nat.
Proof.
  unfold remaining_cards.
  pose proof (length_list_difference FULL_DECK private FULL_DECK_NoDup).
  pose proof (length_list_difference (list_difference FULL_DECK private) public
                (NoDup_list_difference _ _ FULL_DECK_NoDup)).
  change (length FULL_DECK) with 52%nat in *. lia.
Qed.

Lemma remaining_cards_NoDup private public : NoDup (remaining_cards private public).
Proof. do 2 apply NoDup_list_difference. apply FULL_DECK_NoDup. Qed.

Lemma total_score_count (evaluate : list card -> Z) private public ds :
  total_score evaluate private public ds =
  2 * Z.of_nat (length (filter
        (fun d => evaluate (take 2 d ++ public ++ drop 2 d)
                  < evaluate (private ++ public ++ drop 2 d)) ds))
  + Z.of_nat (length (filter
        (fun d => evaluate (private ++ public ++ drop 2 d)
                  = evaluate (take 2 d ++ public ++ drop 2 d)) ds)).
Proof.
  induction ds as [|d ds IH]; [reflexivity|].
  cbn [total_score foldr]. fold (total_score evaluate private public ds).
  rewrite IH, !filter_cons. unfold outcome.
  destruct (Z.ltb_spec (evaluate (take 2 d ++ public ++ drop 2 d))
              (evaluate (private ++ public ++ drop 2 d)));
    [|destruct (Z.eqb_spec (evaluate (private ++ public ++ drop 2 d))
                 (evaluate (take 2 d ++ public ++ drop 2 d)))];
    repeat case_decide; try lia; cbn [length]; lia.
Qed.

Lemma remaining_cards_elem private public c :
  c ∈ remaining_cards private public <->
  c ∈ FULL_DECK /\ (c ∉ private) /\ (c ∉ public).
Proof. unfold remaining_cards. rewrite !list_elem_of_difference. tauto. Qed.

(** C6.  For a two-card hand, community cards consistent with the street
    and a positive sample count [iters], given a sampler that draws without
    replacement: the estimator returns; it makes [iters] draws from the
    deck cards that are in neither [private] nor [public], each of
    [2 + (5 - street)] distinct such cards (the first 2 are the opponent's
    hand, the other [5 - street] complete the board); its score is 2 for
    every draw on which the evaluator rates the player's seven cards
    strictly above the opponent's, plus 1 for every draw on which it rates
    them equal, between 0 and [2 * iters]; and the value returned is the
    binary64 quotient [score / (2 * iters)], which lies in [0, 1] (for the
    sample counts below [2^52], where [int_div] is Python's division). *)
Theorem public_eval_unit_interval {rng}
    (random_sample : rng -> list card -> nat -> option (list card * rng))
    (evaluate : list card -> Z) private public street iters g :
  sampler_ok random_sample ->
  length private = 2%nat ->
  0 <= street <= 5 -> Z.of_nat (length public) = street ->
  0 < iters ->
  exists ds g' score r,
    draws random_sample (remaining_cards private public)
      (Z.to_nat (2 + (5 - street))) (Z.to_nat iters) g = Some (ds, g') /\
    (forall c, c ∈ remaining_cards private public <->
               c ∈ FULL_DECK /\ (c ∉ private) /\ (c ∉ public)) /\
    Z.of_nat (length ds) = iters /\
    Forall (fun d => d ⊆+ remaining_cards private public /\ NoDup d /\
                     (forall c, c ∈ d ->
                        c ∈ FULL_DECK /\ (c ∉ private) /\ (c ∉ public)) /\
                     length (take 2 d) = 2%nat /\
                     Z.of_nat (length (drop 2 d)) = 5 - street) ds /\
    score
    = 2 * Z.of_nat (length (filter
            (fun d => evaluate (take 2 d ++ public ++ drop 2 d)
                      < evaluate (private ++ public ++ drop 2 d)) ds))
      + Z.of_nat (length (filter
            (fun d => evaluate (private ++ public ++ drop 2 d)
                      = evaluate (take 2 d ++ public ++ drop 2 d)) ds)) /\
    0 <= score <= 2 * iters /\
    r = (PyFloat.float_of_Z score / PyFloat.float_of_Z (2 * iters))%float /\
    public_eval random_sample evaluate private public street iters g
      = Some (r, g') /\
    (2 * iters < 2 ^ 53 -> (0 <=? r)%float = true /\ (r <=? 1)%float = true).
Proof.
  intros Hs Hpriv Hstreet Hpub Hiters.
  pose proof (remaining_cards_length private public) as Hlen.
  destruct (draws_spec random_sample (remaining_cards private public)
              (Z.to_nat (2 + (5 - street))) (Z.to_nat iters) g Hs)
    as (ds & g' & Hdraws & Hn & Hall); [lia|].
  pose proof (total_score_bounds evaluate private public ds) as Hb.
  exists ds, g', (total_score evaluate private public ds). eexists.
  split; [done|]. split; [apply remaining_cards_elem|]. split; [lia|]. split.
  { eapply Forall_impl; [exact Hall|]. intros d [Hd Hsub]. simpl.
    split; [done|]. split; [|split].
    - destruct (submseteq_Permutation _ _ Hsub) as [k Hk].
      pose proof (remaining_cards_NoDup private public) as Hnd.
      rewrite Hk in Hnd. by apply NoDup_app in Hnd as [? _].
    - intros c Hc. apply remaining_cards_elem.
      by eapply elem_of_submseteq.
    - rewrite length_take, length_drop. lia. }
  split; [apply total_score_count|]. split; [lia|].
  split; [reflexivity|]. split.
  - unfold public_eval. rewrite iterations_draws by lia.
    rewrite Hdraws. simpl. unfold PyFloat.int_div.
    destruct (Z.eqb_spec (2 * iters) 0); [lia|]. reflexivity.
  - intros Hsmall. apply PyFloat.int_div_unit; lia.
Qed.

Lemma sample_prefix_ok {rng} : sampler_ok (@sample_prefix rng).
Proof.
  intros g pop k. unfold sample_prefix. split.
  - intros H. rewrite decide_True by done. eauto.
  - intros d g' H. destruct (decide (k <= length pop)%nat); [|discriminate].
    injection H as <- <-. split.
    + rewrite length_take. lia.
    + apply sublist_submseteq, sublist_take.
Qed.

Lemma public_eval_unit_interval_witness :
  exists ds g' score r,
    draws sample_prefix (remaining_cards ["As"; "Ah"] ["Kd"; "7c"; "2s"])
      (Z.to_nat (2 + (5 - 3))) (Z.to_nat _MONTE_CARLO_ITERS) tt = Some (ds, g') /\
    (forall c, c ∈ remaining_cards ["As"; "Ah"] ["Kd"; "7c"; "2s"] <->
               c ∈ FULL_DECK /\ (c ∉ ["As"; "Ah"]) /\ (c ∉ ["Kd"; "7c"; "2s"])) /\
    Z.of_nat (length ds) = _MONTE_CARLO_ITERS /\
    Forall (fun d => d ⊆+ remaining_cards ["As"; "Ah"] ["Kd"; "7c"; "2s"] /\
                     NoDup d /\
                     (forall c, c ∈ d ->
                        c ∈ FULL_DECK /\ (c ∉ ["As"; "Ah"]) /\
                        (c ∉ ["Kd"; "7c"; "2s"])) /\
                     length (take 2 d) = 2%nat /\
                     Z.of_nat (length (drop 2 d)) = 5 - 3) ds /\
    score
    = 2 * Z.of_nat (length (filter
            (fun d => rank_sum (take 2 d ++ ["Kd"; "7c"; "2s"] ++ drop 2 d)
                      < rank_sum (["As"; "Ah"] ++ ["Kd"; "7c"; "2s"] ++ drop 2 d))
            ds))
      + Z.of_nat (length (filter
            (fun d => rank_sum (["As"; "Ah"] ++ ["Kd"; "7c"; "2s"] ++ drop 2 d)
                      = rank_sum (take 2 d ++ ["Kd"; "7c"; "2s"] ++ drop 2 d))
            ds)) /\
    0 <= score <= 2 * _MONTE_CARLO_ITERS /\
    r = (PyFloat.float_of_Z score
         / PyFloat.float_of_Z (2 * _MONTE_CARLO_ITERS))%float /\
    public_eval sample_prefix rank_sum ["As"; "Ah"] ["Kd"; "7c"; "2s"] 3
      _MONTE_CARLO_ITERS tt = Some (r, g') /\
    (2 * _MONTE_CARLO_ITERS < 2 ^ 53 ->
     (0 <=? r)%float = true /\ (r <=? 1)%float = true).
Proof.
  apply (public_eval_unit_interval sample_prefix rank_sum
           ["As"; "Ah"] ["Kd"; "7c"; "2s"] 3 _MONTE_CARLO_ITERS tt).
  - exact sample_prefix_ok.
  - reflexivity.
  - lia.
  - reflexivity.
  - reflexivity.
Defined.

End Equity.

(** ** The threshold tuner *)

Module Tuner.
Import Cards.

(** The module-level dictionaries [_RAISE_MIN_STR], [_CALL_MIN_STR] (keys
    ['pre'], ['post']) and [_RAISE_VALUES] (keys ['exp'], ['const']). *)
Record StrDict := mkStrDict { pre : float; post : float }.
Record RaiseValues := mkRaiseValues { exp : float; const : float }.
Record Thresholds := mkThresholds {
  _RAISE_MIN_STR : StrDict;
  _CALL_MIN_STR : StrDict;
  _RAISE_VALUES : RaiseValues
}.

(** The values the module is loaded with. *)
Definition shipped_thresholds : Thresholds :=
  mkThresholds
    (mkStrDict 0.6066179515462299 0.7212909509127321)
    (mkStrDict 0.5570778707878955 0.6207629881906793)
    (mkRaiseValues 1.8301191486578343 14.439631715170798).

Definition set_total_payoffs (v : Z) (self : Player) : Player :=
  mkPlayer (board_allocations self) (hole_strengths self) v (mutated self)
    (draise_pre self) (draise_post self) (dcall_pre self) (dcall_post self)
    (draise_exp self) (draise_const self) (starting_strengths self).

Definition set_mutated (b : bool) (self : Player) : Player :=
  mkPlayer (board_allocations self) (hole_strengths self) (total_payoffs self) b
    (draise_pre self) (draise_post self) (dcall_pre self) (dcall_post self)
    (draise_exp self) (draise_const self) (starting_strengths self).

Definition set_deltas (rp rpo cp cpo e c : float) (self : Player) : Player :=
  mkPlayer (board_allocations self) (hole_strengths self) (total_payoffs self)
    (mutated self) rp rpo cp cpo e c (starting_strengths self).

(** The six [+=] lines and the six [-=] lines, with the deltas stored in
    the player. *)
Definition add_deltas (self : Player) (th : Thresholds) : Thresholds :=
  mkThresholds
    (mkStrDict (pre (_RAISE_MIN_STR th) + draise_pre self)
               (post (_RAISE_MIN_STR th) + draise_post self))
    (mkStrDict (pre (_CALL_MIN_STR th) + dcall_pre self)
               (post (_CALL_MIN_STR th) + dcall_post self))
    (mkRaiseValues (exp (_RAISE_VALUES th) + draise_exp self)
                   (const (_RAISE_VALUES th) + draise_const self)).

Definition sub_deltas (self : Player) (th : Thresholds) : Thresholds :=
  mkThresholds
    (mkStrDict (pre (_RAISE_MIN_STR th) - draise_pre self)
               (post (_RAISE_MIN_STR th) - draise_post self))
    (mkStrDict (pre (_CALL_MIN_STR th) - dcall_pre self)
               (post (_CALL_MIN_STR th) - dcall_post self))
    (mkRaiseValues (exp (_RAISE_VALUES th) - draise_exp self)
                   (const (_RAISE_VALUES th) - draise_const self)).

Definition mutate_iters : Z := 5.

Section Mutation.

(** The generator behind [random.random]. *)
Context {rng : Type}.
Variable random_random : rng -> float * rng.

(** [(random.random() * scale - offset) / math.sqrt(round_num / mutate_iters)]:
    the draw comes first, then the square root, then the division. *)
Definition perturbation (scale offset : float) (round_num : Z) (g : rng)
    : option (float * rng) :=
  let '(r, g') := random_random g in
  ratio ← PyFloat.int_div round_num mutate_iters;
  root ← PyFloat.math_sqrt ratio;
  d ← PyFloat.float_div (r * scale - offset) root;
  Some (d, g').

(** The branch "went extinct :( new mutation...". *)
Definition new_mutation (self : Player) (th : Thresholds) (round_num : Z)
    (g : rng) : option (Player * Thresholds * rng) :=
  let self := set_mutated true self in
  '(rp, g) ← perturbation 0.05 0.025 round_num g;
  '(rpo, g) ← perturbation 0.05 0.025 round_num g;
  '(cp, g) ← perturbation 0.05 0.025 round_num g;
  '(cpo, g) ← perturbation 0.05 0.025 round_num g;
  '(e, g) ← perturbation 0.1 0.05 round_num g;
  '(c, g) ← perturbation 4 2 round_num g;
  let self := set_deltas rp rpo cp cpo e c self in
  Some (self, add_deltas self th, g).

(** The branch "went extinct again :( flipping mutation...". *)
Definition flip_mutation (self : Player) (th : Thresholds) : Player * Thresholds :=
  let self := set_mutated false self in
  (self, sub_deltas self th).

(** [mutate], on the round's payoff [my_delta = terminal_state.deltas[active]]
    and [round_num = game_state.round_num]; the state is the player and the
    module-level thresholds. *)
Definition mutate (st : Player * Thresholds) (my_delta round_num : Z) (g : rng)
    : option (Player * Thresholds * rng) :=
  let '(self, th) := st in
  let self := set_total_payoffs (total_payoffs self + my_delta) self in
  if round_num `mod` mutate_iters =? 0 then
    '(self, th, g) ←
      (if total_payoffs self <? 6 * mutate_iters then
         if negb (mutated self) then new_mutation self th round_num g
         else Some (flip_mutation self th, g)
       else if total_payoffs self =? 6 * mutate_iters then Some (self, th, g)
       else Some (set_mutated false self, th, g));
    Some (set_total_payoffs 0 self, th, g)
  else Some (self, th, g).

(** [handle_round_over] calls [mutate] once a round: a run over the payoffs
    of rounds [first], [first + 1], ... *)
Fixpoint mutate_rounds (first : Z) (payoffs : list Z)
    (st : Player * Thresholds) (g : rng) : option (Player * Thresholds * rng) :=
  match payoffs with
  | [] => Some (st, g)
  | my_delta :: later =>
      '(self, th, g') ← mutate st my_delta first g;
      mutate_rounds (first + 1) later (self, th) g'
  end.

End Mutation.

Arguments mutate : simpl never.

(** A generator that reads its draws off a tape. *)
Definition tape_random (g : list float) : float * list float :=
  match g with
  | r :: g' => (r, g')
  | [] => (0%float, [])
  end.

(** *** What the tuner is proved to do *)

(** Every threshold survives the float round trip [(x + d) - d] with the
    deltas stored in the player. *)
Definition round_trips (self : Player) (th : Thresholds) : Prop :=
  (pre (_RAISE_MIN_STR th) + draise_pre self - draise_pre self
     = pre (_RAISE_MIN_STR th))%float /\
  (post (_RAISE_MIN_STR th) + draise_post self - draise_post self
     = post (_RAISE_MIN_STR th))%float /\
  (pre (_CALL_MIN_STR th) + dcall_pre self - dcall_pre self
     = pre (_CALL_MIN_STR th))%float /\
  (post (_CALL_MIN_STR th) + dcall_post self - dcall_post self
     = post (_CALL_MIN_STR th))%float /\
  (exp (_RAISE_VALUES th) + draise_exp self - draise_exp self
     = exp (_RAISE_VALUES th))%float /\
  (const (_RAISE_VALUES th) + draise_const self - draise_const self
     = const (_RAISE_VALUES th))%float.

Lemma round_trips_iff self th :
  round_trips self th <-> sub_deltas self (add_deltas self th) = th.
Proof.
  destruct th as [[rp rpo] [cp cpo] [e c]].
  unfold round_trips, sub_deltas, add_deltas. simpl. split.
  - intros (-> & -> & -> & -> & -> & ->). reflexivity.
  - intros [= -> -> -> -> -> ->]. repeat split; reflexivity.
Qed.

Section MutationFacts.

Context {rng : Type}.
Variable random_random : rng -> float * rng.

(** Off a window boundary only the payoff accumulator changes. *)
Lemma mutate_off_boundary self th my_delta round_num g :
  round_num `mod` mutate_iters <> 0 ->
  mutate random_random (self, th) my_delta round_num g =
  Some (set_total_payoffs (total_payoffs self + my_delta) self, th, g).
Proof.
  intros H. unfold mutate.
  destruct (Z.eqb_spec (round_num `mod` mutate_iters) 0); [contradiction|done].
Qed.

(** A new mutation stores its deltas, adds them and raises the flag. *)
Lemma new_mutation_inv self th round_num g self1 th1 g1 :
  new_mutation random_random self th round_num g = Some (self1, th1, g1) ->
  th1 = add_deltas self1 th /\ mutated self1 = true /\
  total_payoffs self1 = total_payoffs self.
Proof.
  unfold new_mutation. intros H.
  repeat (match type of H with
          | (match ?x with _ => _ end) = _ => destruct x as [[? ?]|]; simpl in H
          | (?x ≫= _) = _ => destruct x as [[? ?]|]; simpl in H
          end; try discriminate).
  injection H as <- <- <-. auto.
Qed.

(** The revert branch, at a boundary, below target, with the flag up. *)
Lemma mutate_revert self th my_delta round_num g :
  round_num `mod` mutate_iters = 0 ->
  total_payoffs self + my_delta < 6 * mutate_iters ->
  mutated self = true ->
  mutate random_random (self, th) my_delta round_num g =
  Some (set_total_payoffs 0 (set_mutated false self), sub_deltas self th, g).
Proof.
  intros Hr Hp Hm. unfold mutate. rewrite Hr. simpl.
  destruct (Z.ltb_spec (total_payoffs self + my_delta) (6 * mutate_iters)); [|lia].
  rewrite Hm. reflexivity.
Qed.

End MutationFacts.

(** C10.  At a window boundary where the accumulated payoff equals the
    target [6 * mutate_iters] exactly, [mutate] returns with the thresholds,
    the flag, the stored deltas and the generator as they were: only the
    payoff accumulator changes, to zero.  And at every window boundary,
    whichever branch is taken, a call that returns leaves the accumulator
    at zero. *)
Theorem mutate_tie_frame {rng} (random_random : rng -> float * rng)
    self th my_delta round_num g :
  round_num `mod` mutate_iters = 0 ->
  (total_payoffs self + my_delta = 6 * mutate_iters ->
   mutate random_random (self, th) my_delta round_num g =
   Some (set_total_payoffs 0 self, th, g)) /\
  (forall self' th' g',
     mutate random_random (self, th) my_delta round_num g = Some (self', th', g') ->
     total_payoffs self' = 0).
Proof.
  intros Hr. unfold mutate. rewrite Hr. simpl. split.
  - intros ->. reflexivity.
  - intros self' th' g' H.
    match type of H with
    | (?x ≫= _) = _ => destruct x as [[[s t] g0]|]; simpl in H; [|discriminate]
    end.
    by injection H as <- <- <-.
Qed.

Lemma mutate_tie_frame_witness :
  (total_payoffs (set_mutated true (init_player ∅)) + 30 = 6 * mutate_iters ->
   mutate tape_random (set_mutated true (init_player ∅), shipped_thresholds) 30 5 []
   = Some (set_total_payoffs 0 (set_mutated true (init_player ∅)),
           shipped_thresholds, [])) /\
  (forall self' th' g',
     mutate tape_random (set_mutated true (init_player ∅), shipped_thresholds) 30 5 []
     = Some (self', th', g') ->
     total_payoffs self' = 0).
Proof.
  apply (mutate_tie_frame tape_random (set_mutated true (init_player ∅))
           shipped_thresholds 30 5 []).
  reflexivity.
Defined.

(** C5, as stated, fails: from the shipped thresholds, a mutation at round 5
    whose sixth draw is 0.9375000000000004 (a delta of 1.7500000000000018
    on [_RAISE_VALUES['const']]) followed by the revert at round 10 leaves
    14.439631715170796 where 14.439631715170798 was: the sum is rounded
    before the delta is taken off again. *)
Lemma revert_not_bit_exact :
  exists self1 th1 g1 self2 th2 g2,
    mutate tape_random (init_player ∅, shipped_thresholds) 0 5
      [0.5; 0.5; 0.5; 0.5; 0.5; 0.9375000000000004]%float = Some (self1, th1, g1) /\
    mutated self1 = true /\ th1 = add_deltas self1 shipped_thresholds /\
    mutate tape_random (self1, th1) 0 10 g1 = Some (self2, th2, g2) /\
    mutated self2 = false /\ th2 = sub_deltas self1 th1 /\
    th2 <> shipped_thresholds.
Proof.
  do 6 eexists. split; [vm_compute; reflexivity|].
  split; [reflexivity|]. split; [vm_compute; reflexivity|].
  split; [vm_compute; reflexivity|].
  split; [reflexivity|]. split; [vm_compute; reflexivity|].
  intros H.
  apply (f_equal (fun t => Prim2SF (const (_RAISE_VALUES t)))) in H.
  vm_compute in H. discriminate.
Qed.

(** C5, amended.  A mutation applied at a window boundary (flag down,
    payoff below target) stores its deltas and adds them; if the payoffs of
    the next five rounds again sum below target, the fifth of them takes the
    revert branch, which subtracts the same stored deltas and clears the
    flag.  Every threshold [x] thus ends as [(x + d) - d] in binary64
    arithmetic, and the thresholds are back to their pre-mutation values
    exactly when each of these round trips is exact. *)
Theorem mutate_then_revert {rng} (random_random : rng -> float * rng)
    self th my_delta round_num g self1 th1 g1 a b c d e :
  mutated self = false ->
  round_num `mod` mutate_iters = 0 ->
  total_payoffs self + my_delta < 6 * mutate_iters ->
  mutate random_random (self, th) my_delta round_num g = Some (self1, th1, g1) ->
  a + b + c + d + e < 6 * mutate_iters ->
  mutated self1 = true /\ th1 = add_deltas self1 th /\
  mutate_rounds random_random (round_num + 1) [a; b; c; d; e] (self1, th1) g1 =
    Some (set_total_payoffs 0 (set_mutated false self1),
          sub_deltas self1 (add_deltas self1 th), g1) /\
  (round_trips self1 th <-> sub_deltas self1 (add_deltas self1 th) = th).
Proof.
  intros Hm Hr Hp Hrun Hsum.
  assert (mutated self1 = true /\ th1 = add_deltas self1 th /\ total_payoffs self1 = 0)
    as (Hm1 & -> & Hp1).
  { unfold mutate in Hrun. rewrite Hr in Hrun. simpl in Hrun.
    destruct (Z.ltb_spec (total_payoffs self + my_delta) (6 * mutate_iters)); [|lia].
    rewrite Hm in Hrun. simpl in Hrun.
    destruct (new_mutation _ _ _ _ _) as [[[s t] g0]|] eqn:Hnew;
      simpl in Hrun; [|discriminate].
    injection Hrun as <- <- <-.
    apply new_mutation_inv in Hnew as (-> & Hflag & _). auto. }
  split; [done|]. split; [done|]. split; [|apply round_trips_iff].
  assert (forall k, 0 < k < 5 -> (round_num + k) `mod` mutate_iters <> 0) as Hoff.
  { intros k Hk. unfold mutate_iters in *.
    apply Z.mod_divide in Hr as [q ->]; [|lia].
    rewrite Z.add_comm, Z_mod_plus_full, Z.mod_small; lia. }
  assert ((round_num + 5) `mod` mutate_iters = 0) as Hon.
  { unfold mutate_iters in *.
    apply Z.mod_divide in Hr as [q ->]; [|lia].
    replace (q * 5 + 5) with (0 + (q + 1) * 5) by lia.
    by rewrite Z_mod_plus_full. }
  simpl.
  rewrite mutate_off_boundary by (apply Hoff; lia). simpl.
  replace (round_num + 1 + 1) with (round_num + 2) by lia.
  rewrite mutate_off_boundary by (apply Hoff; lia). simpl.
  replace (round_num + 2 + 1) with (round_num + 3) by lia.
  rewrite mutate_off_boundary by (apply Hoff; lia). simpl.
  replace (round_num + 3 + 1) with (round_num + 4) by lia.
  rewrite mutate_off_boundary by (apply Hoff; lia). simpl.
  replace (round_num + 4 + 1) with (round_num + 5) by lia.
  rewrite mutate_revert; [reflexivity|done|simpl; lia|done].
Qed.

Lemma mutate_then_revert_witness :
  exists self1 th1 g1,
    mutate tape_random (init_player ∅, shipped_thresholds) 0 5
      [0.75; 0.25; 0.875; 0.125; 0.3; 0.75]%float = Some (self1, th1, g1) /\
    mutated self1 = true /\ th1 = add_deltas self1 shipped_thresholds /\
    mutate_rounds tape_random (5 + 1) [1; 2; 3; 4; 5] (self1, th1) g1 =
      Some (set_total_payoffs 0 (set_mutated false self1),
            sub_deltas self1 (add_deltas self1 shipped_thresholds), g1) /\
    (round_trips self1 shipped_thresholds <->
     sub_deltas self1 (add_deltas self1 shipped_thresholds) = shipped_thresholds).
Proof.
  destruct (mutate tape_random (init_player ∅, shipped_thresholds) 0 5
              [0.75; 0.25; 0.875; 0.125; 0.3; 0.75]%float)
    as [[[self1 th1] g1]|] eqn:E; [|vm_compute in E; discriminate].
  exists self1, th1, g1. split; [reflexivity|].
  apply (mutate_then_revert tape_random (init_player ∅) shipped_thresholds 0 5
           [0.75; 0.25; 0.875; 0.125; 0.3; 0.75]%float self1 th1 g1 1 2 3 4 5);
    [reflexivity|reflexivity|reflexivity|exact E|reflexivity].
Defined.

(** In that run every round trip is exact: the revert restores the shipped
    thresholds. *)
Example exact_revert :
  exists st g,
    mutate_rounds tape_random 1 [0; 0; 0; 0; 0; 1; 2; 3; 4; 5]
      (init_player ∅, shipped_thresholds)
      [0.75; 0.25; 0.875; 0.125; 0.3; 0.75]%float = Some (st, g) /\
    st.2 = shipped_thresholds /\ draise_const st.1 = 1%float.
Proof. do 2 eexists. split; [vm_compute; reflexivity|]. split; reflexivity. Qed.

End Tuner.

(** ** The betting policy *)

Module Betting.
Import Cards Tuner Equity.

(** The engine's action objects, and their classes as the legal-action
    sets hold them. *)
Inductive Action :=
  | FoldAction
  | CallAction
  | CheckAction
  | RaiseAction (amount : Z)
  | AssignAction (cards : list card).

Inductive ActionClass :=
  FoldClass | CallClass | CheckClass | RaiseClass | AssignClass.

#[global] Instance ActionClass_eq_dec : EqDecision ActionClass.
Proof. solve_decision. Defined.

(** The engine's states are classes outside the sources: their fields are
    the record's fields, and what their methods return is given with them
    ([raise_bounds] is [board_state.raise_bounds(active, round_state.stacks)],
    [legal_actions] is [round_state.legal_actions()]). *)
Record BoardState := mkBoardState {
  pot : Z;
  pips : list Z;
  deck : list card;
  raise_bounds : Z * Z
}.

Inductive board :=
  | Live (b : BoardState)
  | Terminal (previous_state : BoardState).

Record RoundState := mkRoundState {
  street : Z;
  stacks : list Z;
  board_states : list board;
  legal_actions : list (list ActionClass)
}.

Definition NUM_BOARDS : nat := 3.
Definition _INTIMIDATION_THRESHOLD : Z := 0.

(** [active] is the player's index, 0 or 1. *)
Definition index (active : bool) : nat := if active then 1%nat else 0%nat.

Inductive state_str := Pre | Post.

Definition at_stage (d : StrDict) (s : state_str) : float :=
  match s with Pre => pre d | Post => post d end.

(** The "commit" action and its cost. *)
Definition commit (legal : list ActionClass)
    (raise_amount my_pip board_cont_cost my_stack net_cost : Z) : Action * Z :=
  let raise_cost := raise_amount - my_pip in
  if bool_decide (RaiseClass ∈ legal) && (raise_cost <=? my_stack - net_cost)
     && negb (raise_cost =? 0)
  then (RaiseAction raise_amount, raise_cost)
  else if bool_decide (CallClass ∈ legal) && (board_cont_cost <=? my_stack - net_cost)
  then (CallAction, board_cont_cost)
  else if bool_decide (CheckClass ∈ legal)
  then (CheckAction, 0)
  else (FoldAction, 0).

(** The intimidation adjustment of a strength, for a positive continue cost. *)
Definition intimidated (street board_cont_cost : Z) (strength : float)
    : option float :=
  if _INTIMIDATION_THRESHOLD <? board_cont_cost then
    if (street =? 0) && (20 <? board_cont_cost) then Some strength
    else
      root_cost ← PyFloat.math_sqrt
                    (PyFloat.float_of_Z (board_cont_cost - _INTIMIDATION_THRESHOLD));
      root_strength ← PyFloat.math_sqrt strength;
      let intimidation := (0.05 * root_cost * root_strength)%float in
      Some (PyFloat.max0 (strength - intimidation))
  else Some strength.

Definition pot_odds (board_cont_cost pot_total : Z) : option float :=
  PyFloat.int_div board_cont_cost (pot_total + board_cont_cost).

(** The precedence as the specification words it: a raise when raising is
    legal, affordable and not a pure call (a raise to
    [my_pip + board_cont_cost]); otherwise a call when affordable; otherwise
    a check when legal; otherwise a fold. *)
Definition commit_as_specified (legal : list ActionClass)
    (raise_amount my_pip board_cont_cost my_stack net_cost : Z) : Action :=
  let raise_cost := raise_amount - my_pip in
  if bool_decide (RaiseClass ∈ legal) && (raise_cost <=? my_stack - net_cost)
     && negb (raise_amount =? my_pip + board_cont_cost)
  then RaiseAction raise_amount
  else if board_cont_cost <=? my_stack - net_cost then CallAction
  else if bool_decide (CheckClass ∈ legal) then CheckAction
  else FoldAction.

(** A pre-flop decision point: blinds of 1 and 2 posted on each board, the
    player to act first with the hands of [Allocator.sample_allocated]. *)
Definition sample_round : RoundState :=
  mkRoundState 0 [194; 197]
    [Live (mkBoardState 0 [1; 2] [] (4, 195));
     Live (mkBoardState 0 [1; 2] [] (4, 195));
     Live (mkBoardState 0 [1; 2] [] (4, 195))]
    [[FoldClass; CallClass; RaiseClass];
     [FoldClass; CallClass; RaiseClass];
     [FoldClass; CallClass; RaiseClass]].

(** The same point after the opponent has raised to 12 on every board. *)
Definition raised_round : RoundState :=
  mkRoundState 0 [192; 162]
    [Live (mkBoardState 0 [2; 12] [] (22, 194));
     Live (mkBoardState 0 [2; 12] [] (22, 194));
     Live (mkBoardState 0 [2; 12] [] (22, 194))]
    [[FoldClass; CallClass; RaiseClass];
     [FoldClass; CallClass; RaiseClass];
     [FoldClass; CallClass; RaiseClass]].

(** A stand-in for [math.exp], which no pre-flop decision calls. *)
Definition sample_exp (x : float) : option float := Some 1%float.

Section Policy.

(** The libraries behind [random.random], [random.sample], [eval7.evaluate]
    and [math.exp] ([OverflowError] is [None]). *)
Context {rng : Type}.
Variable random_random : rng -> float * rng.
Variable random_sample : rng -> list card -> nat -> option (list card * rng).
Variable evaluate : list card -> Z.
Variable math_exp : float -> option float.

(** The strength of the hand on board [i] and the raise size it suggests,
    before the size is clamped. *)
Definition strength_and_raise (self : Player) (th : Thresholds)
    (street : Z) (i : nat) (cards board_cards_i : list card)
    (my_pip board_cont_cost : Z) (g : rng)
    : option (state_str * float * Z * rng) :=
  if street <? 3 then
    strength ← hole_strengths self !! i;
    key ← hole_list_to_key cards;
    table_strength ← starting_strengths self !! key;
    raise_amount ←
      (if (pre (_RAISE_MIN_STR th) <? table_strength)%float
       then PyFloat.int_of_float
              (PyFloat.float_of_Z (my_pip + board_cont_cost)
               + (strength - 0.5) * 10)%float
       else Some 0);
    Some (Pre, strength, raise_amount, g)
  else
    '(strength, g') ←
       public_eval random_sample evaluate cards
         (take (Z.to_nat street) board_cards_i) street _MONTE_CARLO_ITERS g;
    raise_amount ←
      (if (post (_RAISE_MIN_STR th) <? strength)%float
       then e ← math_exp (exp (_RAISE_VALUES th) * (strength - 0.321875))%float;
            PyFloat.int_of_float
              (PyFloat.float_of_Z (my_pip + board_cont_cost)
               + PyFloat.float_of_Z (street ^ 2) * e
               - const (_RAISE_VALUES th))%float
       else Some 0);
    Some (Post, strength, raise_amount, g').

(** The decision once the strength and the clamped raise size are known:
    the action for the board and the new [net_cost]. *)
Definition respond (th : Thresholds) (legal : list ActionClass)
    (street my_pip board_cont_cost pot_total my_stack net_cost : Z)
    (stage : state_str) (strength : float) (raise_amount : Z) (g : rng)
    : option (Action * (Z * rng)) :=
  let '(commit_action, commit_cost) :=
    commit legal raise_amount my_pip board_cont_cost my_stack net_cost in
  if 0 <? board_cont_cost then
    let preintimidation_strength := strength in
    strength ← intimidated street board_cont_cost strength;
    odds ← pot_odds board_cont_cost pot_total;
    if (odds <=? strength)%float then
      let '(u, g') := random_random g in
      if (u <? 1.4 * strength)%float
         && (at_stage (_RAISE_MIN_STR th) stage <? preintimidation_strength)%float
      then Some (commit_action, (net_cost + commit_cost, g'))
      else
        root_cost ← PyFloat.math_sqrt
                      (PyFloat.float_of_Z (board_cont_cost - _INTIMIDATION_THRESHOLD));
        if ((root_cost <? 6)%float
            && (at_stage (_CALL_MIN_STR th) stage <? preintimidation_strength)%float)
           || (at_stage (_RAISE_MIN_STR th) stage <? preintimidation_strength)%float
        then
          if board_cont_cost <=? my_stack - net_cost
          then Some (CallAction, (net_cost + board_cont_cost, g'))
          else Some (FoldAction, (net_cost + 0, g'))
        else Some (FoldAction, (net_cost + 0, g'))
    else Some (FoldAction, (net_cost + 0, g))
  else
    let '(u, g') := random_random g in
    if (u <? 1.4 * strength)%float
       && (at_stage (_RAISE_MIN_STR th) stage <? strength)%float
    then Some (commit_action, (net_cost + commit_cost, g'))
    else Some (CheckAction, (net_cost + 0, g')).

(** The lists [get_actions] builds before its loop. *)
Definition board_deck (b : board) : list card :=
  match b with Live b => deck b | Terminal previous_state => deck previous_state end.

Definition board_pip (who : nat) (b : board) : option Z :=
  match b with Live b => pips b !! who | Terminal _ => Some 0 end.

Definition continue_costs (my_pips opp_pips : list Z) : option (list Z) :=
  mapM (fun i => o ← opp_pips !! i; m ← my_pips !! i; Some (o - m)) (seq 0 NUM_BOARDS).

(** The body of [for i in range(NUM_BOARDS)]: the action for board [i] and
    the updated [net_cost]. *)
Definition board_action (self : Player) (th : Thresholds) (rs : RoundState)
    (my_pips opp_pips continue_cost : list Z) (my_stack : Z)
    (i : nat) (st : Z * rng) : option (Action * (Z * rng)) :=
  let '(net_cost, g) := st in
  cards ← board_allocations self !! i;
  legal ← legal_actions rs !! i;
  if bool_decide (AssignClass ∈ legal) then Some (AssignAction cards, (net_cost, g))
  else
    board_i ← board_states rs !! i;
    match board_i with
    | Terminal _ => Some (CheckAction, (net_cost, g))
    | Live b =>
        board_cont_cost ← continue_cost !! i;
        let board_total := pot b in
        my_pip ← my_pips !! i;
        opp_pip ← opp_pips !! i;
        let pot_total := my_pip + opp_pip + board_total in
        let '(min_raise, max_raise) := raise_bounds b in
        '(stage, strength, raise_amount, g1) ←
           strength_and_raise self th (street rs) i cards (board_deck board_i)
             my_pip board_cont_cost g;
        let raise_amount := Z.max min_raise raise_amount in
        let raise_amount := Z.min max_raise raise_amount in
        respond th legal (street rs) my_pip board_cont_cost pot_total
          my_stack net_cost stage strength raise_amount g1
    end.

Fixpoint boards_loop (step : nat -> Z * rng -> option (Action * (Z * rng)))
    (boards : list nat) (st : Z * rng) : option (list Action * (Z * rng)) :=
  match boards with
  | [] => Some ([], st)
  | i :: later =>
      '(a, st1) ← step i st;
      '(actions, st2) ← boards_loop step later st1;
      Some (a :: actions, st2)
  end.

(** [get_actions], with the final [net_cost] and generator next to the
    actions it returns. *)
Definition get_actions_run (self : Player) (th : Thresholds) (rs : RoundState)
    (active : bool) (g : rng) : option (list Action * (Z * rng)) :=
  my_pips ← mapM (board_pip (index active)) (board_states rs);
  opp_pips ← mapM (board_pip (index (negb active))) (board_states rs);
  continue_cost ← continue_costs my_pips opp_pips;
  my_stack ← stacks rs !! index active;
  opp_stack ← stacks rs !! index (negb active);
  let net_cost := 0 in
  boards_loop (board_action self th rs my_pips opp_pips continue_cost my_stack)
    (seq 0 NUM_BOARDS) (net_cost, g).

Definition get_actions (self : Player) (th : Thresholds) (rs : RoundState)
    (active : bool) (g : rng) : option (list Action) :=
  fst <$> get_actions_run self th rs active g.

(** *** What the policy is proved to do *)

(** The chips an action commits on a board where the player has [my_pip]
    in and [board_cont_cost] to call. *)
Definition action_cost (my_pip board_cont_cost : Z) (a : Action) : Z :=
  match a with
  | RaiseAction amount => amount - my_pip
  | CallAction => board_cont_cost
  | _ => 0
  end.

(** The chips committed by the actions of the first boards. *)
Fixpoint committed (my_pips continue_cost : list Z) (actions : list Action)
    {struct actions} : Z :=
  match actions, my_pips, continue_cost with
  | a :: later, p :: ps, c :: cs => action_cost p c a + committed ps cs later
  | _, _, _ => 0
  end.

Lemma commit_cost legal raise_amount my_pip board_cont_cost my_stack net_cost a c :
  commit legal raise_amount my_pip board_cont_cost my_stack net_cost = (a, c) ->
  c = action_cost my_pip board_cont_cost a /\
  (net_cost <= my_stack -> net_cost + c <= my_stack) /\
  (forall amount, a = RaiseAction amount -> amount = raise_amount).
Proof.
  unfold commit. intros H.
  repeat (match type of H with
          | (if ?x then _ else _) = _ => destruct x eqn:?
          end); injection H as <- <-; simpl;
    (split; [reflexivity|]; split; [|congruence]).
  - apply andb_prop in Heqb as [[_ ?%Z.leb_le]%andb_prop _]. lia.
  - apply andb_prop in Heqb0 as [_ ?%Z.leb_le]. lia.
  - lia.
  - lia.
Qed.

Lemma respond_cost th legal street my_pip board_cont_cost pot_total my_stack
    net_cost stage strength raise_amount g a net_cost' g' :
  respond th legal street my_pip board_cont_cost pot_total my_stack net_cost
    stage strength raise_amount g = Some (a, (net_cost', g')) ->
  net_cost' = net_cost + action_cost my_pip board_cont_cost a /\
  (net_cost <= my_stack -> net_cost' <= my_stack) /\
  (forall amount, a = RaiseAction amount -> amount = raise_amount).
Proof.
  unfold respond. intros H.
  destruct (commit _ _ _ _ _ _) as [ca cc] eqn:Hc.
  apply commit_cost in Hc as (Hcc & Hle & Hra).
  repeat (match type of H with
          | (if ?x then _ else _) = _ => destruct x eqn:?
          | (let '(_, _) := ?x in _) = _ => destruct x
          | (?x ≫= _) = _ => destruct x; simpl in H; [|discriminate]
          end); injection H as <- <- <-; simpl;
    (split; [lia|]; split; [auto; lia|]; first [done | congruence]).
Qed.

Lemma board_action_cost self th rs my_pips opp_pips continue_cost my_stack i
    net_cost g a net_cost' g' p c :
  board_action self th rs my_pips opp_pips continue_cost my_stack i (net_cost, g)
    = Some (a, (net_cost', g')) ->
  my_pips !! i = Some p -> continue_cost !! i = Some c ->
  net_cost' = net_cost + action_cost p c a /\
  (net_cost <= my_stack -> net_cost' <= my_stack).
Proof.
  unfold board_action. intros H Hp Hc.
  destruct (board_allocations self !! i) as [cards|]; simpl in H; [|discriminate].
  destruct (legal_actions rs !! i) as [legal|]; simpl in H; [|discriminate].
  destruct (bool_decide (AssignClass ∈ legal)).
  { injection H as <- <- <-. simpl. split; lia. }
  destruct (board_states rs !! i) as [[b|prev]|]; simpl in H; [| |discriminate].
  2:{ injection H as <- <- <-. simpl. split; lia. }
  rewrite Hc, Hp in H. simpl in H.
  destruct (opp_pips !! i) as [o|]; simpl in H; [|discriminate].
  destruct (raise_bounds b) as [min_raise max_raise].
  destruct (strength_and_raise _ _ _ _ _ _ _ _ _) as [[[[stage strength] ra] g1]|];
    simpl in H; [|discriminate].
  apply respond_cost in H as (? & ? & _). auto.
Qed.

Lemma boards_loop_three step st actions st' :
  boards_loop step (seq 0 NUM_BOARDS) st = Some (actions, st') ->
  exists a0 a1 a2 st1 st2,
    step 0%nat st = Some (a0, st1) /\ step 1%nat st1 = Some (a1, st2) /\
    step 2%nat st2 = Some (a2, st') /\ actions = [a0; a1; a2].
Proof.
  simpl. intros H.
  destruct (step 0%nat st) as [[a0 st1]|] eqn:H0; simpl in H; [|discriminate].
  destruct (step 1%nat st1) as [[a1 st2]|] eqn:H1; simpl in H; [|discriminate].
  destruct (step 2%nat st2) as [[a2 st3]|] eqn:H2; simpl in H; [|discriminate].
  injection H as <- <-. by exists a0, a1, a2, st1, st2.
Qed.

Lemma continue_costs_three my_pips opp_pips continue_cost :
  continue_costs my_pips opp_pips = Some continue_cost ->
  exists p0 p1 p2 ps c0 c1 c2,
    my_pips = p0 :: p1 :: p2 :: ps /\ continue_cost = [c0; c1; c2].
Proof.
  unfold continue_costs. simpl. intros H.
  destruct my_pips as [|p0 [|p1 [|p2 ps]]], opp_pips as [|o0 [|o1 [|o2 os]]];
    simpl in H; try discriminate.
  injection H as <-. by eexists p0, p1, p2, ps, _, _, _.
Qed.

Lemma respond_fold th legal street my_pip board_cont_cost pot_total my_stack
    net_cost stage strength raise_amount g adjusted odds :
  0 < board_cont_cost ->
  intimidated street board_cont_cost strength = Some adjusted ->
  pot_odds board_cont_cost pot_total = Some odds ->
  (adjusted <? odds)%float = true ->
  respond th legal street my_pip board_cont_cost pot_total my_stack net_cost
    stage strength raise_amount g = Some (FoldAction, (net_cost, g)).
Proof.
  intros Hc Hadj Hodds Hlt. unfold respond.
  destruct (commit _ _ _ _ _ _) as [ca cc].
  destruct (Z.ltb_spec 0 board_cont_cost); [|lia].
  rewrite Hadj. simpl. rewrite Hodds. simpl.
  rewrite (PyFloat.ltb_not_ge _ _ Hlt). by rewrite Z.add_0_r.
Qed.

Lemma board_action_raise self th rs my_pips opp_pips continue_cost my_stack i
    st amount st' :
  board_action self th rs my_pips opp_pips continue_cost my_stack i st
    = Some (RaiseAction amount, st') ->
  exists b candidate,
    board_states rs !! i = Some (Live b) /\
    amount = Z.min (raise_bounds b).2 (Z.max (raise_bounds b).1 candidate).
Proof.
  unfold board_action. destruct st as [net_cost g]. intros H.
  destruct (board_allocations self !! i) as [cards|]; simpl in H; [|discriminate].
  destruct (legal_actions rs !! i) as [legal|]; simpl in H; [|discriminate].
  destruct (bool_decide (AssignClass ∈ legal)); [discriminate|].
  destruct (board_states rs !! i) as [[b|prev]|]; simpl in H; try discriminate.
  destruct (continue_cost !! i) as [c|]; simpl in H; [|discriminate].
  destruct (my_pips !! i) as [p|]; simpl in H; [|discriminate].
  destruct (opp_pips !! i) as [o|]; simpl in H; [|discriminate].
  destruct (raise_bounds b) as [min_raise max_raise] eqn:Hrb.
  destruct (strength_and_raise _ _ _ _ _ _ _ _ _) as [[[[stage strength] ra] g1]|];
    simpl in H; [|discriminate].
  destruct st' as [net_cost' g'].
  apply respond_cost in H as (_ & _ & Hra).
  exists b, ra. split; [done|]. rewrite Hrb. simpl. by apply Hra.
Qed.

(** C1.  In one call of [get_actions] on a non-negative stack, [net_cost]
    ends as the sum of the chips the three emitted actions commit (a raise
    to [amount] costs [amount - my_pips[i]], a call costs
    [continue_cost[i]], anything else nothing); that sum, and the sum over
    any first boards, never exceeds the stack the call started with. *)
Theorem get_actions_within_stack self th rs active g actions net_cost g' my_stack :
  get_actions_run self th rs active g = Some (actions, (net_cost, g')) ->
  stacks rs !! index active = Some my_stack ->
  0 <= my_stack ->
  exists my_pips opp_pips continue_cost,
    mapM (board_pip (index active)) (board_states rs) = Some my_pips /\
    mapM (board_pip (index (negb active))) (board_states rs) = Some opp_pips /\
    continue_costs my_pips opp_pips = Some continue_cost /\
    net_cost = committed my_pips continue_cost actions /\
    (forall n, committed my_pips continue_cost (take n actions) <= my_stack) /\
    net_cost <= my_stack.
Proof.
  unfold get_actions_run. intros H Hstack Hpos.
  destruct (mapM (board_pip (index active)) _) as [my_pips|];
    cbn -[boards_loop continue_costs] in H; [|discriminate].
  destruct (mapM (board_pip (index (negb active))) _) as [opp_pips|];
    cbn -[boards_loop continue_costs] in H; [|discriminate].
  destruct (continue_costs my_pips opp_pips) as [continue_cost|] eqn:Hcc;
    cbn -[boards_loop continue_costs] in H; [|discriminate].
  rewrite Hstack in H. cbn -[boards_loop continue_costs] in H.
  destruct (stacks rs !! index (negb active));
    cbn -[boards_loop continue_costs] in H; [|discriminate].
  exists my_pips, opp_pips, continue_cost. do 3 (split; [done|]).
  apply boards_loop_three in H
    as (a0 & a1 & a2 & [n1 g1] & [n2 g2] & H0 & H1 & H2 & ->).
  destruct (continue_costs_three _ _ _ Hcc)
    as (p0 & p1 & p2 & ps & c0 & c1 & c2 & -> & ->).
  eapply board_action_cost in H0 as [E0 L0]; [|reflexivity..].
  eapply board_action_cost in H1 as [E1 L1]; [|reflexivity..].
  eapply board_action_cost in H2 as [E2 L2]; [|reflexivity..].
  specialize (L0 Hpos). specialize (L1 L0). specialize (L2 L1).
  split; [simpl; lia|]. split; [|done].
  intros [|[|[|n]]]; simpl; try lia.
  by destruct n; simpl; lia.
Qed.

(** C2.  On a live board that needs no assignment, with a positive continue
    cost: once the strength is computed, if the intimidation-adjusted
    strength is strictly below the pot odds
    [continue_cost / (pot_total + continue_cost)], the iteration for that
    board returns, its action is a fold and [net_cost] is unchanged. *)
Theorem fold_below_pot_odds self th rs my_pips opp_pips continue_cost my_stack
    i net_cost g b cards legal my_pip opp_pip board_cont_cost
    stage strength raise_amount g1 adjusted odds :
  board_allocations self !! i = Some cards ->
  legal_actions rs !! i = Some legal ->
  bool_decide (AssignClass ∈ legal) = false ->
  board_states rs !! i = Some (Live b) ->
  continue_cost !! i = Some board_cont_cost ->
  my_pips !! i = Some my_pip ->
  opp_pips !! i = Some opp_pip ->
  0 < board_cont_cost ->
  strength_and_raise self th (street rs) i cards (deck b) my_pip board_cont_cost g
    = Some (stage, strength, raise_amount, g1) ->
  intimidated (street rs) board_cont_cost strength = Some adjusted ->
  pot_odds board_cont_cost (my_pip + opp_pip + pot b) = Some odds ->
  (adjusted <? odds)%float = true ->
  board_action self th rs my_pips opp_pips continue_cost my_stack i (net_cost, g)
    = Some (FoldAction, (net_cost, g1)).
Proof.
  intros Hcards Hlegal Hassign Hboard Hcc Hmy Hopp Hpos Hstr Hadj Hodds Hlt.
  unfold board_action.
  rewrite Hcards. simpl. rewrite Hlegal. simpl. rewrite Hassign, Hboard. simpl.
  rewrite Hcc. simpl. rewrite Hmy. simpl. rewrite Hopp. simpl.
  destruct (raise_bounds b) as [min_raise max_raise].
  rewrite Hstr. simpl. eauto using respond_fold.
Qed.

(** C3.  Every [RaiseAction] that [get_actions] returns sits on a live
    board and carries an amount within that board's bounds, whenever the
    bounds are ordered [min_raise <= max_raise]. *)
Theorem raise_within_bounds self th rs active g actions st' i amount :
  get_actions_run self th rs active g = Some (actions, st') ->
  actions !! i = Some (RaiseAction amount) ->
  exists b,
    board_states rs !! i = Some (Live b) /\
    ((raise_bounds b).1 <= (raise_bounds b).2 ->
     (raise_bounds b).1 <= amount <= (raise_bounds b).2).
Proof.
  unfold get_actions_run. intros H Hi.
  destruct (mapM (board_pip (index active)) _) as [my_pips|];
    cbn -[boards_loop continue_costs] in H; [|discriminate].
  destruct (mapM (board_pip (index (negb active))) _) as [opp_pips|];
    cbn -[boards_loop continue_costs] in H; [|discriminate].
  destruct (continue_costs my_pips opp_pips) as [continue_cost|];
    cbn -[boards_loop continue_costs] in H; [|discriminate].
  destruct (stacks rs !! index active) as [my_stack|];
    cbn -[boards_loop continue_costs] in H; [|discriminate].
  destruct (stacks rs !! index (negb active));
    cbn -[boards_loop continue_costs] in H; [|discriminate].
  apply boards_loop_three in H
    as (a0 & a1 & a2 & st1 & st2 & H0 & H1 & H2 & ->).
  assert (exists st st'', board_action self th rs my_pips opp_pips continue_cost
            my_stack i st = Some (RaiseAction amount, st'')) as (st & st'' & Hstep).
  { destruct i as [|[|[|i]]]; simpl in Hi; try discriminate;
      injection Hi as ->; eauto. }
  apply board_action_raise in Hstep as (b & candidate & Hb & ->).
  exists b. split; [done|]. lia.
Qed.

End Policy.

(** C7, as stated, fails: with no chips to call, a raise that the earlier
    boards have made unaffordable and a legal set of check and raise, a call
    is affordable (it costs nothing) but is not legal, and the commit action
    is a check, not the call that the stated precedence gives. *)
Lemma commit_call_needs_legality :
  commit [CheckClass; RaiseClass] 4 0 0 10 8 = (CheckAction, 0) /\
  commit_as_specified [CheckClass; RaiseClass] 4 0 0 10 8 = CallAction /\
  (commit [CheckClass; RaiseClass] 4 0 0 10 8).1
    <> commit_as_specified [CheckClass; RaiseClass] 4 0 0 10 8.
Proof. repeat split. discriminate. Qed.

(** C7, amended.  The commit action follows the precedence
    raise > call > check > fold: a raise to the clamped amount exactly when
    raising is legal, its cost [raise_amount - my_pip] fits within the stack
    minus the cost already committed, and that cost is not zero; otherwise a
    call when calling is legal and the continue cost fits; otherwise a check
    when checking is legal; otherwise a fold.  The cost is the raise cost,
    the continue cost, or zero. *)
Theorem commit_precedence legal raise_amount my_pip board_cont_cost my_stack net_cost :
  let raise_cost := raise_amount - my_pip in
  let can_raise :=
    RaiseClass ∈ legal /\ raise_cost <= my_stack - net_cost /\ raise_cost <> 0 in
  let can_call := CallClass ∈ legal /\ board_cont_cost <= my_stack - net_cost in
  let can_check := CheckClass ∈ legal in
  let result := commit legal raise_amount my_pip board_cont_cost my_stack net_cost in
  ((exists amount, result.1 = RaiseAction amount) <-> can_raise) /\
  (can_raise -> result = (RaiseAction raise_amount, raise_cost)) /\
  (~ can_raise -> can_call -> result = (CallAction, board_cont_cost)) /\
  (~ can_raise -> ~ can_call -> can_check -> result = (CheckAction, 0)) /\
  (~ can_raise -> ~ can_call -> ~ can_check -> result = (FoldAction, 0)).
Proof.
  intros raise_cost can_raise can_call can_check result.
  assert (bool_decide (RaiseClass ∈ legal)
          && (raise_cost <=? my_stack - net_cost) && negb (raise_cost =? 0) = true
          <-> can_raise) as Hraise.
  { subst can_raise.
    rewrite !andb_true_iff, bool_decide_eq_true, Z.leb_le, negb_true_iff, Z.eqb_neq.
    tauto. }
  assert (bool_decide (CallClass ∈ legal)
          && (board_cont_cost <=? my_stack - net_cost) = true
          <-> can_call) as Hcall.
  { subst can_call. by rewrite andb_true_iff, bool_decide_eq_true, Z.leb_le. }
  assert (bool_decide (CheckClass ∈ legal) = true <-> can_check) as Hcheck
    by apply bool_decide_eq_true.
  subst result. unfold commit. fold raise_cost.
  destruct (bool_decide (RaiseClass ∈ legal) && _ && _).
  { assert can_raise by (by apply Hraise). simpl.
    split; [split; [done|eauto]|]. split; [done|]. tauto. }
  assert (~ can_raise) as Nr by (by intros ?%Hraise).
  destruct (bool_decide (CallClass ∈ legal) && _).
  { assert can_call by (by apply Hcall). simpl.
    split; [split; [intros [? [=]]|done]|]. split; [done|]. tauto. }
  assert (~ can_call) as Nc by (by intros ?%Hcall).
  destruct (bool_decide (CheckClass ∈ legal)).
  { assert can_check by (by apply Hcheck). simpl.
    split; [split; [intros [? [=]]|done]|]. split; [done|]. tauto. }
  assert (~ can_check) as Nk by (by intros ?%Hcheck).
  simpl. split; [split; [intros [? [=]]|done]|]. split; [done|]. tauto.
Qed.

Example get_actions_sample_round :
  get_actions_run tape_random sample_prefix rank_sum sample_exp
    Allocator.sample_allocated shipped_thresholds sample_round false
    [0.3; 0.3; 0.3]%float
  = Some ([FoldAction; RaiseAction 5; RaiseAction 5], (8, [])).
Proof. vm_compute. reflexivity. Qed.

Lemma get_actions_within_stack_witness :
  exists my_pips opp_pips continue_cost,
    mapM (board_pip (index false)) (board_states sample_round) = Some my_pips /\
    mapM (board_pip (index (negb false))) (board_states sample_round)
      = Some opp_pips /\
    continue_costs my_pips opp_pips = Some continue_cost /\
    8 = committed my_pips continue_cost [FoldAction; RaiseAction 5; RaiseAction 5] /\
    (forall n, committed my_pips continue_cost
                 (take n [FoldAction; RaiseAction 5; RaiseAction 5]) <= 194) /\
    8 <= 194.
Proof.
  apply (get_actions_within_stack tape_random sample_prefix rank_sum sample_exp
           Allocator.sample_allocated shipped_thresholds sample_round false
           [0.3; 0.3; 0.3]%float [FoldAction; RaiseAction 5; RaiseAction 5] 8 []).
  - vm_compute. reflexivity.
  - reflexivity.
  - lia.
Defined.

Lemma fold_below_pot_odds_witness :
  board_action tape_random sample_prefix rank_sum sample_exp
    Allocator.sample_allocated shipped_thresholds raised_round
    [2; 2; 2] [12; 12; 12] [10; 10; 10] 192 0 (0, [0.3]%float)
  = Some (FoldAction, (0, [0.3]%float)).
Proof.
  eapply (fold_below_pot_odds tape_random sample_prefix rank_sum sample_exp
            Allocator.sample_allocated shipped_thresholds raised_round
            [2; 2; 2] [12; 12; 12] [10; 10; 10] 192 0 0 [0.3]%float).
  - reflexivity.
  - reflexivity.
  - reflexivity.
  - reflexivity.
  - reflexivity.
  - reflexivity.
  - reflexivity.
  - lia.
  - vm_compute. reflexivity.
  - vm_compute. reflexivity.
  - vm_compute. reflexivity.
  - vm_compute. reflexivity.
Defined.

Lemma raise_within_bounds_witness :
  exists b,
    board_states sample_round !! 1%nat = Some (Live b) /\
    ((raise_bounds b).1 <= (raise_bounds b).2 ->
     (raise_bounds b).1 <= 5 <= (raise_bounds b).2).
Proof.
  apply (raise_within_bounds tape_random sample_prefix rank_sum sample_exp
           Allocator.sample_allocated shipped_thresholds sample_round false
           [0.3; 0.3; 0.3]%float [FoldAction; RaiseAction 5; RaiseAction 5]
           (8, []) 1 5).
  - vm_compute. reflexivity.
  - reflexivity.
Defined.

End Betting.

(** ** More on cards: ranks, the deck, the rank sort and the canonical key *)

Module CardFacts.
Import Cards.

Local Open Scope string_scope.
Local Arguments rank_to_numeric : simpl never.
Local Arguments char_at : simpl never.

(** The rank of a card, as [sort_cards_by_rank] and [hole_list_to_key]
    compute it: [rank_to_numeric(card[0])]. *)
Definition card_rank (c : card) : option Z :=
  r ← char_at c 0; rank_to_numeric r.

(** [a] ranks at least as high as [b]. *)
Definition rank_ge (a b : card) : Prop :=
  exists na nb, card_rank a = Some na /\ card_rank b = Some nb /\ (nb <= na)%Z.

(** A card the key function accepts: a known rank character, then a suit
    character. *)
Definition card_ok (c : card) : Prop :=
  is_Some (card_rank c) /\ is_Some (char_at c 1).

Definition card_okb (c : card) : bool :=
  match card_rank c, char_at c 1 with
  | Some _, Some _ => true
  | _, _ => false
  end.

(** The order of the keyed list that the sort builds. *)
Definition key_ge (x y : Z * card) : Prop := (y.1 <= x.1)%Z.

Fixpoint descending (l : list (Z * card)) : Prop :=
  match l with
  | [] => True
  | x :: t => Forall (key_ge x) t /\ descending t
  end.

Lemma rank_to_numeric_elem r n :
  rank_to_numeric r = Some n <->
  (r, n) ∈ [("2", 2%Z); ("3", 3%Z); ("4", 4%Z); ("5", 5%Z); ("6", 6%Z);
            ("7", 7%Z); ("8", 8%Z); ("9", 9%Z); ("T", 10%Z); ("J", 11%Z);
            ("Q", 12%Z); ("K", 13%Z); ("A", 14%Z)].
Proof.
  unfold rank_to_numeric, RANK_DICT. symmetry. apply elem_of_list_to_map.
  apply (bool_decide_unpack _). vm_compute. exact I.
Qed.

Ltac rank_cases H :=
  apply rank_to_numeric_elem in H;
  repeat (apply elem_of_cons in H as [H|H]; [simplify_eq|]);
  [..|by apply elem_of_nil in H].

Lemma rank_to_numeric_inj r1 r2 n :
  rank_to_numeric r1 = Some n -> rank_to_numeric r2 = Some n -> r1 = r2.
Proof. intros H1 H2. rank_cases H1; rank_cases H2; reflexivity || discriminate. Qed.

Lemma rank_to_numeric_length r n :
  rank_to_numeric r = Some n -> String.length r = 1%nat.
Proof. intros H. rank_cases H; reflexivity. Qed.

Lemma char_at_length c i x : char_at c i = Some x -> String.length x = 1%nat.
Proof.
  unfold char_at. destruct (String.get i c); simpl; [|discriminate].
  by intros [= <-].
Qed.

Lemma length_append (s t : string) :
  String.length (s +:+ t) = (String.length s + String.length t)%nat.
Proof. induction s as [|a s IH]; simpl; [done|]. by rewrite IH. Qed.

Lemma card_ok_okb c : card_ok c <-> card_okb c = true.
Proof.
  unfold card_ok, card_okb.
  destruct (card_rank c), (char_at c 1); split;
    try done; intros [[? ?] [? ?]]; done.
Qed.

(** The key of two cards, from their rank and suit characters. *)
Lemma hole_list_to_key_chars (c1 c2 : card) (rest : list card) r1 s1 r2 s2 n1 n2 :
  char_at c1 0 = Some r1 -> char_at c1 1 = Some s1 ->
  char_at c2 0 = Some r2 -> char_at c2 1 = Some s2 ->
  rank_to_numeric r1 = Some n1 -> rank_to_numeric r2 = Some n2 ->
  hole_list_to_key (c1 :: c2 :: rest) =
  Some (if (n2 <=? n1)%Z
        then r1 +:+ r2 +:+ (if bool_decide (s1 = s2) then "s" else "o")
        else r2 +:+ r1 +:+ (if bool_decide (s1 = s2) then "s" else "o")).
Proof.
  intros H1 H2 H3 H4 H5 H6. unfold hole_list_to_key.
  cbn [lookup list_lookup mbind option_bind].
  rewrite H1. cbn [mbind option_bind]. rewrite H2. cbn [mbind option_bind].
  rewrite H3. cbn [mbind option_bind]. rewrite H4. cbn [mbind option_bind].
  rewrite H5. cbn [mbind option_bind]. rewrite H6. reflexivity.
Qed.

Lemma hole_list_to_key_inv hole k :
  hole_list_to_key hole = Some k ->
  exists c1 c2 rest r1 s1 r2 s2 n1 n2,
    hole = c1 :: c2 :: rest /\
    char_at c1 0 = Some r1 /\ char_at c1 1 = Some s1 /\
    char_at c2 0 = Some r2 /\ char_at c2 1 = Some s2 /\
    rank_to_numeric r1 = Some n1 /\ rank_to_numeric r2 = Some n2.
Proof.
  unfold hole_list_to_key. intros H.
  destruct hole as [|c1 [|c2 rest]];
    cbn [lookup list_lookup mbind option_bind] in H; try discriminate.
  destruct (char_at c1 0) as [r1|] eqn:H1;
    cbn [mbind option_bind] in H; [|discriminate].
  destruct (char_at c1 1) as [s1|] eqn:H2;
    cbn [mbind option_bind] in H; [|discriminate].
  destruct (char_at c2 0) as [r2|] eqn:H3;
    cbn [mbind option_bind] in H; [|discriminate].
  destruct (char_at c2 1) as [s2|] eqn:H4;
    cbn [mbind option_bind] in H; [|discriminate].
  destruct (rank_to_numeric r1) as [n1|] eqn:E1;
    cbn [mbind option_bind] in H; [|discriminate].
  destruct (rank_to_numeric r2) as [n2|] eqn:E2;
    cbn [mbind option_bind] in H; [|discriminate].
  by exists c1, c2, rest, r1, s1, r2, s2, n1, n2.
Qed.

Lemma hole_list_to_key_swap_Some (a b : card) (rest rest' : list card) k :
  hole_list_to_key (a :: b :: rest) = Some k ->
  hole_list_to_key (b :: a :: rest') = Some k.
Proof.
  intros H.
  destruct (hole_list_to_key_inv _ _ H)
    as (c1 & c2 & rest0 & r1 & s1 & r2 & s2 & n1 & n2 & [= <- <- <-] & H1 & H2
        & H3 & H4 & H5 & H6).
  rewrite (hole_list_to_key_chars a b rest r1 s1 r2 s2 n1 n2) in H by done.
  rewrite (hole_list_to_key_chars b a rest' r2 s2 r1 s1 n2 n1) by done.
  rewrite <- H. f_equal.
  assert (bool_decide (s2 = s1) = bool_decide (s1 = s2)) as ->
    by (apply bool_decide_ext; split; congruence).
  destruct (Z.leb_spec n2 n1), (Z.leb_spec n1 n2); try reflexivity; try lia.
  assert (n1 = n2) as -> by lia.
  by rewrite (rank_to_numeric_inj r1 r2 n2 H5 H6).
Qed.

Lemma hole_list_to_key_swap (a b : card) (rest rest' : list card) :
  hole_list_to_key (a :: b :: rest) = hole_list_to_key (b :: a :: rest').
Proof.
  destruct (hole_list_to_key (a :: b :: rest)) as [k|] eqn:E1.
  - symmetry. by apply (hole_list_to_key_swap_Some a b rest rest').
  - destruct (hole_list_to_key (b :: a :: rest')) as [k|] eqn:E2; [|done].
    apply (hole_list_to_key_swap_Some b a rest' rest) in E2. congruence.
Qed.

Lemma card_ok_key (a b : card) (rest : list card) :
  card_ok a -> card_ok b -> is_Some (hole_list_to_key (a :: b :: rest)).
Proof.
  unfold card_ok, card_rank. intros [[na Ha] [sa Hsa]] [[nb Hb] [sb Hsb]].
  destruct (char_at a 0) as [ra|] eqn:Hra; simpl in Ha; [|discriminate].
  destruct (char_at b 0) as [rb|] eqn:Hrb; simpl in Hb; [|discriminate].
  pose proof (hole_list_to_key_chars a b rest ra sa rb sb na nb
                Hra Hsa Hrb Hsb Ha Hb) as ->.
  eauto.
Qed.

(** The keyed list of the sort: every card next to its rank. *)
Lemma keyed_spec cards (keyed : list (Z * card)) :
  mapM (fun x => r ← char_at x 0; n ← rank_to_numeric r; Some (n, x)) cards
    = Some keyed ->
  snd <$> keyed = cards /\ Forall (fun p => card_rank p.2 = Some p.1) keyed.
Proof.
  intros Hk%mapM_Some. induction Hk as [|x [n c] l k Hxy _ [IH1 IH2]]; [done|].
  assert (c = x /\ card_rank x = Some n) as [-> E2].
  { unfold card_rank.
    destruct (char_at x 0) as [r|]; cbn [mbind option_bind] in *; [|discriminate].
    destruct (rank_to_numeric r); cbn [mbind option_bind] in *; [|discriminate].
    by injection Hxy as <- <-. }
  split.
  - rewrite fmap_cons. by f_equal.
  - by constructor.
Qed.

Lemma insert_desc_permutation x l : insert_desc x l ≡ₚ x :: l.
Proof.
  induction l as [|y t IH]; simpl; [done|].
  destruct (x.1 <? y.1)%Z; [|done].
  rewrite IH. apply Permutation_swap.
Qed.

Lemma insert_desc_sorted x l : descending l -> descending (insert_desc x l).
Proof.
  induction l as [|y t IH]; simpl; [done|]. intros [Hy Hs].
  destruct (Z.ltb_spec x.1 y.1); simpl.
  - split; [|auto]. rewrite insert_desc_permutation.
    constructor; [unfold key_ge; lia|done].
  - split; [|done].
    constructor; [unfold key_ge; lia|].
    eapply Forall_impl; [exact Hy|]. unfold key_ge. intros z ?. lia.
Qed.

Lemma sorted_desc_sorted l : descending (sorted_desc l).
Proof.
  induction l as [|x t IH]; simpl; [done|].
  by apply insert_desc_sorted.
Qed.

Lemma sorted_desc_permutation l : sorted_desc l ≡ₚ l.
Proof.
  induction l as [|x t IH]; simpl; [done|].
  by rewrite insert_desc_permutation, IH.
Qed.

(** Insertion never moves a pair past one of equal key. *)
Lemma insert_desc_filter n x l :
  filter (fun p : Z * card => p.1 = n) (insert_desc x l)
  = filter (fun p : Z * card => p.1 = n) (x :: l).
Proof.
  induction l as [|y t IH]; simpl; [done|].
  destruct (Z.ltb_spec x.1 y.1); [|done].
  rewrite filter_cons, IH, !filter_cons.
  repeat case_decide; try done; lia.
Qed.

Lemma sorted_desc_filter n l :
  filter (fun p : Z * card => p.1 = n) (sorted_desc l)
  = filter (fun p : Z * card => p.1 = n) l.
Proof.
  induction l as [|x t IH]; simpl; [done|].
  by rewrite insert_desc_filter, !filter_cons, IH.
Qed.

Lemma filter_keyed n l :
  Forall (fun p : Z * card => card_rank p.2 = Some p.1) l ->
  filter (fun c => card_rank c = Some n) (snd <$> l)
  = snd <$> filter (fun p : Z * card => p.1 = n) l.
Proof.
  induction 1 as [|p l Hp _ IH]; [done|].
  rewrite fmap_cons, !filter_cons, IH.
  repeat case_decide; try done; congruence.
Qed.

Lemma descending_lookup l i j a b :
  descending l -> (i < j)%nat -> l !! i = Some a -> l !! j = Some b -> key_ge a b.
Proof.
  revert i j. induction l as [|x t IH]; intros i j Hd Hij Ha Hb.
  - done.
  - destruct Hd as [Hx Hs]. destruct j as [|j]; [lia|]. destruct i as [|i]; simpl in *.
    + injection Ha as <-. rewrite Forall_forall in Hx.
      apply Hx. by eapply list_elem_of_lookup_2.
    + apply (IH i j); [done|lia|done..].
Qed.

(** The sort, spelled out on its keyed list. *)
Lemma sort_cards_by_rank_keyed cards sorted :
  sort_cards_by_rank cards = Some sorted ->
  exists keyed,
    snd <$> keyed = cards /\
    Forall (fun p => card_rank p.2 = Some p.1) keyed /\
    sorted = snd <$> sorted_desc keyed.
Proof.
  unfold sort_cards_by_rank. intros H.
  destruct (mapM _ cards) as [keyed|] eqn:Hk; simpl in H; [|discriminate].
  injection H as <-. apply keyed_spec in Hk as [? ?]. by exists keyed.
Qed.

(** The sorted hand is in descending rank order. *)
Lemma sort_cards_by_rank_desc cards sorted i j a b :
  sort_cards_by_rank cards = Some sorted ->
  (i < j)%nat -> sorted !! i = Some a -> sorted !! j = Some b -> rank_ge a b.
Proof.
  intros (keyed & _ & Hall & ->)%sort_cards_by_rank_keyed Hij Ha Hb.
  rewrite list_lookup_fmap in Ha, Hb.
  destruct (sorted_desc keyed !! i) as [pa|] eqn:Hpa; [|discriminate].
  destruct (sorted_desc keyed !! j) as [pb|] eqn:Hpb; [|discriminate].
  simpl in Ha, Hb. injection Ha as <-. injection Hb as <-.
  assert (Forall (fun p : Z * card => card_rank p.2 = Some p.1) (sorted_desc keyed))
    as Hall' by (by rewrite sorted_desc_permutation).
  rewrite Forall_forall in Hall'.
  exists pa.1, pb.1. split; [|split].
  - apply Hall'. by eapply list_elem_of_lookup_2.
  - apply Hall'. by eapply list_elem_of_lookup_2.
  - exact (descending_lookup _ i j pa pb (sorted_desc_sorted keyed) Hij Hpa Hpb).
Qed.

Lemma sort_cards_by_rank_is_Some cards :
  is_Some (sort_cards_by_rank cards) <->
  Forall (fun c => is_Some (card_rank c)) cards.
Proof.
  unfold sort_cards_by_rank. split.
  - intros [sorted H].
    destruct (mapM _ cards) as [keyed|] eqn:Hk; simpl in H; [|discriminate].
    apply keyed_spec in Hk as [<- Hall].
    apply Forall_fmap. eapply Forall_impl; [exact Hall|].
    intros p Hp. simpl. by rewrite Hp.
  - intros Hall.
    destruct (mapM _ cards) as [keyed|] eqn:Hk; simpl; [done|].
    apply mapM_None, Exists_exists in Hk as (c & Hc & Hnone).
    rewrite Forall_forall in Hall. destruct (Hall c Hc) as [n Hn].
    unfold card_rank in Hn.
    destruct (char_at c 0) as [r|]; simpl in *; [|discriminate].
    rewrite Hn in Hnone. discriminate.
Qed.

Lemma deck_cards_okb : forallb card_okb FULL_DECK = true.
Proof. vm_compute. reflexivity. Qed.

Lemma deck_card_ok c : c ∈ FULL_DECK -> card_ok c.
Proof.
  intros Hc%list_elem_of_In. apply card_ok_okb.
  pose proof deck_cards_okb as H. rewrite forallb_forall in H. auto.
Qed.

Lemma deck_card_two c : c ∈ FULL_DECK -> String.length c = 2%nat.
Proof.
  intros Hc%list_elem_of_In.
  assert (forallb (fun c => Nat.eqb (String.length c) 2) FULL_DECK = true) as H
    by (vm_compute; reflexivity).
  rewrite forallb_forall in H. by apply Nat.eqb_eq, H.
Qed.

Lemma two_chars (a b : card) :
  String.length a = 2%nat -> String.length b = 2%nat ->
  char_at a 0 = char_at b 0 -> char_at a 1 = char_at b 1 -> a = b.
Proof.
  destruct a as [|a0 [|a1 [|? ?]]], b as [|b0 [|b1 [|? ?]]]; simpl; try discriminate.
  unfold char_at. simpl. intros _ _ [= ->] [= ->]. reflexivity.
Qed.

(** X1.  [rank_to_numeric] is defined exactly on the thirteen rank
    characters of [NUMS]; it sends them one-to-one onto 2..14, and every
    other string raises [KeyError]. *)
Theorem rank_to_numeric_table :
  (forall r, is_Some (rank_to_numeric r) <-> r ∈ NUMS) /\
  (forall r n, rank_to_numeric r = Some n -> (2 <= n <= 14)%Z) /\
  (forall n, (2 <= n <= 14)%Z -> exists r, rank_to_numeric r = Some n) /\
  (forall r1 r2 n,
     rank_to_numeric r1 = Some n -> rank_to_numeric r2 = Some n -> r1 = r2).
Proof.
  split; [|split; [|split]].
  - intros r. split.
    + intros [n H]. rank_cases H; apply (bool_decide_unpack _); vm_compute; exact I.
    + unfold NUMS. intros H.
      repeat (apply elem_of_cons in H as [->|H]; [by vm_compute; eauto|]).
      by apply elem_of_nil in H.
  - intros r n H. rank_cases H; lia.
  - intros n Hn.
    assert (n = 2 \/ n = 3 \/ n = 4 \/ n = 5 \/ n = 6 \/ n = 7 \/ n = 8 \/ n = 9 \/
            n = 10 \/ n = 11 \/ n = 12 \/ n = 13 \/ n = 14)%Z as H by lia.
    repeat (destruct H as [->|H]; [eexists; apply rank_to_numeric_elem;
      repeat first [apply list_elem_of_here | apply list_elem_of_further]|]).
    subst. eexists; apply rank_to_numeric_elem.
    repeat first [apply list_elem_of_here | apply list_elem_of_further].
  - exact rank_to_numeric_inj.
Qed.

(** X2.  The canonical key does not depend on the order of the two cards
    (nor on what follows them in the list): both orders give the same key,
    or both raise. *)
Theorem hole_list_to_key_sym (a b : card) (rest rest' : list card) :
  hole_list_to_key (a :: b :: rest) = hole_list_to_key (b :: a :: rest').
Proof. apply hole_list_to_key_swap. Qed.

(** X3.  [hole_list_to_key] returns exactly when the list has two cards
    that each start with a known rank character followed by one more
    character.  The key is then three characters: the two rank characters,
    the higher rank first, then "s" when the two suit characters are equal
    and "o" when they differ. *)
Theorem hole_list_to_key_shape hole :
  (is_Some (hole_list_to_key hole) <->
   exists c1 c2 rest, hole = c1 :: c2 :: rest /\ card_ok c1 /\ card_ok c2) /\
  (forall k, hole_list_to_key hole = Some k ->
     exists c1 c2 hi lo n_hi n_lo,
       hole !! 0%nat = Some c1 /\ hole !! 1%nat = Some c2 /\
       ((char_at c1 0 = Some hi /\ char_at c2 0 = Some lo) \/
        (char_at c1 0 = Some lo /\ char_at c2 0 = Some hi)) /\
       rank_to_numeric hi = Some n_hi /\ rank_to_numeric lo = Some n_lo /\
       (n_lo <= n_hi)%Z /\
       k = hi +:+ lo +:+
           (if bool_decide (char_at c1 1 = char_at c2 1) then "s" else "o") /\
       String.length k = 3%nat).
Proof.
  split.
  - split.
    + intros [k (c1 & c2 & rest & r1 & s1 & r2 & s2 & n1 & n2 & -> & H1 & H2 & H3
                 & H4 & H5 & H6)%hole_list_to_key_inv].
      exists c1, c2, rest. unfold card_ok, card_rank.
      rewrite H1, H2, H3, H4. simpl. rewrite H5, H6. eauto 10.
    + intros (c1 & c2 & rest & -> & Hc1 & Hc2). by apply card_ok_key.
  - intros k Hk.
    destruct (hole_list_to_key_inv _ _ Hk)
      as (c1 & c2 & rest & r1 & s1 & r2 & s2 & n1 & n2 & -> & H1 & H2 & H3
          & H4 & H5 & H6).
    rewrite (hole_list_to_key_chars c1 c2 rest r1 s1 r2 s2 n1 n2) in Hk by done.
    injection Hk as <-.
    assert (bool_decide (char_at c1 1 = char_at c2 1) = bool_decide (s1 = s2)) as Hs.
    { rewrite H2, H4. apply bool_decide_ext. split; congruence. }
    pose proof (rank_to_numeric_length _ _ H5) as L1.
    pose proof (rank_to_numeric_length _ _ H6) as L2.
    destruct (Z.leb_spec n2 n1).
    + exists c1, c2, r1, r2, n1, n2. rewrite Hs.
      repeat split; auto.
      rewrite !length_append, L1, L2. by destruct (bool_decide (s1 = s2)).
    + exists c1, c2, r2, r1, n2, n1. rewrite Hs.
      repeat split; auto; [lia|].
      rewrite !length_append, L1, L2. by destruct (bool_decide (s1 = s2)).
Qed.

(** X4.  The deck the two loops build has 52 distinct cards, each a rank
    character of [NUMS] followed by a suit character of [SUITS].  Every
    card of the deck has a rank, any two of them have a key, and two
    different cards of the same rank get the off-suit key of that rank. *)
Theorem full_deck_cards :
  length FULL_DECK = 52%nat /\ NoDup FULL_DECK /\
  (forall c, c ∈ FULL_DECK <->
             exists r s, r ∈ NUMS /\ s ∈ SUITS /\ c = r +:+ s) /\
  (forall c, c ∈ FULL_DECK -> is_Some (card_rank c)) /\
  (forall a b : card, a ∈ FULL_DECK -> b ∈ FULL_DECK ->
               is_Some (hole_list_to_key [a; b])) /\
  (forall (a b : card) r, a ∈ FULL_DECK -> b ∈ FULL_DECK -> a <> b ->
                 char_at a 0 = Some r -> char_at b 0 = Some r ->
                 hole_list_to_key [a; b] = Some (r +:+ r +:+ "o")).
Proof.
  split; [reflexivity|]. split; [exact Equity.FULL_DECK_NoDup|].
  split; [|split; [|split]].
  - intros c. unfold FULL_DECK. rewrite list_elem_of_In, in_flat_map. split.
    + intros (r & Hr & Hc). apply in_map_iff in Hc as (s & <- & Hs).
      exists r, s. by rewrite !list_elem_of_In.
    + intros (r & s & Hr & Hs & ->). exists r. rewrite list_elem_of_In in Hr, Hs.
      split; [done|]. apply in_map_iff. eauto.
  - intros c Hc. by destruct (deck_card_ok c Hc).
  - intros a b Ha Hb. apply card_ok_key; by apply deck_card_ok.
  - intros a b r Ha Hb Hab Hra Hrb.
    destruct (deck_card_ok a Ha) as [[na Hna] [sa Hsa]].
    destruct (deck_card_ok b Hb) as [[nb Hnb] [sb Hsb]].
    unfold card_rank in Hna, Hnb. rewrite Hra in Hna. rewrite Hrb in Hnb.
    simpl in Hna, Hnb.
    rewrite (hole_list_to_key_chars a b [] r sa r sb na nb) by done.
    assert (sa <> sb) as Hs.
    { intros ->. apply Hab. apply two_chars; auto using deck_card_two; congruence. }
    rewrite bool_decide_eq_false_2 by done.
    by destruct (nb <=? na)%Z.
Qed.

(** X5.  [sort_cards_by_rank] returns exactly when every card starts with
    a known rank character (otherwise the key function raises); its result
    is a rearrangement of the input in which no card comes before one of
    strictly higher rank. *)
Theorem sort_cards_by_rank_sorted cards :
  (is_Some (sort_cards_by_rank cards) <->
   Forall (fun c => is_Some (card_rank c)) cards) /\
  (forall sorted, sort_cards_by_rank cards = Some sorted ->
     sorted ≡ₚ cards /\
     forall i j a b, (i < j)%nat ->
       sorted !! i = Some a -> sorted !! j = Some b -> rank_ge a b).
Proof.
  split; [apply sort_cards_by_rank_is_Some|].
  intros sorted H. split.
  - destruct (sort_cards_by_rank_keyed _ _ H) as (keyed & <- & _ & ->).
    by rewrite sorted_desc_permutation.
  - intros i j a b. by apply (sort_cards_by_rank_desc cards).
Qed.

(** X6.  The sort is stable: the cards of any one rank come out in the
    order they went in. *)
Theorem sort_cards_by_rank_stable cards sorted n :
  sort_cards_by_rank cards = Some sorted ->
  filter (fun c => card_rank c = Some n) sorted
  = filter (fun c => card_rank c = Some n) cards.
Proof.
  intros (keyed & <- & Hall & ->)%sort_cards_by_rank_keyed.
  rewrite !filter_keyed, sorted_desc_filter; [done|done|].
  by rewrite sorted_desc_permutation.
Qed.

Lemma sort_cards_by_rank_stable_witness :
  sort_cards_by_rank ["2c"; "Ks"; "As"; "2d"; "Kd"; "Ah"]
    = Some ["As"; "Ah"; "Ks"; "Kd"; "2c"; "2d"] /\
  filter (fun c => card_rank c = Some 13%Z) ["As"; "Ah"; "Ks"; "Kd"; "2c"; "2d"]
  = filter (fun c => card_rank c = Some 13%Z) ["2c"; "Ks"; "As"; "2d"; "Kd"; "Ah"].
Proof.
  split; [vm_compute; reflexivity|].
  apply (sort_cards_by_rank_stable ["2c"; "Ks"; "As"; "2d"; "Kd"; "Ah"]).
  vm_compute. reflexivity.
Defined.

End CardFacts.
(** ** More on the allocator: what any completed allocation satisfies *)

Module AllocatorEdges.
Import Cards Allocator CardFacts.

Local Open Scope string_scope.
Local Open Scope list_scope.

(** A hand in which no card comes before one of strictly higher rank. *)
Fixpoint rank_sorted (l : list card) : Prop :=
  match l with
  | [] => True
  | x :: t => Forall (rank_ge x) t /\ rank_sorted t
  end.

(** The table has an entry for the key of the pair. *)
Definition in_table (table : gmap string float) (p : card * card) : Prop :=
  is_Some (pair_strength table p).

(** The strength the table gives a stored hand, as [get_actions] looks it
    up: [starting_strengths[hole_list_to_key(cards)]]. *)
Definition hand_strength (table : gmap string float) (h : list card)
    : option float :=
  key ← hole_list_to_key h; table !! key.

(** A hand short of one card, and the table it needs. *)
Definition short_hand : list card := ["2c"; "Ks"; "As"; "2d"; "Kd"].

Lemma list_remove_perm x l l' : list_remove x l = Some l' -> l ≡ₚ x :: l'.
Proof.
  revert l'. induction l as [|y t IH]; intros l' H; simpl in H; [discriminate|].
  destruct (decide (y = x)) as [->|].
  - by injection H as <-.
  - destruct (list_remove x t) as [t'|]; simpl in H; [|discriminate].
    injection H as <-. rewrite (IH t' eq_refl). apply Permutation_swap.
Qed.

Lemma remove_pair_perm p l rest :
  remove_pair p l = Some rest -> l ≡ₚ p.1 :: p.2 :: rest /\ rest `sublist_of` l.
Proof.
  unfold remove_pair. intros H.
  destruct (list_remove p.1 l) as [l1|] eqn:H1; simpl in H; [|discriminate].
  split.
  - rewrite (list_remove_perm _ _ _ H1). by rewrite (list_remove_perm _ _ _ H).
  - trans l1; eauto using list_remove_sublist.
Qed.

(** A scan that completes has found every pair in the table, and ends on
    its accumulator or on a pair strictly stronger than it. *)
Lemma scan_pairs_pick self ps : forall acc acc',
  scan_pairs self ps acc = Some acc' ->
  Forall (in_table (starting_strengths self)) ps /\
  (acc' = acc \/
   exists p s, p ∈ ps /\ acc' = ([p.1; p.2], s) /\
               pair_strength (starting_strengths self) p = Some s /\
               (acc.2 <? s)%float = true).
Proof.
  induction ps as [|p ps IH]; intros acc acc' Hrun; simpl in Hrun.
  - injection Hrun as <-. split; [constructor|by left].
  - rewrite scan_pair_strength in Hrun.
    destruct (pair_strength (starting_strengths self) p) as [s|] eqn:Hs;
      simpl in Hrun; [|discriminate].
    destruct (acc.2 <? s)%float eqn:Hlt.
    + destruct (IH _ _ Hrun) as (Hall & Hcase).
      split; [constructor; [by exists s|done]|]. right.
      destruct Hcase as [->|(p' & s' & Hp' & -> & Hs' & Hlt')].
      * exists p, s. split; [by left|done].
      * exists p', s'. split; [by right|]. split; [done|]. split; [done|].
        simpl in Hlt'.
        eauto using PyFloat.ltb_leb_trans, PyFloat.ltb_leb.
    + destruct (IH _ _ Hrun) as (Hall & Hcase).
      split; [constructor; [by exists s|done]|].
      destruct Hcase as [->|(p' & s' & Hp' & -> & Hs' & Hlt')]; [by left|].
      right. exists p', s'. split; [by right|done].
Qed.

(** One round that completes, spelled out. *)
Lemma allocate_round_inv k my_cards self rest self' :
  allocate_round k (my_cards, self) = Some (rest, self') ->
  exists p s,
    p ∈ all_pairs my_cards /\
    pair_strength (starting_strengths self) p = Some s /\
    (0 <? s)%float = true /\
    Forall (in_table (starting_strengths self)) (all_pairs my_cards) /\
    remove_pair p my_cards = Some rest /\
    ((2 - k)%nat < length (board_allocations self))%nat /\
    ((2 - k)%nat < length (hole_strengths self))%nat /\
    self' = mkPlayer (<[(2 - k)%nat := [p.1; p.2]]> (board_allocations self))
              (<[(2 - k)%nat := s]> (hole_strengths self))
              (total_payoffs self) (mutated self)
              (draise_pre self) (draise_post self) (dcall_pre self)
              (dcall_post self) (draise_exp self) (draise_const self)
              (starting_strengths self).
Proof.
  unfold allocate_round, list_store, remove_pair. intros H.
  destruct (scan_pairs self (all_pairs my_cards) ([], 0%float))
    as [[temp_cards m]|] eqn:Hrun; simpl in H; [|discriminate].
  destruct (decide (2 - k < length (board_allocations self))%nat) as [Hl1|];
    simpl in H; [|discriminate].
  destruct (decide (2 - k < length (hole_strengths self))%nat) as [Hl2|];
    simpl in H; [|discriminate].
  destruct (scan_pairs_pick _ _ _ _ Hrun)
    as (Hall & [[= -> ->]|(p & s & Hp & [= -> ->] & Hs & Hlt)]);
    [simpl in H; discriminate|].
  simpl in H.
  destruct (list_remove p.1 my_cards) as [l1|] eqn:Hr1; simpl in H; [|discriminate].
  destruct (list_remove p.2 l1) as [l2|] eqn:Hr2; simpl in H; [|discriminate].
  injection H as <- <-.
  exists p, s. simpl. repeat split; trivial. by rewrite Hr1.
Qed.

(** A completed run of [allocate_cards], spelled out. *)
Lemma allocate_cards_inv self my_cards self' :
  allocate_cards self my_cards = Some self' ->
  exists sorted p1 s1 r1 p2 s2 r2 p3 s3 r3,
    sort_cards_by_rank my_cards = Some sorted /\
    Forall (in_table (starting_strengths self)) (all_pairs sorted) /\
    p1 ∈ all_pairs sorted /\ pair_strength (starting_strengths self) p1 = Some s1 /\
    (0 <? s1)%float = true /\ remove_pair p1 sorted = Some r1 /\
    p2 ∈ all_pairs r1 /\ pair_strength (starting_strengths self) p2 = Some s2 /\
    (0 <? s2)%float = true /\ remove_pair p2 r1 = Some r2 /\
    p3 ∈ all_pairs r2 /\ pair_strength (starting_strengths self) p3 = Some s3 /\
    (0 <? s3)%float = true /\ remove_pair p3 r2 = Some r3 /\
    (2 < length (board_allocations self))%nat /\
    (2 < length (hole_strengths self))%nat /\
    self' = mkPlayer
              (<[0%nat := [p3.1; p3.2]]> (<[1%nat := [p2.1; p2.2]]>
                 (<[2%nat := [p1.1; p1.2]]> (board_allocations self))))
              (<[0%nat := s3]> (<[1%nat := s2]>
                 (<[2%nat := s1]> (hole_strengths self))))
              (total_payoffs self) (mutated self)
              (draise_pre self) (draise_post self) (dcall_pre self)
              (dcall_post self) (draise_exp self) (draise_const self)
              (starting_strengths self).
Proof.
  unfold allocate_cards. intros H.
  destruct (sort_cards_by_rank my_cards) as [sorted|]; simpl in H; [|discriminate].
  destruct (allocate_round 0 (sorted, self)) as [[r1 self1]|] eqn:H1;
    simpl in H; [|discriminate].
  destruct (allocate_round 1 (r1, self1)) as [[r2 self2]|] eqn:H2;
    simpl in H; [|discriminate].
  destruct (allocate_round 2 (r2, self2)) as [[r3 self3]|] eqn:H3;
    simpl in H; [|discriminate].
  injection H as <-.
  apply allocate_round_inv in H1
    as (p1 & s1 & Hp1 & Hs1 & Hpos1 & Hall & Hrem1 & Hl1 & Hl1' & ->).
  apply allocate_round_inv in H2
    as (p2 & s2 & Hp2 & Hs2 & Hpos2 & _ & Hrem2 & _ & _ & ->).
  apply allocate_round_inv in H3
    as (p3 & s3 & Hp3 & Hs3 & Hpos3 & _ & Hrem3 & _ & _ & ->).
  simpl in *.
  exists sorted, p1, s1, r1, p2, s2, r2, p3, s3, r3.
  repeat split; trivial.
Qed.

Lemma pair_strength_hand table (p : card * card) :
  pair_strength table p = hand_strength table [p.1; p.2].
Proof. reflexivity. Qed.

(** The pairs of a list come in list order. *)
Lemma all_pairs_order a b l :
  (a, b) ∈ all_pairs l -> exists l1 l2, l = l1 ++ a :: l2 /\ b ∈ l2.
Proof.
  induction l as [|x t IH]; simpl; [by intros ?%elem_of_nil|].
  intros [Hin|Hin]%elem_of_app.
  - apply list_elem_of_fmap in Hin as (y & [= -> ->] & Hy). by exists [], t.
  - destruct (IH Hin) as (l1 & l2 & -> & Hb). by exists (x :: l1), l2.
Qed.

(** Any two different cards of a list form one of its pairs, in one order
    or the other. *)
Lemma all_pairs_cover a b l :
  a ∈ l -> b ∈ l -> a <> b -> (a, b) ∈ all_pairs l \/ (b, a) ∈ all_pairs l.
Proof.
  induction l as [|x t IH]; simpl; [by intros ?%elem_of_nil|].
  intros [->|Ha]%elem_of_cons [->|Hb]%elem_of_cons Hab.
  - done.
  - left. apply elem_of_app. left. by apply list_elem_of_fmap_2.
  - right. apply elem_of_app. left. by apply list_elem_of_fmap_2.
  - destruct (IH Ha Hb Hab); [left|right]; apply elem_of_app; by right.
Qed.

Lemma rank_sorted_app_r l1 l2 : rank_sorted (l1 ++ l2) -> rank_sorted l2.
Proof. induction l1 as [|x t IH]; simpl; [done|]. intros [_ ?]. auto. Qed.

Lemma rank_sorted_pairs l : rank_sorted l ->
  forall a b, (a, b) ∈ all_pairs l -> rank_ge a b.
Proof.
  intros Hs a b (l1 & l2 & -> & Hb)%all_pairs_order.
  apply rank_sorted_app_r in Hs as [Hall _].
  rewrite Forall_forall in Hall. auto.
Qed.

Lemma rank_sorted_sublist l1 l2 :
  l1 `sublist_of` l2 -> rank_sorted l2 -> rank_sorted l1.
Proof.
  induction 1 as [|x l1 l2 Hs IH|x l1 l2 Hs IH]; simpl; [done| |].
  - intros [Hx Hr]. split; [|auto].
    rewrite Forall_forall in *. intros y Hy. apply Hx.
    by eapply elem_of_sublist.
  - intros [_ Hr]. auto.
Qed.

Lemma rank_sorted_lookup l :
  (forall i j a b, (i < j)%nat -> l !! i = Some a -> l !! j = Some b -> rank_ge a b) ->
  rank_sorted l.
Proof.
  induction l as [|x t IH]; simpl; [done|]. intros H. split.
  - apply Forall_forall. intros y Hy.
    apply list_elem_of_lookup_1 in Hy as [j Hj].
    apply (H 0%nat (S j)); [lia|done..].
  - apply IH. intros i j a b Hij Ha Hb. apply (H (S i) (S j)); [lia|done..].
Qed.

Lemma sort_cards_by_rank_rank_sorted cards sorted :
  sort_cards_by_rank cards = Some sorted -> rank_sorted sorted.
Proof.
  intros H. apply rank_sorted_lookup. intros i j a b.
  by apply (sort_cards_by_rank_desc cards).
Qed.

Lemma sort_cards_by_rank_permutation cards sorted :
  sort_cards_by_rank cards = Some sorted -> sorted ≡ₚ cards.
Proof.
  intros (keyed & <- & _ & ->)%sort_cards_by_rank_keyed.
  by rewrite sorted_desc_permutation.
Qed.

(** The three stored hands of a completed run are taken from the dealt
    cards without reuse. *)
Lemma allocated_submseteq my_cards sorted (p1 p2 p3 : card * card) r1 r2 r3 :
  sorted ≡ₚ my_cards ->
  remove_pair p1 sorted = Some r1 -> remove_pair p2 r1 = Some r2 ->
  remove_pair p3 r2 = Some r3 ->
  [p3.1; p3.2] ++ [p2.1; p2.2] ++ [p1.1; p1.2] ++ r3 ≡ₚ my_cards.
Proof.
  intros Hperm [E1 _]%remove_pair_perm [E2 _]%remove_pair_perm
    [E3 _]%remove_pair_perm.
  rewrite <- Hperm, E1, E2, E3. simpl.
  change (p3.1 :: p3.2 :: p2.1 :: p2.2 :: p1.1 :: p1.2 :: r3)
    with ([p3.1; p3.2] ++ [p2.1; p2.2] ++ [p1.1; p1.2] ++ r3).
  change (p1.1 :: p1.2 :: p2.1 :: p2.2 :: p3.1 :: p3.2 :: r3)
    with ([p1.1; p1.2] ++ [p2.1; p2.2] ++ [p3.1; p3.2] ++ r3).
  rewrite (Permutation_app_swap_app [p1.1; p1.2] [p2.1; p2.2]).
  rewrite (Permutation_app_swap_app [p1.1; p1.2] [p3.1; p3.2]).
  by rewrite (Permutation_app_swap_app [p2.1; p2.2] [p3.1; p3.2]).
Qed.

Ltac allocated_lookups :=
  repeat first
    [ apply list_lookup_insert_eq; rewrite ?length_insert; lia
    | rewrite list_lookup_insert_ne by lia ].

(** X7.  Whenever [allocate_cards] returns, each of the three boards holds
    a two-card hand; the six cards are taken from the dealt cards without
    reuse; and the strength recorded for a board is the table's strength
    for the hand stored on that board, which is positive. *)
Theorem allocate_cards_sound self my_cards self' :
  allocate_cards self my_cards = Some self' ->
  exists h0 h1 h2 s0 s1 s2,
    board_allocations self' !! 0%nat = Some h0 /\
    board_allocations self' !! 1%nat = Some h1 /\
    board_allocations self' !! 2%nat = Some h2 /\
    hole_strengths self' !! 0%nat = Some s0 /\
    hole_strengths self' !! 1%nat = Some s1 /\
    hole_strengths self' !! 2%nat = Some s2 /\
    length h0 = 2%nat /\ length h1 = 2%nat /\ length h2 = 2%nat /\
    h0 ++ h1 ++ h2 ⊆+ my_cards /\
    hand_strength (starting_strengths self') h0 = Some s0 /\
    hand_strength (starting_strengths self') h1 = Some s1 /\
    hand_strength (starting_strengths self') h2 = Some s2 /\
    (0 <? s0)%float = true /\ (0 <? s1)%float = true /\ (0 <? s2)%float = true.
Proof.
  intros H.
  destruct (allocate_cards_inv _ _ _ H)
    as (sorted & p1 & s1 & r1 & p2 & s2 & r2 & p3 & s3 & r3 & Hsort & _
        & _ & Hs1 & Hpos1 & Hrem1 & _ & Hs2 & Hpos2 & Hrem2
        & _ & Hs3 & Hpos3 & Hrem3 & Hl & Hl' & ->).
  exists [p3.1; p3.2], [p2.1; p2.2], [p1.1; p1.2], s3, s2, s1. simpl.
  repeat split; trivial; try by allocated_lookups.
  apply sort_cards_by_rank_permutation in Hsort.
  pose proof (allocated_submseteq _ _ _ _ _ _ _ _ Hsort Hrem1 Hrem2 Hrem3) as Hp.
  rewrite <- Hp. simpl.
  do 6 apply submseteq_skip. apply submseteq_nil_l.
Qed.

Lemma allocate_cards_sound_witness :
  exists h0 h1 h2 s0 s1 s2,
    board_allocations sample_allocated !! 0%nat = Some h0 /\
    board_allocations sample_allocated !! 1%nat = Some h1 /\
    board_allocations sample_allocated !! 2%nat = Some h2 /\
    hole_strengths sample_allocated !! 0%nat = Some s0 /\
    hole_strengths sample_allocated !! 1%nat = Some s1 /\
    hole_strengths sample_allocated !! 2%nat = Some s2 /\
    length h0 = 2%nat /\ length h1 = 2%nat /\ length h2 = 2%nat /\
    h0 ++ h1 ++ h2 ⊆+ sample_hand /\
    hand_strength (starting_strengths sample_allocated) h0 = Some s0 /\
    hand_strength (starting_strengths sample_allocated) h1 = Some s1 /\
    hand_strength (starting_strengths sample_allocated) h2 = Some s2 /\
    (0 <? s0)%float = true /\ (0 <? s1)%float = true /\ (0 <? s2)%float = true.
Proof.
  apply (allocate_cards_sound (init_player sample_strengths) sample_hand).
  vm_compute. reflexivity.
Defined.

(** X8.  [allocate_cards] raises on every hand of fewer than six cards:
    the third scan, at the latest, has no pair to select. *)
Theorem allocate_cards_short_hand self my_cards :
  (length my_cards < 6)%nat -> allocate_cards self my_cards = None.
Proof.
  intros Hlen. destruct (allocate_cards self my_cards) as [self'|] eqn:H; [|done].
  destruct (allocate_cards_inv _ _ _ H)
    as (sorted & p1 & s1 & r1 & p2 & s2 & r2 & p3 & s3 & r3 & Hsort & _
        & _ & _ & _ & Hrem1 & _ & _ & _ & Hrem2 & _ & _ & _ & Hrem3 & _).
  apply sort_cards_by_rank_permutation in Hsort.
  pose proof (allocated_submseteq _ _ _ _ _ _ _ _ Hsort Hrem1 Hrem2 Hrem3) as Hp.
  apply Permutation_length in Hp. simpl in Hp. lia.
Qed.

Lemma allocate_cards_short_hand_witness :
  (length short_hand < 6)%nat /\
  allocate_cards (init_player sample_strengths) short_hand = None.
Proof.
  split; [vm_compute; lia|].
  apply (allocate_cards_short_hand (init_player sample_strengths) short_hand).
  vm_compute. lia.
Defined.

(** X9.  [allocate_cards] writes only slots 0, 1 and 2 of
    [board_allocations] and [hole_strengths]: the payoff accumulator, the
    mutation flag, the six stored deltas and the strength table are as
    before, the two lists keep their lengths, and any slot past the third
    keeps its content. *)
Theorem allocate_cards_frame self my_cards self' :
  allocate_cards self my_cards = Some self' ->
  total_payoffs self' = total_payoffs self /\
  mutated self' = mutated self /\
  (draise_pre self', draise_post self', dcall_pre self', dcall_post self',
   draise_exp self', draise_const self')
  = (draise_pre self, draise_post self, dcall_pre self, dcall_post self,
     draise_exp self, draise_const self) /\
  starting_strengths self' = starting_strengths self /\
  length (board_allocations self') = length (board_allocations self) /\
  length (hole_strengths self') = length (hole_strengths self) /\
  (forall i, (3 <= i)%nat ->
     board_allocations self' !! i = board_allocations self !! i /\
     hole_strengths self' !! i = hole_strengths self !! i).
Proof.
  intros H.
  destruct (allocate_cards_inv _ _ _ H)
    as (sorted & p1 & s1 & r1 & p2 & s2 & r2 & p3 & s3 & r3 & _ & _
        & _ & _ & _ & _ & _ & _ & _ & _ & _ & _ & _ & _ & _ & _ & ->).
  simpl. repeat split; rewrite ?length_insert; trivial;
    by rewrite !list_lookup_insert_ne by lia.
Qed.

Lemma allocate_cards_frame_witness :
  total_payoffs sample_allocated = total_payoffs (init_player sample_strengths) /\
  mutated sample_allocated = mutated (init_player sample_strengths) /\
  (draise_pre sample_allocated, draise_post sample_allocated,
   dcall_pre sample_allocated, dcall_post sample_allocated,
   draise_exp sample_allocated, draise_const sample_allocated)
  = (draise_pre (init_player sample_strengths),
     draise_post (init_player sample_strengths),
     dcall_pre (init_player sample_strengths),
     dcall_post (init_player sample_strengths),
     draise_exp (init_player sample_strengths),
     draise_const (init_player sample_strengths)) /\
  starting_strengths sample_allocated
    = starting_strengths (init_player sample_strengths) /\
  length (board_allocations sample_allocated)
    = length (board_allocations (init_player sample_strengths)) /\
  length (hole_strengths sample_allocated)
    = length (hole_strengths (init_player sample_strengths)) /\
  (forall i, (3 <= i)%nat ->
     board_allocations sample_allocated !! i
       = board_allocations (init_player sample_strengths) !! i /\
     hole_strengths sample_allocated !! i
       = hole_strengths (init_player sample_strengths) !! i).
Proof.
  apply (allocate_cards_frame (init_player sample_strengths) sample_hand).
  vm_compute. reflexivity.
Defined.

(** X10.  In every hand that [allocate_cards] stores, the first card ranks
    at least as high as the second: pairs are formed from the rank-sorted
    hand in list order, and removing cards keeps that order. *)
Theorem allocate_cards_high_card_first self my_cards self' i h :
  allocate_cards self my_cards = Some self' ->
  (i < 3)%nat -> board_allocations self' !! i = Some h ->
  exists a b, h = [a; b] /\ rank_ge a b.
Proof.
  intros H Hi Hh.
  destruct (allocate_cards_inv _ _ _ H)
    as (sorted & p1 & s1 & r1 & p2 & s2 & r2 & p3 & s3 & r3 & Hsort & _
        & Hp1 & _ & _ & Hrem1 & Hp2 & _ & _ & Hrem2 & Hp3 & _ & _ & _
        & Hl & _ & ->).
  apply sort_cards_by_rank_rank_sorted in Hsort.
  apply remove_pair_perm in Hrem1 as [_ Hsub1].
  apply remove_pair_perm in Hrem2 as [_ Hsub2].
  pose proof (rank_sorted_sublist _ _ Hsub1 Hsort) as Hsort1.
  pose proof (rank_sorted_sublist _ _ Hsub2 Hsort1) as Hsort2.
  simpl in Hh.
  destruct i as [|[|[|i]]]; [| | |lia].
  - rewrite list_lookup_insert_eq in Hh by (rewrite !length_insert; lia).
    injection Hh as <-. exists p3.1, p3.2. split; [done|].
    apply (rank_sorted_pairs r2); [done|]. by destruct p3.
  - rewrite list_lookup_insert_ne in Hh by lia.
    rewrite list_lookup_insert_eq in Hh by (rewrite !length_insert; lia).
    injection Hh as <-. exists p2.1, p2.2. split; [done|].
    apply (rank_sorted_pairs r1); [done|]. by destruct p2.
  - rewrite !list_lookup_insert_ne in Hh by lia.
    rewrite list_lookup_insert_eq in Hh by lia.
    injection Hh as <-. exists p1.1, p1.2. split; [done|].
    apply (rank_sorted_pairs sorted); [done|]. by destruct p1.
Qed.

Lemma allocate_cards_high_card_first_witness :
  exists a b, ["Ks"; "Kd"] = [a; b] /\ rank_ge a b.
Proof.
  apply (allocate_cards_high_card_first (init_player sample_strengths)
           sample_hand sample_allocated 1 ["Ks"; "Kd"]).
  - vm_compute. reflexivity.
  - lia.
  - reflexivity.
Defined.

(** X11.  The first scan looks up every pair of the hand, so
    [allocate_cards] returns only if the table has an entry for the key of
    every two different cards dealt: one missing key raises [KeyError],
    whatever the other strengths are. *)
Theorem allocate_cards_needs_table self my_cards self' (a b : card) :
  allocate_cards self my_cards = Some self' ->
  a ∈ my_cards -> b ∈ my_cards -> a <> b ->
  is_Some (hand_strength (starting_strengths self) [a; b]).
Proof.
  intros H Ha Hb Hab.
  destruct (allocate_cards_inv _ _ _ H)
    as (sorted & p1 & s1 & r1 & p2 & s2 & r2 & p3 & s3 & r3 & Hsort & Hall & _).
  apply sort_cards_by_rank_permutation in Hsort.
  rewrite <- Hsort in Ha, Hb. rewrite Forall_forall in Hall.
  destruct (all_pairs_cover a b sorted Ha Hb Hab) as [Hin|Hin].
  - exact (Hall _ Hin).
  - specialize (Hall _ Hin). unfold in_table, pair_strength in Hall.
    simpl in Hall. unfold hand_strength.
    by rewrite (hole_list_to_key_swap a b [] []).
Qed.

Lemma allocate_cards_needs_table_witness :
  is_Some (hand_strength (starting_strengths (init_player sample_strengths))
             ["2c"; "As"]).
Proof.
  apply (allocate_cards_needs_table (init_player sample_strengths) sample_hand
           sample_allocated "2c" "As").
  - vm_compute. reflexivity.
  - apply (bool_decide_unpack _). vm_compute. exact I.
  - apply (bool_decide_unpack _). vm_compute. exact I.
  - discriminate.
Defined.

End AllocatorEdges.
(** ** More on binary64 values: exact quotients, signs and square roots *)

Module FloatFacts.
Import PyFloat.

Lemma new_location_exact m : new_location (Z.pos m) 0 = loc_Exact.
Proof.
  unfold new_location, new_location_even, new_location_odd.
  destruct (Z.even _); reflexivity.
Qed.

(** The quotient of two values with the same 53-bit mantissa is the power
    of two that their exponents give. *)
Lemma SFdiv_same_mantissa M E1 E2 :
  Z.pos (digits2_pos M) = 53 -> -52 <= E1 <= 0 -> -52 <= E2 <= 0 ->
  SFdiv prec emax (S754_finite false M E1) (S754_finite false M E2)
  = S754_finite false 4503599627370496 (E1 - E2 - 52).
Proof.
  intros D HE1 HE2.
  unfold SFdiv, SFdiv_core_binary. simpl Zdigits2. rewrite D.
  rewrite fexp_small by lia.
  replace (Z.min (53 + E1 - (53 + E2) - 53) (E1 - E2)) with (E1 - E2 - 53) by lia.
  replace (E1 - E2 - (E1 - E2 - 53)) with 53 by lia.
  rewrite Z.shiftl_mul_pow2 by lia.
  change (2 ^ 53) with 9007199254740992.
  pose proof (Z_div_mod (Z.pos M * 9007199254740992) (Z.pos M) eq_refl) as Hdiv.
  destruct (Z.div_eucl (Z.pos M * 9007199254740992) (Z.pos M)) as [q r].
  destruct Hdiv as [Heq Hr].
  assert (q = 9007199254740992) as ->.
  { destruct (Z.lt_trichotomy q 9007199254740992) as [L|[L|L]]; [|done|]; nia. }
  assert (r = 0) as -> by lia.
  rewrite new_location_exact. simpl xorb.
  unfold binary_round_aux.
  rewrite shr_fexp_54 by (reflexivity || lia).
  change (shr_1 (shr_record_of_loc 9007199254740992 loc_Exact))
    with (Build_shr_record 4503599627370496 false false).
  cbn [shr_m loc_of_shr_record round_nearest_even].
  rewrite shr_fexp_53 by (reflexivity || lia).
  cbn [shr_m shr_record_of_loc].
  replace (E1 - E2 - 53 + 1) with (E1 - E2 - 52) by lia.
  destruct (Z.leb_spec (E1 - E2 - 52) (emax - prec)); [done|].
  unfold emax, prec in *. lia.
Qed.

Lemma digits2_double p : digits2_pos p~0 = Pos.succ (digits2_pos p).
Proof. reflexivity. Qed.

Lemma float_of_Z_bits p :
  Z.pos p < 2 ^ 53 -> 0 < Z.pos (digits2_pos p) <= 53.
Proof.
  intros Hp. pose proof (digits2_bounds p). split; [lia|].
  destruct (Z.le_gt_cases (Z.pos (digits2_pos p)) 53); [done|].
  assert (2 ^ 53 <= 2 ^ (Z.pos (digits2_pos p) - 1))
    by (apply Z.pow_le_mono_r; lia). lia.
Qed.

(** [n / n] is exactly one. *)
Lemma div_same p :
  Z.pos p < 2 ^ 53 ->
  (float_of_Z (Z.pos p) / float_of_Z (Z.pos p))%float = 1%float.
Proof.
  intros Hp. apply Prim2SF_inj. rewrite div_spec.
  destruct (Prim2SF_float_of_Z_small p Hp) as (M & -> & _ & D).
  pose proof (float_of_Z_bits p Hp).
  rewrite SFdiv_same_mantissa by (done || lia).
  replace (Z.pos (digits2_pos p) - 53 - (Z.pos (digits2_pos p) - 53) - 52)
    with (-52) by lia.
  reflexivity.
Qed.

(** [n / (2 * n)] is exactly one half. *)
Lemma div_double p :
  Z.pos p~0 < 2 ^ 53 ->
  (float_of_Z (Z.pos p) / float_of_Z (Z.pos p~0))%float = 0.5%float.
Proof.
  intros Hp. apply Prim2SF_inj. rewrite div_spec.
  assert (Z.pos p < 2 ^ 53) as Hp' by lia.
  destruct (Prim2SF_float_of_Z_small p Hp') as (M & -> & V & D).
  destruct (Prim2SF_float_of_Z_small p~0 Hp) as (M' & -> & V' & D').
  pose proof (float_of_Z_bits p Hp'). pose proof (float_of_Z_bits p~0 Hp) as B'.
  rewrite digits2_double, Pos2Z.inj_succ in *.
  assert (M' = M) as ->.
  { assert (Z.pos M' = Z.pos M) as E; [|by injection E].
    rewrite V, V', Pos2Z.inj_xO.
    replace (53 - Z.pos (digits2_pos p))
      with (Z.succ (53 - Z.succ (Z.pos (digits2_pos p)))) by lia.
    rewrite Z.pow_succ_r by lia. lia. }
  rewrite SFdiv_same_mantissa by (done || lia).
  replace (Z.pos (digits2_pos p) - 53 - (Z.succ (Z.pos (digits2_pos p)) - 53) - 52)
    with (-53) by lia.
  reflexivity.
Qed.

(** [0 / n] is exactly zero. *)
Lemma div_zero p :
  Z.pos p < 2 ^ 53 ->
  (float_of_Z 0 / float_of_Z (Z.pos p))%float = 0%float.
Proof.
  intros Hp. apply Prim2SF_inj. rewrite div_spec.
  destruct (Prim2SF_float_of_Z_small p Hp) as (M & -> & _ & D).
  reflexivity.
Qed.

(** *** Signs and square roots *)

Lemma valid_normal m e :
  valid_binary (S754_finite false m e) = true -> -1074 < e ->
  Z.pos (digits2_pos m) = 53.
Proof.
  unfold valid_binary, bounded, canonical_mantissa, fexp, emin, emax, prec.
  intros [H _]%andb_prop He. apply Z.eqb_eq in H. lia.
Qed.

(** The quotient of two positive normal values of moderate exponent is a
    positive finite value of moderate exponent. *)
Lemma SFdiv_finite M1 E1 M2 E2 :
  Z.pos (digits2_pos M1) = 53 -> Z.pos (digits2_pos M2) = 53 ->
  -52 <= E1 <= 0 -> -52 <= E2 <= 0 ->
  exists m e,
    SFdiv prec emax (S754_finite false M1 E1) (S754_finite false M2 E2)
    = S754_finite false m e /\ -105 <= e <= 1.
Proof.
  intros D1 D2 HE1 HE2.
  pose proof (digits2_bounds M1) as B1. rewrite D1 in B1.
  pose proof (digits2_bounds M2) as B2. rewrite D2 in B2.
  change (2 ^ (53 - 1)) with 4503599627370496 in *.
  change (2 ^ 53) with 9007199254740992 in *.
  unfold SFdiv, SFdiv_core_binary. simpl Zdigits2. rewrite D1, D2.
  rewrite fexp_small by lia.
  replace (Z.min (53 + E1 - (53 + E2) - 53) (E1 - E2)) with (E1 - E2 - 53) by lia.
  replace (E1 - E2 - (E1 - E2 - 53)) with 53 by lia.
  rewrite Z.shiftl_mul_pow2 by lia.
  change (2 ^ 53) with 9007199254740992.
  pose proof (Z_div_mod (Z.pos M1 * 9007199254740992) (Z.pos M2) eq_refl) as Hdiv.
  destruct (Z.div_eucl (Z.pos M1 * 9007199254740992) (Z.pos M2)) as [q r].
  destruct Hdiv as [Heq Hr].
  assert (4503599627370496 <= q) as Hq_lo by nia.
  assert (q < 18014398509481984) as Hq_hi by nia.
  destruct q as [|q|q]; try lia.
  simpl xorb.
  destruct (Z.lt_ge_cases (Z.pos q) 9007199254740992) as [Hlt|Hge].
  - assert (Z.pos (digits2_pos q) = 53) as Dq by (apply digits2_unique; simpl; lia).
    destruct (round_53 q (E1 - E2 - 53) (new_location (Z.pos M2) r) Dq)
      as [[m ->]| ->]; [lia| |]; eexists _, _; (split; [reflexivity|lia]).
  - assert (Z.pos (digits2_pos q) = 54) as Dq by (apply digits2_unique; simpl; lia).
    destruct (round_54 q (E1 - E2 - 53) (new_location (Z.pos M2) r) Dq)
      as [[m ->]| ->]; [lia| |]; eexists _, _; (split; [reflexivity|lia]).
Qed.

(** The square root of a positive normal value is a positive finite
    value. *)
Lemma SFsqrt_finite m e :
  Z.pos (digits2_pos m) = 53 -> -1000 <= e <= 900 ->
  exists m' e', SFsqrt prec emax (S754_finite false m e) = S754_finite false m' e'.
Proof.
  intros D He.
  pose proof (digits2_bounds m) as B. rewrite D in B.
  change (2 ^ (53 - 1)) with 4503599627370496 in *.
  change (2 ^ 53) with 9007199254740992 in *.
  unfold SFsqrt, SFsqrt_core_binary. simpl Zdigits2. rewrite D.
  rewrite !Z.div2_div.
  pose proof (Z_div_mod_eq_full (53 + e + 1) 2) as Hd.
  pose proof (Z.mod_pos_bound (53 + e + 1) 2 eq_refl) as Hm.
  pose proof (Z_div_mod_eq_full e 2) as Hd'.
  pose proof (Z.mod_pos_bound e 2 eq_refl) as Hm'.
  rewrite fexp_small by lia.
  replace (Z.min ((53 + e + 1) / 2 - 53) (e / 2)) with ((53 + e + 1) / 2 - 53)
    by lia.
  set (e' := (53 + e + 1) / 2 - 53) in *.
  assert (e - 2 * e' = 52 \/ e - 2 * e' = 53) as [Es|Es] by lia; rewrite Es;
    rewrite Z.shiftl_mul_pow2 by lia.
  - change (2 ^ 52) with 4503599627370496.
    pose proof (Z.sqrtrem_spec (Z.pos m * 4503599627370496)) as Hs.
    destruct (Z.sqrtrem (Z.pos m * 4503599627370496)) as [q r].
    destruct Hs as [Heq Hr]; [lia|].
    assert (0 <= q).
    { destruct (Z.le_gt_cases 0 q); [done|]. lia. }
    assert (4503599627370496 <= q) as Hq_lo.
    { destruct (Z.le_gt_cases 4503599627370496 q); [done|].
      assert ((q + 1) * (q + 1) <= 4503599627370496 * 4503599627370496)
        by (apply Z.mul_le_mono_nonneg; lia).
      lia. }
    assert (q < 9007199254740992) as Hq_hi.
    { destruct (Z.lt_ge_cases q 9007199254740992); [done|].
      assert (9007199254740992 * 9007199254740992 <= q * q)
        by (apply Z.mul_le_mono_nonneg; lia).
      lia. }
    destruct q as [|q|q]; try lia.
    assert (Z.pos (digits2_pos q) = 53) as Dq by (apply digits2_unique; simpl; lia).
    match goal with
    | |- context [binary_round_aux _ _ _ _ _ ?l] =>
        destruct (round_53 q e' l Dq) as [[m' ->]| ->]; [lia|eauto..]
    end.
  - change (2 ^ 53) with 9007199254740992.
    pose proof (Z.sqrtrem_spec (Z.pos m * 9007199254740992)) as Hs.
    destruct (Z.sqrtrem (Z.pos m * 9007199254740992)) as [q r].
    destruct Hs as [Heq Hr]; [lia|].
    assert (0 <= q).
    { destruct (Z.le_gt_cases 0 q); [done|]. lia. }
    assert (4503599627370496 <= q) as Hq_lo.
    { destruct (Z.le_gt_cases 4503599627370496 q); [done|].
      assert ((q + 1) * (q + 1) <= 4503599627370496 * 4503599627370496)
        by (apply Z.mul_le_mono_nonneg; lia).
      lia. }
    assert (q < 9007199254740992) as Hq_hi.
    { destruct (Z.lt_ge_cases q 9007199254740992); [done|].
      assert (9007199254740992 * 9007199254740992 <= q * q)
        by (apply Z.mul_le_mono_nonneg; lia).
      lia. }
    destruct q as [|q|q]; try lia.
    assert (Z.pos (digits2_pos q) = 53) as Dq by (apply digits2_unique; simpl; lia).
    match goal with
    | |- context [binary_round_aux _ _ _ _ _ ?l] =>
        destruct (round_53 q e' l Dq) as [[m' ->]| ->]; [lia|eauto..]
    end.
Qed.

(** The quotient of two positive integers below [2^53] is not negative,
    and its square root is not zero. *)
Lemma sqrt_int_div a b :
  0 < a < 2 ^ 53 -> 0 < b < 2 ^ 53 ->
  ((float_of_Z a / float_of_Z b <? 0)%float = false) /\
  ((sqrt (float_of_Z a / float_of_Z b) =? 0)%float = false).
Proof.
  intros Ha Hb.
  destruct a as [|a|a]; try lia. destruct b as [|b|b]; try lia.
  pose proof (Prim2SF_valid (float_of_Z (Z.pos a) / float_of_Z (Z.pos b))) as Hv.
  rewrite FloatAxioms.ltb_spec, FloatAxioms.eqb_spec, FloatAxioms.sqrt_spec.
  rewrite div_spec in *. unfold SF64div, SF64sqrt in *.
  destruct (Prim2SF_float_of_Z_small a) as (M1 & Ea & _ & D1); [lia|].
  destruct (Prim2SF_float_of_Z_small b) as (M2 & Eb & _ & D2); [lia|].
  rewrite Ea, Eb in *.
  pose proof (float_of_Z_bits a ltac:(lia)).
  pose proof (float_of_Z_bits b ltac:(lia)).
  destruct (SFdiv_finite M1 (Z.pos (digits2_pos a) - 53) M2
              (Z.pos (digits2_pos b) - 53)) as (m & e & E & He);
    [done|done|lia|lia|].
  rewrite E in *. split; [reflexivity|].
  destruct (SFsqrt_finite m e) as (m' & e' & ->);
    [apply (valid_normal m e); [done|lia]|lia|].
  reflexivity.
Qed.

(** The value of a positive integer below [2^53] is not negative, and
    neither is its square root. *)
Lemma float_of_Z_pos a :
  0 < a < 2 ^ 53 -> (float_of_Z a <? 0)%float = false.
Proof.
  intros Ha. destruct a as [|a|a]; try lia.
  rewrite FloatAxioms.ltb_spec.
  destruct (Prim2SF_float_of_Z_small a) as (M1 & -> & _ & D1); [lia|].
  reflexivity.
Qed.

End FloatFacts.
(** ** More on the equity estimator: the cards it samples from, its errors
    and its exact extremes *)

Module EquityEdges.
Import Cards Equity.

Local Open Scope string_scope.
Local Open Scope list_scope.

Lemma list_difference_perm (l k : list card) :
  NoDup l -> NoDup k -> (forall c, c ∈ k -> c ∈ l) ->
  list_difference l k ++ k ≡ₚ l.
Proof.
  intros Hl Hk Hsub. apply NoDup_Permutation; [|done|].
  - apply NoDup_app. split; [by apply NoDup_list_difference|]. split; [|done].
    intros c [_ Hc]%list_elem_of_difference. done.
  - intros c. rewrite elem_of_app, list_elem_of_difference. split.
    + intros [[? _]|?]; auto.
    + intros Hc. destruct (decide (c ∈ k)); auto.
Qed.

Lemma total_score_const {evaluate : list card -> Z} private public ds c :
  Forall (fun d => outcome evaluate private public d = c) ds ->
  total_score evaluate private public ds = c * Z.of_nat (length ds).
Proof.
  induction 1 as [|d ds Hd _ IH]; simpl; [lia|].
  rewrite Hd, IH. lia.
Qed.

(** X12.  The population the estimator samples from has no repetition and
    is exactly the deck without the cards the player sees; when those are
    different cards of the deck it has 52 minus their number of cards. *)
Theorem remaining_cards_exact private public :
  NoDup (remaining_cards private public) /\
  (forall c, c ∈ remaining_cards private public <->
             c ∈ FULL_DECK /\ (c ∉ private) /\ (c ∉ public)) /\
  (NoDup (private ++ public) ->
   (forall c, c ∈ private ++ public -> c ∈ FULL_DECK) ->
   (length (remaining_cards private public) + length private + length public
    = 52)%nat).
Proof.
  split; [apply remaining_cards_NoDup|]. split.
  - intros c. unfold remaining_cards. rewrite !list_elem_of_difference. tauto.
  - intros Hnd Hdeck. apply NoDup_app in Hnd as (Hpriv & Hdisj & Hpub).
    unfold remaining_cards.
    assert (list_difference (list_difference FULL_DECK private) public ++ public
            ≡ₚ list_difference FULL_DECK private) as E1.
    { apply list_difference_perm; [|done|].
      - apply NoDup_list_difference, FULL_DECK_NoDup.
      - intros c Hc. apply list_elem_of_difference. split.
        + apply Hdeck, elem_of_app. by right.
        + intros Hc'. by apply (Hdisj c). }
    assert (list_difference FULL_DECK private ++ private ≡ₚ FULL_DECK) as E2.
    { apply list_difference_perm; [apply FULL_DECK_NoDup|done|].
      intros c Hc. apply Hdeck, elem_of_app. by left. }
    apply Permutation_length in E1, E2. rewrite length_app in E1, E2.
    change (length FULL_DECK) with 52%nat in E2. lia.
Qed.

(** X13.  [public_eval] raises [ZeroDivisionError] when asked for zero
    iterations, whatever the cards and the street; and with a positive
    iteration count it raises on any street above 7, where the sample size
    [2 + (5 - street)] is negative. *)
Theorem public_eval_raises {rng}
    (random_sample : rng -> list card -> nat -> option (list card * rng))
    (evaluate : list card -> Z) private public g :
  (forall street,
     public_eval random_sample evaluate private public street 0 g = None) /\
  (forall street iters, 7 < street -> 0 < iters ->
     public_eval random_sample evaluate private public street iters g = None).
Proof.
  split.
  - intros street. reflexivity.
  - intros street iters Hs Hi. unfold public_eval.
    destruct (Z.to_nat iters) as [|n] eqn:En; [lia|]. simpl.
    destruct (Z.ltb_spec (2 + (5 - street)) 0); [reflexivity|lia].
Qed.

(** X14.  With a sampler that draws without replacement, the estimate is
    exactly 1.0 when every sampled run-out is a win, exactly 0.5 when every
    one is a tie and exactly 0.0 when every one is a loss. *)
Theorem public_eval_extremes {rng}
    (random_sample : rng -> list card -> nat -> option (list card * rng))
    (evaluate : list card -> Z) private public street iters g :
  sampler_ok random_sample ->
  length private = 2%nat ->
  0 <= street <= 5 -> Z.of_nat (length public) = street ->
  0 < iters -> 2 * iters < 2 ^ 53 ->
  exists ds g' r,
    draws random_sample (remaining_cards private public)
      (Z.to_nat (2 + (5 - street))) (Z.to_nat iters) g = Some (ds, g') /\
    public_eval random_sample evaluate private public street iters g
      = Some (r, g') /\
    (Forall (fun d => outcome evaluate private public d = 2) ds -> r = 1%float) /\
    (Forall (fun d => outcome evaluate private public d = 1) ds -> r = 0.5%float) /\
    (Forall (fun d => outcome evaluate private public d = 0) ds -> r = 0%float).
Proof.
  intros Hs Hpriv Hstreet Hpub Hiters Hsmall.
  pose proof (remaining_cards_length private public) as Hlen.
  destruct (draws_spec random_sample (remaining_cards private public)
              (Z.to_nat (2 + (5 - street))) (Z.to_nat iters) g Hs)
    as (ds & g' & Hdraws & Hn & _); [lia|].
  exists ds, g'. eexists. split; [done|]. split.
  { unfold public_eval. rewrite iterations_draws by lia.
    rewrite Hdraws. simpl. unfold PyFloat.int_div.
    destruct (Z.eqb_spec (2 * iters) 0); [lia|]. reflexivity. }
  destruct iters as [|p|p]; try lia.
  change (2 * Z.pos p) with (Z.pos p~0) in *.
  split; [|split]; intros Hall;
    rewrite (total_score_const _ _ _ _ Hall), Hn, Z2Nat.id by lia.
  - change (2 * Z.pos p) with (Z.pos p~0). by apply FloatFacts.div_same.
  - rewrite Z.mul_1_l. by apply FloatFacts.div_double.
  - rewrite Z.mul_0_l. by apply FloatFacts.div_zero.
Qed.

Lemma public_eval_extremes_witness :
  exists ds g' r,
    draws sample_prefix (remaining_cards ["As"; "Ah"] ["Kd"; "7c"; "2s"])
      (Z.to_nat (2 + (5 - 3))) (Z.to_nat _MONTE_CARLO_ITERS) tt = Some (ds, g') /\
    public_eval sample_prefix rank_sum ["As"; "Ah"] ["Kd"; "7c"; "2s"] 3
      _MONTE_CARLO_ITERS tt = Some (r, g') /\
    (Forall (fun d => outcome rank_sum ["As"; "Ah"] ["Kd"; "7c"; "2s"] d = 2) ds ->
     r = 1%float) /\
    (Forall (fun d => outcome rank_sum ["As"; "Ah"] ["Kd"; "7c"; "2s"] d = 1) ds ->
     r = 0.5%float) /\
    (Forall (fun d => outcome rank_sum ["As"; "Ah"] ["Kd"; "7c"; "2s"] d = 0) ds ->
     r = 0%float).
Proof.
  apply (public_eval_extremes sample_prefix rank_sum
           ["As"; "Ah"] ["Kd"; "7c"; "2s"] 3 _MONTE_CARLO_ITERS tt).
  - exact sample_prefix_ok.
  - reflexivity.
  - lia.
  - reflexivity.
  - reflexivity.
  - reflexivity.
Defined.

End EquityEdges.
(** ** More on the tuner: the flag, what a call leaves alone, and when it
    raises *)

Module TunerEdges.
Import Cards Tuner.

(** The six deltas stored in the player. *)
Definition stored_deltas (self : Player) : float * float * float * float * float * float :=
  (draise_pre self, draise_post self, dcall_pre self, dcall_post self,
   draise_exp self, draise_const self).

Section MutationEdges.

Context {rng : Type}.
Variable random_random : rng -> float * rng.

(** The generator after [n] calls of [random.random]. *)
Definition advance (n : nat) (g : rng) : rng :=
  Nat.iter n (fun g => (random_random g).2) g.

Lemma perturbation_advance scale offset round_num g d g' :
  perturbation random_random scale offset round_num g = Some (d, g') ->
  g' = (random_random g).2.
Proof.
  unfold perturbation. destruct (random_random g) as [u g1]. intros H.
  destruct (PyFloat.int_div _ _) as [ratio|]; simpl in H; [|discriminate].
  destruct (PyFloat.math_sqrt ratio) as [root|]; simpl in H; [|discriminate].
  destruct (PyFloat.float_div _ root); simpl in H; [|discriminate].
  by injection H as _ <-.
Qed.

(** A perturbation is computed at every positive round number. *)
Lemma perturbation_total scale offset round_num g :
  0 < round_num < 2 ^ 53 ->
  is_Some (perturbation random_random scale offset round_num g).
Proof.
  intros Hr. unfold perturbation. destruct (random_random g) as [u g1].
  unfold PyFloat.int_div, mutate_iters. simpl (5 =? 0).
  cbn [mbind option_bind].
  destruct (FloatFacts.sqrt_int_div round_num 5 Hr) as [Hneg Hzero]; [lia|].
  unfold PyFloat.math_sqrt. rewrite Hneg. cbn [mbind option_bind].
  unfold PyFloat.float_div. rewrite Hzero. cbn [mbind option_bind]. eauto.
Qed.

(** At round zero the square root is zero and the division raises. *)
Lemma perturbation_round_zero scale offset g :
  perturbation random_random scale offset 0 g = None.
Proof.
  unfold perturbation. destruct (random_random g) as [u g1]. reflexivity.
Qed.

Lemma new_mutation_total self th round_num g :
  0 < round_num < 2 ^ 53 ->
  is_Some (new_mutation random_random self th round_num g).
Proof.
  intros Hr. unfold new_mutation.
  repeat (match goal with
          | |- context [perturbation random_random ?s ?o round_num ?g0] =>
              destruct (perturbation_total s o round_num g0 Hr) as [[? ?] ->];
              cbn [mbind option_bind]
          end).
  eauto.
Qed.

(** A new mutation that returns has drawn six times, raised the flag and
    added the deltas it stored; it leaves the rest of the player alone. *)
Lemma new_mutation_spec self th round_num g self1 th1 g1 :
  new_mutation random_random self th round_num g = Some (self1, th1, g1) ->
  g1 = advance 6 g /\ mutated self1 = true /\ th1 = add_deltas self1 th /\
  total_payoffs self1 = total_payoffs self /\
  board_allocations self1 = board_allocations self /\
  hole_strengths self1 = hole_strengths self /\
  starting_strengths self1 = starting_strengths self.
Proof.
  unfold new_mutation. intros H.
  destruct (perturbation _ _ _ _ g) as [[d1 g01]|] eqn:E1;
    cbn [mbind option_bind] in H; [|discriminate].
  destruct (perturbation _ _ _ _ g01) as [[d2 g02]|] eqn:E2;
    cbn [mbind option_bind] in H; [|discriminate].
  destruct (perturbation _ _ _ _ g02) as [[d3 g03]|] eqn:E3;
    cbn [mbind option_bind] in H; [|discriminate].
  destruct (perturbation _ _ _ _ g03) as [[d4 g04]|] eqn:E4;
    cbn [mbind option_bind] in H; [|discriminate].
  destruct (perturbation _ _ _ _ g04) as [[d5 g05]|] eqn:E5;
    cbn [mbind option_bind] in H; [|discriminate].
  destruct (perturbation _ _ _ _ g05) as [[d6 g06]|] eqn:E6;
    cbn [mbind option_bind] in H; [|discriminate].
  injection H as <- <- <-.
  apply perturbation_advance in E1, E2, E3, E4, E5, E6. subst.
  repeat split.
Qed.

(** The five ways a call of [mutate] returns. *)
Lemma mutate_inv self th my_delta round_num g self' th' g' :
  mutate random_random (self, th) my_delta round_num g = Some (self', th', g') ->
  let total := total_payoffs self + my_delta in
  (round_num `mod` mutate_iters <> 0 /\
   self' = set_total_payoffs total self /\ th' = th /\ g' = g) \/
  (round_num `mod` mutate_iters = 0 /\ total < 6 * mutate_iters /\
   mutated self = false /\
   exists self1,
     new_mutation random_random (set_total_payoffs total self) th round_num g
       = Some (self1, th', g') /\
     self' = set_total_payoffs 0 self1) \/
  (round_num `mod` mutate_iters = 0 /\ total < 6 * mutate_iters /\
   mutated self = true /\
   self' = set_total_payoffs 0 (set_mutated false self) /\
   th' = sub_deltas self th /\ g' = g) \/
  (round_num `mod` mutate_iters = 0 /\ total = 6 * mutate_iters /\
   self' = set_total_payoffs 0 self /\ th' = th /\ g' = g) \/
  (round_num `mod` mutate_iters = 0 /\ 6 * mutate_iters < total /\
   self' = set_total_payoffs 0 (set_mutated false self) /\ th' = th /\ g' = g).
Proof.
  intros H total. unfold mutate in H.
  destruct (Z.eqb_spec (round_num `mod` mutate_iters) 0) as [Hr|Hr].
  2:{ left. injection H as <- <- <-. auto. }
  right. cbn [total_payoffs set_total_payoffs mutated] in H. fold total in H.
  destruct (Z.ltb_spec total (6 * mutate_iters)) as [Hlt|Hge].
  - destruct (mutated self) eqn:Hm; cbn [negb] in H.
    + right. left. cbn [mbind option_bind flip_mutation] in H.
      injection H as <- <- <-. repeat split; trivial.
    + left. destruct (new_mutation _ _ _ _ _) as [[[self1 th1] g1]|] eqn:Hnew;
        cbn [mbind option_bind] in H; [|discriminate].
      injection H as <- <- <-. repeat split; trivial. by exists self1.
  - destruct (Z.eqb_spec total (6 * mutate_iters)) as [He|Hne];
      cbn [mbind option_bind] in H; injection H as <- <- <-.
    + right. right. left. repeat split; trivial.
    + right. right. right. repeat split; trivial. lia.
Qed.

(** [mutate] returns at every positive round number. *)
Lemma mutate_returns self th my_delta round_num g :
  0 < round_num < 2 ^ 53 ->
  is_Some (mutate random_random (self, th) my_delta round_num g).
Proof.
  intros Hr. unfold mutate.
  destruct (_ =? 0); [|eauto].
  cbn [total_payoffs set_total_payoffs mutated].
  destruct (_ <? _).
  - destruct (mutated self); cbn [negb mbind option_bind]; [eauto|].
    destruct (new_mutation_total
                (set_total_payoffs (total_payoffs self + my_delta) self)
                th round_num g Hr) as [[[s t] g0] ->].
    cbn [mbind option_bind]. eauto.
  - destruct (_ =? _); cbn [mbind option_bind]; eauto.
Qed.

End MutationEdges.

(** X15.  The flag [mutated] and the payoff accumulator after a call of
    [mutate] that returns.  Off a window boundary the flag is kept and the
    round's payoff is added.  At a boundary the accumulator is reset; the
    flag is toggled when the window's total is below the target, kept when
    the total equals the target, and cleared when the total is above it. *)
Theorem mutate_flag_law {rng} (random_random : rng -> float * rng)
    self th my_delta round_num g self' th' g' :
  mutate random_random (self, th) my_delta round_num g = Some (self', th', g') ->
  let total := total_payoffs self + my_delta in
  mutated self' =
    (if round_num `mod` mutate_iters =? 0 then
       if total <? 6 * mutate_iters then negb (mutated self)
       else if total =? 6 * mutate_iters then mutated self
       else false
     else mutated self) /\
  total_payoffs self' =
    (if round_num `mod` mutate_iters =? 0 then 0 else total).
Proof.
  intros H total. subst total.
  apply mutate_inv in H. cbv zeta in H.
  destruct H as
    [(Hr & -> & _)|[(Hr & Hlt & Hm & self1 & Hnew & ->)|[(Hr & Hlt & Hm & -> & _)
     |[(Hr & He & -> & _)|(Hr & Hgt & -> & _)]]]].
  - destruct (Z.eqb_spec (round_num `mod` mutate_iters) 0); [done|]. done.
  - rewrite Hr. apply new_mutation_spec in Hnew as (_ & Hflag & _).
    destruct (Z.ltb_spec (total_payoffs self + my_delta) (6 * mutate_iters)); [|lia].
    rewrite Hm. simpl. auto.
  - rewrite Hr.
    destruct (Z.ltb_spec (total_payoffs self + my_delta) (6 * mutate_iters)); [|lia].
    rewrite Hm. simpl. auto.
  - rewrite Hr.
    destruct (Z.ltb_spec (total_payoffs self + my_delta) (6 * mutate_iters)); [lia|].
    destruct (Z.eqb_spec (total_payoffs self + my_delta) (6 * mutate_iters)); [|lia].
    simpl. auto.
  - rewrite Hr.
    destruct (Z.ltb_spec (total_payoffs self + my_delta) (6 * mutate_iters)); [lia|].
    destruct (Z.eqb_spec (total_payoffs self + my_delta) (6 * mutate_iters)); [lia|].
    simpl. auto.
Qed.

Lemma mutate_flag_law_witness :
  exists self' th' g',
    mutate tape_random (init_player ∅, shipped_thresholds) 3 5
      [0.75; 0.25; 0.875; 0.125; 0.3; 0.75]%float = Some (self', th', g') /\
    mutated self' = true /\ total_payoffs self' = 0.
Proof.
  destruct (mutate tape_random (init_player ∅, shipped_thresholds) 3 5
              [0.75; 0.25; 0.875; 0.125; 0.3; 0.75]%float)
    as [[[self' th'] g']|] eqn:E; [|vm_compute in E; discriminate].
  exists self', th', g'. split; [reflexivity|].
  exact (mutate_flag_law tape_random (init_player ∅) shipped_thresholds 3 5
           [0.75; 0.25; 0.875; 0.125; 0.3; 0.75]%float self' th' g' E).
Defined.

(** X16.  What a call of [mutate] leaves alone.  It never touches the
    allocations, the recorded strengths or the strength table.  The
    thresholds change only at a boundary whose total is below the target;
    the stored deltas and the generator change only when, there, the flag
    is down and a new mutation is drawn, which takes exactly six draws and
    adds the deltas it stores. *)
Theorem mutate_frame {rng} (random_random : rng -> float * rng)
    self th my_delta round_num g self' th' g' :
  mutate random_random (self, th) my_delta round_num g = Some (self', th', g') ->
  let total := total_payoffs self + my_delta in
  let draws_mutation :=
    round_num `mod` mutate_iters = 0 /\ total < 6 * mutate_iters /\
    mutated self = false in
  (board_allocations self' = board_allocations self /\
   hole_strengths self' = hole_strengths self /\
   starting_strengths self' = starting_strengths self) /\
  (round_num `mod` mutate_iters <> 0 \/ 6 * mutate_iters <= total -> th' = th) /\
  (~ draws_mutation -> stored_deltas self' = stored_deltas self /\ g' = g) /\
  (draws_mutation ->
   g' = advance random_random 6 g /\ th' = add_deltas self' th).
Proof.
  intros H total draws_mutation. subst draws_mutation total.
  apply mutate_inv in H. cbv zeta in H.
  destruct H as
    [(Hr & -> & -> & ->)|[(Hr & Hlt & Hm & self1 & Hnew & ->)
     |[(Hr & Hlt & Hm & -> & -> & ->)
     |[(Hr & He & -> & -> & ->)|(Hr & Hgt & -> & -> & ->)]]]].
  - split; [by repeat split|]. split; [done|].
    split; [done|]. intros (? & _). contradiction.
  - apply new_mutation_spec in Hnew as (-> & _ & -> & _ & E1 & E2 & E3).
    split; [by repeat split|]. split; [intros [?|?]; [contradiction|lia]|].
    split; [intros Hn; by destruct Hn|]. intros _. by split.
  - split; [by repeat split|]. split; [intros [?|?]; [contradiction|lia]|].
    split; [done|]. intros (_ & _ & ?). congruence.
  - split; [by repeat split|]. split; [done|].
    split; [done|]. intros (_ & ? & _). lia.
  - split; [by repeat split|]. split; [done|].
    split; [done|]. intros (_ & ? & _). lia.
Qed.

Lemma mutate_frame_witness :
  exists self' th' g',
    mutate tape_random (init_player ∅, shipped_thresholds) 3 5
      [0.75; 0.25; 0.875; 0.125; 0.3; 0.75]%float = Some (self', th', g') /\
    g' = advance tape_random 6 [0.75; 0.25; 0.875; 0.125; 0.3; 0.75]%float /\
    th' = add_deltas self' shipped_thresholds.
Proof.
  destruct (mutate tape_random (init_player ∅, shipped_thresholds) 3 5
              [0.75; 0.25; 0.875; 0.125; 0.3; 0.75]%float)
    as [[[self' th'] g']|] eqn:E; [|vm_compute in E; discriminate].
  exists self', th', g'. split; [reflexivity|].
  apply (mutate_frame tape_random (init_player ∅) shipped_thresholds 3 5
           [0.75; 0.25; 0.875; 0.125; 0.3; 0.75]%float self' th' g' E).
  repeat split; reflexivity || (vm_compute; lia).
Defined.

(** X17.  [mutate] returns at every positive round number (below [2^53]),
    whatever the state, the payoff and the draws: the square root it
    divides by is never zero there.  At round number zero, a call that
    starts a new mutation raises [ZeroDivisionError]. *)
Theorem mutate_total {rng} (random_random : rng -> float * rng)
    self th my_delta g :
  (forall round_num, 0 < round_num < 2 ^ 53 ->
     is_Some (mutate random_random (self, th) my_delta round_num g)) /\
  (mutated self = false -> total_payoffs self + my_delta < 6 * mutate_iters ->
   mutate random_random (self, th) my_delta 0 g = None).
Proof.
  split.
  - intros round_num Hr. by apply mutate_returns.
  - intros Hm Hlt. unfold mutate. simpl (0 `mod` mutate_iters =? 0).
    cbn [total_payoffs set_total_payoffs mutated].
    destruct (Z.ltb_spec (total_payoffs self + my_delta) (6 * mutate_iters)); [|lia].
    rewrite Hm. cbn [negb]. unfold new_mutation.
    by rewrite perturbation_round_zero.
Qed.

(** X18.  A mutation that survives a window above the target is kept for
    good.  With the flag up, a boundary whose total is above the target
    clears the flag and leaves thresholds, deltas and generator as they
    are; if the next five payoffs then sum below the target, the fifth of
    them draws a new mutation on top of the kept thresholds: the earlier
    deltas are never subtracted. *)
Theorem kept_mutation_compounds {rng} (random_random : rng -> float * rng)
    self th my_delta round_num g a b c d e self2 th2 g2 :
  mutated self = true ->
  round_num `mod` mutate_iters = 0 ->
  6 * mutate_iters < total_payoffs self + my_delta ->
  a + b + c + d + e < 6 * mutate_iters ->
  mutate_rounds random_random round_num [my_delta; a; b; c; d; e] (self, th) g
    = Some (self2, th2, g2) ->
  mutate random_random (self, th) my_delta round_num g
    = Some (set_total_payoffs 0 (set_mutated false self), th, g) /\
  mutated self2 = true /\
  th2 = add_deltas self2 th /\
  g2 = advance random_random 6 g.
Proof.
  intros Hm Hr Hgt Hsum Hrun.
  assert (mutate random_random (self, th) my_delta round_num g
          = Some (set_total_payoffs 0 (set_mutated false self), th, g)) as H0.
  { unfold mutate. rewrite Hr. simpl (0 =? 0).
    cbn [total_payoffs set_total_payoffs mutated].
    destruct (Z.ltb_spec (total_payoffs self + my_delta) (6 * mutate_iters)); [lia|].
    destruct (Z.eqb_spec (total_payoffs self + my_delta) (6 * mutate_iters)); [lia|].
    reflexivity. }
  split; [exact H0|].
  assert (forall k, 0 < k < 5 -> (round_num + k) `mod` mutate_iters <> 0) as Hoff.
  { intros k Hk. unfold mutate_iters in *.
    apply Z.mod_divide in Hr as [q ->]; [|lia].
    rewrite Z.add_comm, Z_mod_plus_full, Z.mod_small; lia. }
  assert ((round_num + 5) `mod` mutate_iters = 0) as Hon.
  { unfold mutate_iters in *.
    apply Z.mod_divide in Hr as [q ->]; [|lia].
    replace (q * 5 + 5) with (0 + (q + 1) * 5) by lia.
    by rewrite Z_mod_plus_full. }
  cbn [mutate_rounds] in Hrun. rewrite H0 in Hrun. cbn [mbind option_bind] in Hrun.
  rewrite mutate_off_boundary in Hrun by (apply Hoff; lia).
  cbn [mbind option_bind] in Hrun.
  replace (round_num + 1 + 1) with (round_num + 2) in Hrun by lia.
  rewrite mutate_off_boundary in Hrun by (apply Hoff; lia).
  cbn [mbind option_bind] in Hrun.
  replace (round_num + 2 + 1) with (round_num + 3) in Hrun by lia.
  rewrite mutate_off_boundary in Hrun by (apply Hoff; lia).
  cbn [mbind option_bind] in Hrun.
  replace (round_num + 3 + 1) with (round_num + 4) in Hrun by lia.
  rewrite mutate_off_boundary in Hrun by (apply Hoff; lia).
  cbn [mbind option_bind] in Hrun.
  replace (round_num + 4 + 1) with (round_num + 5) in Hrun by lia.
  destruct (mutate _ _ e _ _) as [[[s t] g0]|] eqn:Hlast;
    cbn [mbind option_bind] in Hrun; [|discriminate].
  injection Hrun as <- <- <-.
  apply mutate_inv in Hlast. cbv zeta in Hlast.
  destruct Hlast as
    [(Hr' & _)|[(_ & _ & _ & self1 & Hnew & ->)|[(_ & _ & Hm' & _)
     |[(_ & He & _)|(_ & Hgt' & _)]]]];
    cbn [total_payoffs set_total_payoffs mutated set_mutated] in *;
    try contradiction; try discriminate; try lia.
  apply new_mutation_spec in Hnew as (-> & Hflag & -> & _).
  by repeat split.
Qed.

Lemma kept_mutation_compounds_witness :
  exists self2 th2 g2,
    mutate_rounds tape_random 5 [31; 1; 2; 3; 4; 5]
      (set_mutated true (init_player ∅), shipped_thresholds)
      [0.75; 0.25; 0.875; 0.125; 0.3; 0.75]%float = Some (self2, th2, g2) /\
    mutate tape_random (set_mutated true (init_player ∅), shipped_thresholds) 31 5
      [0.75; 0.25; 0.875; 0.125; 0.3; 0.75]%float
    = Some (set_total_payoffs 0 (set_mutated false (set_mutated true (init_player ∅))),
            shipped_thresholds, [0.75; 0.25; 0.875; 0.125; 0.3; 0.75]%float) /\
    mutated self2 = true /\
    th2 = add_deltas self2 shipped_thresholds /\
    g2 = advance tape_random 6 [0.75; 0.25; 0.875; 0.125; 0.3; 0.75]%float.
Proof.
  destruct (mutate_rounds tape_random 5 [31; 1; 2; 3; 4; 5]
              (set_mutated true (init_player ∅), shipped_thresholds)
              [0.75; 0.25; 0.875; 0.125; 0.3; 0.75]%float)
    as [[[self2 th2] g2]|] eqn:E; [|vm_compute in E; discriminate].
  exists self2, th2, g2. split; [reflexivity|].
  apply (kept_mutation_compounds tape_random (set_mutated true (init_player ∅))
           shipped_thresholds 31 5 [0.75; 0.25; 0.875; 0.125; 0.3; 0.75]%float
           1 2 3 4 5 self2 th2 g2);
    [reflexivity|reflexivity|reflexivity|reflexivity|exact E].
Defined.

End TunerEdges.
(** ** More on the betting policy: the shape and legality of what it
    returns, and when it puts chips in *)

Module BettingEdges.
Import Cards Tuner Equity Betting.

(** The class of an action object. *)
Definition action_class (a : Action) : ActionClass :=
  match a with
  | FoldAction => FoldClass
  | CallAction => CallClass
  | CheckAction => CheckClass
  | RaiseAction _ => RaiseClass
  | AssignAction _ => AssignClass
  end.

(** The action commits chips. *)
Definition puts_chips_in (a : Action) : Prop :=
  match a with
  | RaiseAction _ | CallAction => True
  | _ => False
  end.

(** What the engine's legal sets look like on the boards that need no
    assignment: a finished board allows a check; a live board allows a
    fold and a call when there is something to call, and a check when
    there is not. *)
Definition engine_legal_sets (rs : RoundState) (active : bool) : Prop :=
  forall i legal, legal_actions rs !! i = Some legal -> AssignClass ∉ legal ->
    match board_states rs !! i with
    | Some (Terminal _) => CheckClass ∈ legal
    | Some (Live b) =>
        forall p o, pips b !! index active = Some p ->
                    pips b !! index (negb active) = Some o ->
          if 0 <? o - p then FoldClass ∈ legal /\ CallClass ∈ legal
          else CheckClass ∈ legal
    | None => True
    end.

(** A decision point before the flop where the opponent's raise to 3 has
    settled the third board. *)
Definition mixed_round : RoundState :=
  mkRoundState 0 [194; 197]
    [Live (mkBoardState 0 [1; 2] [] (4, 195));
     Live (mkBoardState 0 [2; 2] [] (4, 195));
     Terminal (mkBoardState 4 [0; 0] [] (0, 0))]
    [[FoldClass; CallClass; RaiseClass];
     [CheckClass; RaiseClass];
     [CheckClass]].

(** The start of a round: every board waits for its two cards. *)
Definition assign_round : RoundState :=
  mkRoundState 0 [200; 200]
    [Live (mkBoardState 0 [0; 0] [] (0, 0));
     Live (mkBoardState 0 [0; 0] [] (0, 0));
     Live (mkBoardState 0 [0; 0] [] (0, 0))]
    [[AssignClass]; [AssignClass]; [AssignClass]].

(** A round state on which [get_actions] can read its pips and stacks,
    and whose first three boards all allow an assignment. *)
Definition assign_ready (rs : RoundState) : Prop :=
  (3 <= length (board_states rs))%nat /\
  Forall (fun bd => match bd with
                    | Live b => (2 <= length (pips b))%nat
                    | Terminal _ => True
                    end) (board_states rs) /\
  (2 <= length (stacks rs))%nat /\
  exists l0 l1 l2 rest,
    legal_actions rs = l0 :: l1 :: l2 :: rest /\
    AssignClass ∈ l0 /\ AssignClass ∈ l1 /\ AssignClass ∈ l2.

Lemma commit_class legal raise_amount my_pip board_cont_cost my_stack net_cost :
  let a := (commit legal raise_amount my_pip board_cont_cost my_stack net_cost).1 in
  (a = RaiseAction raise_amount /\ RaiseClass ∈ legal /\
   raise_amount - my_pip <> 0 /\ raise_amount - my_pip <= my_stack - net_cost) \/
  (a = CallAction /\ CallClass ∈ legal /\ board_cont_cost <= my_stack - net_cost) \/
  (a = CheckAction /\ CheckClass ∈ legal) \/
  (a = FoldAction /\ CheckClass ∉ legal).
Proof.
  unfold commit.
  destruct (bool_decide (RaiseClass ∈ legal)) eqn:Hr; simpl.
  - destruct (Z.leb_spec (raise_amount - my_pip) (my_stack - net_cost)); simpl.
    + destruct (Z.eqb_spec (raise_amount - my_pip) 0); simpl.
      * destruct (bool_decide (CallClass ∈ legal)) eqn:Hc; simpl.
        -- destruct (Z.leb_spec board_cont_cost (my_stack - net_cost)); simpl.
           ++ right. left. apply bool_decide_eq_true in Hc. auto.
           ++ destruct (bool_decide (CheckClass ∈ legal)) eqn:Hk; simpl.
              ** right. right. left. apply bool_decide_eq_true in Hk. auto.
              ** right. right. right. apply bool_decide_eq_false in Hk. auto.
        -- destruct (bool_decide (CheckClass ∈ legal)) eqn:Hk; simpl.
           ++ right. right. left. apply bool_decide_eq_true in Hk. auto.
           ++ right. right. right. apply bool_decide_eq_false in Hk. auto.
      * left. apply bool_decide_eq_true in Hr. auto.
    + destruct (bool_decide (CallClass ∈ legal)) eqn:Hc; simpl.
      * destruct (Z.leb_spec board_cont_cost (my_stack - net_cost)); simpl.
        -- right. left. apply bool_decide_eq_true in Hc. auto.
        -- destruct (bool_decide (CheckClass ∈ legal)) eqn:Hk; simpl.
           ++ right. right. left. apply bool_decide_eq_true in Hk. auto.
           ++ right. right. right. apply bool_decide_eq_false in Hk. auto.
      * destruct (bool_decide (CheckClass ∈ legal)) eqn:Hk; simpl.
        -- right. right. left. apply bool_decide_eq_true in Hk. auto.
        -- right. right. right. apply bool_decide_eq_false in Hk. auto.
  - destruct (bool_decide (CallClass ∈ legal)) eqn:Hc; simpl.
    + destruct (Z.leb_spec board_cont_cost (my_stack - net_cost)); simpl.
      * right. left. apply bool_decide_eq_true in Hc. auto.
      * destruct (bool_decide (CheckClass ∈ legal)) eqn:Hk; simpl.
        -- right. right. left. apply bool_decide_eq_true in Hk. auto.
        -- right. right. right. apply bool_decide_eq_false in Hk. auto.
    + destruct (bool_decide (CheckClass ∈ legal)) eqn:Hk; simpl.
      * right. right. left. apply bool_decide_eq_true in Hk. auto.
      * right. right. right. apply bool_decide_eq_false in Hk. auto.
Qed.

Section PolicyEdges.

Context {rng : Type}.
Variable random_random : rng -> float * rng.
Variable random_sample : rng -> list card -> nat -> option (list card * rng).
Variable evaluate : list card -> Z.
Variable math_exp : float -> option float.

(** The four ways [respond] settles a board. *)
Lemma respond_cases th legal street my_pip board_cont_cost pot_total my_stack
    net_cost stage strength raise_amount g a st' :
  respond random_random th legal street my_pip board_cont_cost pot_total
    my_stack net_cost stage strength raise_amount g = Some (a, st') ->
  (a = (commit legal raise_amount my_pip board_cont_cost my_stack net_cost).1 /\
   (at_stage (_RAISE_MIN_STR th) stage <? strength)%float = true) \/
  (0 < board_cont_cost /\ a = CallAction /\
   board_cont_cost <= my_stack - net_cost /\
   ((at_stage (_CALL_MIN_STR th) stage <? strength)%float = true \/
    (at_stage (_RAISE_MIN_STR th) stage <? strength)%float = true)) \/
  (0 < board_cont_cost /\ a = FoldAction) \/
  (board_cont_cost <= 0 /\ a = CheckAction).
Proof.
  unfold respond. intros H.
  destruct (commit _ _ _ _ _ _) as [ca cc]. cbn [fst].
  destruct (Z.ltb_spec 0 board_cont_cost) as [Hc|Hc].
  - destruct (intimidated _ _ _) as [adj|]; cbn [mbind option_bind] in H;
      [|discriminate].
    destruct (pot_odds _ _) as [odds|]; cbn [mbind option_bind] in H;
      [|discriminate].
    destruct (odds <=? adj)%float.
    2:{ injection H as <- <-. auto. }
    destruct (random_random g) as [u g'].
    destruct (u <? 1.4 * adj)%float; cbn [andb] in H.
    + destruct (at_stage (_RAISE_MIN_STR th) stage <? strength)%float eqn:Hr.
      { injection H as <- <-. auto. }
      destruct (PyFloat.math_sqrt _) as [root|]; cbn [mbind option_bind] in H;
        [|discriminate].
      rewrite orb_false_r in H.
      destruct (root <? 6)%float; cbn [andb] in H.
      * destruct (at_stage (_CALL_MIN_STR th) stage <? strength)%float eqn:Hk.
        -- destruct (Z.leb_spec board_cont_cost (my_stack - net_cost));
             injection H as <- <-; auto 10.
        -- injection H as <- <-. auto.
      * injection H as <- <-. auto.
    + destruct (PyFloat.math_sqrt _) as [root|]; cbn [mbind option_bind] in H;
        [|discriminate].
      destruct ((root <? 6)%float
                && (at_stage (_CALL_MIN_STR th) stage <? strength)%float
                || (at_stage (_RAISE_MIN_STR th) stage <? strength)%float) eqn:Hor.
      * destruct (Z.leb_spec board_cont_cost (my_stack - net_cost));
          injection H as <- <-; [|auto].
        right. left. repeat split; trivial.
        apply orb_true_iff in Hor as [[_ ?]%andb_true_iff|?]; auto.
      * injection H as <- <-. auto.
  - destruct (random_random g) as [u g'].
    destruct (u <? 1.4 * strength)%float; cbn [andb] in H.
    + destruct (at_stage (_RAISE_MIN_STR th) stage <? strength)%float eqn:Hr;
        injection H as <- <-; auto.
    + injection H as <- <-. auto.
Qed.

(** The three ways the loop body settles a board. *)
Lemma board_action_inv self th rs my_pips opp_pips continue_cost my_stack i
    net_cost g a st' :
  board_action random_random random_sample evaluate math_exp self th rs
    my_pips opp_pips continue_cost my_stack i (net_cost, g) = Some (a, st') ->
  exists cards legal,
    board_allocations self !! i = Some cards /\
    legal_actions rs !! i = Some legal /\
    ((AssignClass ∈ legal /\ a = AssignAction cards /\ st' = (net_cost, g)) \/
     ((AssignClass ∉ legal) /\ a = CheckAction /\ st' = (net_cost, g) /\
      exists prev, board_states rs !! i = Some (Terminal prev)) \/
     ((AssignClass ∉ legal) /\
      exists b c p o stage strength ra g1,
        board_states rs !! i = Some (Live b) /\
        continue_cost !! i = Some c /\ my_pips !! i = Some p /\
        opp_pips !! i = Some o /\
        strength_and_raise random_sample evaluate math_exp self th (street rs)
          i cards (deck b) p c g = Some (stage, strength, ra, g1) /\
        respond random_random th legal (street rs) p c (p + o + pot b) my_stack
          net_cost stage strength
          (Z.min (raise_bounds b).2 (Z.max (raise_bounds b).1 ra)) g1
        = Some (a, st'))).
Proof.
  unfold board_action. intros H.
  destruct (board_allocations self !! i) as [cards|];
    cbn [mbind option_bind] in H; [|discriminate].
  destruct (legal_actions rs !! i) as [legal|];
    cbn [mbind option_bind] in H; [|discriminate].
  exists cards, legal. do 2 (split; [done|]).
  destruct (bool_decide (AssignClass ∈ legal)) eqn:Ha.
  { apply bool_decide_eq_true in Ha. injection H as <- <-. auto. }
  apply bool_decide_eq_false in Ha. right.
  destruct (board_states rs !! i) as [[b|prev]|] eqn:Hb;
    cbn [mbind option_bind] in H; [| |discriminate].
  2:{ injection H as <- <-. left. eauto 10. }
  right. split; [done|].
  destruct (continue_cost !! i) as [c|] eqn:Hc; cbn [mbind option_bind] in H;
    [|discriminate].
  destruct (my_pips !! i) as [p|] eqn:Hp; cbn [mbind option_bind] in H;
    [|discriminate].
  destruct (opp_pips !! i) as [o|] eqn:Ho; cbn [mbind option_bind] in H;
    [|discriminate].
  destruct (raise_bounds b) as [min_raise max_raise] eqn:Hrb.
  cbn [board_deck] in H.
  destruct (strength_and_raise _ _ _ _ _ _ _ _ _ _ _ _) as [[[[stage strength] ra] g1]|]
    eqn:Hs; cbn [mbind option_bind] in H; [|discriminate].
  exists b, c, p, o, stage, strength, ra, g1. rewrite Hrb. by repeat split.
Qed.

(** A call of [get_actions] that returns, spelled out. *)
Lemma get_actions_run_inv self th rs active g actions st' :
  get_actions_run random_random random_sample evaluate math_exp self th rs
    active g = Some (actions, st') ->
  exists my_pips opp_pips continue_cost my_stack a0 a1 a2 st1 st2,
    mapM (board_pip (index active)) (board_states rs) = Some my_pips /\
    mapM (board_pip (index (negb active))) (board_states rs) = Some opp_pips /\
    continue_costs my_pips opp_pips = Some continue_cost /\
    stacks rs !! index active = Some my_stack /\
    board_action random_random random_sample evaluate math_exp self th rs
      my_pips opp_pips continue_cost my_stack 0 (0, g) = Some (a0, st1) /\
    board_action random_random random_sample evaluate math_exp self th rs
      my_pips opp_pips continue_cost my_stack 1 st1 = Some (a1, st2) /\
    board_action random_random random_sample evaluate math_exp self th rs
      my_pips opp_pips continue_cost my_stack 2 st2 = Some (a2, st') /\
    actions = [a0; a1; a2].
Proof.
  unfold get_actions_run. intros H.
  destruct (mapM (board_pip (index active)) _) as [my_pips|];
    cbn -[boards_loop continue_costs] in H; [|discriminate].
  destruct (mapM (board_pip (index (negb active))) _) as [opp_pips|];
    cbn -[boards_loop continue_costs] in H; [|discriminate].
  destruct (continue_costs my_pips opp_pips) as [continue_cost|] eqn:Hcc;
    cbn -[boards_loop continue_costs] in H; [|discriminate].
  destruct (stacks rs !! index active) as [my_stack|];
    cbn -[boards_loop continue_costs] in H; [|discriminate].
  destruct (stacks rs !! index (negb active));
    cbn -[boards_loop continue_costs] in H; [|discriminate].
  apply boards_loop_three in H
    as (a0 & a1 & a2 & st1 & st2 & H0 & H1 & H2 & ->).
  by exists my_pips, opp_pips, continue_cost, my_stack, a0, a1, a2, st1, st2.
Qed.

(** The pips and continue costs of a live board. *)
Lemma live_board_pips (rs : RoundState) who i b (pips_list : list Z) p :
  mapM (board_pip who) (board_states rs) = Some pips_list ->
  board_states rs !! i = Some (Live b) -> pips_list !! i = Some p ->
  pips b !! who = Some p.
Proof.
  intros Hm%mapM_Some Hb Hp.
  destruct (Forall2_lookup_l _ _ _ _ _ Hm Hb) as (p' & Hp' & E).
  simpl in E. congruence.
Qed.

Lemma continue_costs_lookup my_pips opp_pips continue_cost i c p o :
  continue_costs my_pips opp_pips = Some continue_cost ->
  continue_cost !! i = Some c -> my_pips !! i = Some p -> opp_pips !! i = Some o ->
  c = o - p.
Proof.
  unfold continue_costs. intros Hm%mapM_Some Hc Hp Ho.
  destruct (Forall2_lookup_r _ _ _ _ _ Hm Hc) as (j & Hj & E).
  apply lookup_seq in Hj as [-> _]. simpl in E.
  rewrite Ho, Hp in E. simpl in E. congruence.
Qed.

(** The step that produced the action of board [i]. *)
Lemma get_actions_step self th rs active g actions st' i a :
  get_actions_run random_random random_sample evaluate math_exp self th rs
    active g = Some (actions, st') ->
  actions !! i = Some a ->
  (i < 3)%nat /\ length actions = 3%nat /\
  exists my_pips opp_pips continue_cost my_stack net_cost g0 st'',
    mapM (board_pip (index active)) (board_states rs) = Some my_pips /\
    mapM (board_pip (index (negb active))) (board_states rs) = Some opp_pips /\
    continue_costs my_pips opp_pips = Some continue_cost /\
    board_action random_random random_sample evaluate math_exp self th rs
      my_pips opp_pips continue_cost my_stack i (net_cost, g0) = Some (a, st'').
Proof.
  intros (my_pips & opp_pips & continue_cost & my_stack & a0 & a1 & a2
          & [n1 g1] & [n2 g2] & Hm & Ho & Hc & _ & H0 & H1 & H2 & ->)%get_actions_run_inv
    Hi.
  destruct i as [|[|[|i]]]; simpl in Hi; try discriminate; injection Hi as ->;
    (split; [lia|]); (split; [reflexivity|]);
    exists my_pips, opp_pips, continue_cost, my_stack; eauto 10.
Qed.

(** X19.  [get_actions] returns one action per board, three in all.  On
    a board where an assignment is legal the action is the assignment of
    the hand the allocator stored for that board; on a finished board that
    needs none it is a check. *)
Theorem get_actions_shape self th rs active g actions :
  get_actions random_random random_sample evaluate math_exp self th rs active g
    = Some actions ->
  length actions = 3%nat /\
  forall i a cards legal,
    actions !! i = Some a ->
    board_allocations self !! i = Some cards ->
    legal_actions rs !! i = Some legal ->
    (AssignClass ∈ legal -> a = AssignAction cards) /\
    (AssignClass ∉ legal ->
     forall prev, board_states rs !! i = Some (Terminal prev) -> a = CheckAction).
Proof.
  unfold get_actions. intros H.
  destruct (get_actions_run _ _ _ _ _ _ _ _ _) as [[actions' st']|] eqn:Hrun;
    [|discriminate].
  injection H as <-. split.
  - by destruct (get_actions_run_inv _ _ _ _ _ _ _ Hrun)
      as (? & ? & ? & ? & ? & ? & ? & ? & ? & _ & _ & _ & _ & _ & _ & _ & ->).
  - intros i a cards legal Hi Hcards Hlegal.
    destruct (get_actions_step _ _ _ _ _ _ _ _ _ Hrun Hi)
      as (_ & _ & my_pips & opp_pips & continue_cost & my_stack & n & g0 & st''
          & _ & _ & _ & Hstep).
    apply board_action_inv in Hstep
      as (cards' & legal' & Hc' & Hl' & Hcase).
    rewrite Hcards in Hc'. injection Hc' as <-.
    rewrite Hlegal in Hl'. injection Hl' as <-.
    destruct Hcase as [(Ha & -> & _)|[(Ha & -> & _)|(Ha & b & c & p & o & stage
      & strength & ra & g1 & Hb & _)]].
    + split; [done|]. intros Hn. contradiction.
    + split; [intros; contradiction|done].
    + split; [intros; contradiction|]. intros _ prev Hp. congruence.
Qed.

(** X20.  Every raise and every assignment that [get_actions] returns is
    in the legal set of its board.  When the legal sets are the engine's (a
    finished board allows a check; a live board allows a fold and a call if
    there is something to call, and a check if not), every action returned
    is legal on its board. *)
Theorem get_actions_legal self th rs active g actions i a legal :
  get_actions random_random random_sample evaluate math_exp self th rs active g
    = Some actions ->
  actions !! i = Some a -> legal_actions rs !! i = Some legal ->
  (match a with
   | RaiseAction _ | AssignAction _ => action_class a ∈ legal
   | _ => True
   end) /\
  (engine_legal_sets rs active -> action_class a ∈ legal).
Proof.
  unfold get_actions. intros H Hi Hlegal.
  destruct (get_actions_run _ _ _ _ _ _ _ _ _) as [[actions' st']|] eqn:Hrun;
    [|discriminate].
  injection H as <-.
  destruct (get_actions_step _ _ _ _ _ _ _ _ _ Hrun Hi)
    as (_ & _ & my_pips & opp_pips & continue_cost & my_stack & n & g0 & st''
        & Hmy & Hopp & Hcc & Hstep).
  apply board_action_inv in Hstep as (cards & legal' & _ & Hl' & Hcase).
  rewrite Hlegal in Hl'. injection Hl' as <-.
  destruct Hcase as [(Ha & -> & _)|[(Ha & -> & _ & prev & Hb)|(Ha & b & c & p & o
    & stage & strength & ra & g1 & Hb & Hc & Hp & Ho & _ & Hres)]].
  - split; [done|]. intros _. done.
  - split; [done|]. intros Heng. specialize (Heng i legal Hlegal Ha).
    by rewrite Hb in Heng.
  - assert (engine_legal_sets rs active ->
            if 0 <? c then FoldClass ∈ legal /\ CallClass ∈ legal
            else CheckClass ∈ legal) as Heng.
    { intros Heng. specialize (Heng i legal Hlegal Ha). rewrite Hb in Heng.
      rewrite (continue_costs_lookup _ _ _ _ _ _ _ Hcc Hc Hp Ho).
      apply Heng; eauto using live_board_pips. }
    apply respond_cases in Hres as [[-> _]|[(Hpos & -> & _)|[(Hpos & ->)|(Hneg & ->)]]].
    + destruct (commit_class legal
                  (Z.min (raise_bounds b).2 (Z.max (raise_bounds b).1 ra))
                  p c my_stack n)
        as [(-> & Hr & _)|[(-> & Hk & _)|[(-> & Hk)|(-> & Hk)]]]; simpl.
      * split; [done|]. done.
      * split; [done|]. done.
      * split; [done|]. done.
      * split; [done|]. intros Heng'%Heng.
        destruct (0 <? c); [by destruct Heng'|contradiction].
    + split; [done|]. intros Heng'%Heng.
      destruct (Z.ltb_spec 0 c); [by destruct Heng'|lia].
    + split; [done|]. intros Heng'%Heng.
      destruct (Z.ltb_spec 0 c); [by destruct Heng'|lia].
    + split; [done|]. intros Heng'%Heng.
      destruct (Z.ltb_spec 0 c); [lia|done].
Qed.

(** The loop up to board [i], and the step that produced its action. *)
Lemma get_actions_prefix self th rs active g actions st' i a :
  get_actions_run random_random random_sample evaluate math_exp self th rs
    active g = Some (actions, st') ->
  actions !! i = Some a ->
  exists my_pips opp_pips continue_cost my_stack net_cost g0 st'',
    mapM (board_pip (index active)) (board_states rs) = Some my_pips /\
    mapM (board_pip (index (negb active))) (board_states rs) = Some opp_pips /\
    continue_costs my_pips opp_pips = Some continue_cost /\
    stacks rs !! index active = Some my_stack /\
    boards_loop
      (board_action random_random random_sample evaluate math_exp self th rs
         my_pips opp_pips continue_cost my_stack)
      (seq 0 i) (0, g) = Some (take i actions, (net_cost, g0)) /\
    board_action random_random random_sample evaluate math_exp self th rs
      my_pips opp_pips continue_cost my_stack i (net_cost, g0) = Some (a, st'').
Proof.
  intros (my_pips & opp_pips & continue_cost & my_stack & a0 & a1 & a2
          & [n1 g1] & [n2 g2] & Hm & Ho & Hc & Hst & H0 & H1 & H2 & ->)%get_actions_run_inv
    Hi.
  exists my_pips, opp_pips, continue_cost, my_stack.
  destruct i as [|[|[|i]]]; simpl in Hi; try discriminate; injection Hi as ->.
  - exists 0, g, (n1, g1). by repeat split.
  - exists n1, g1, (n2, g2). repeat split; trivial.
    cbn [seq boards_loop take]. rewrite H0. reflexivity.
  - exists n2, g2, st'. repeat split; trivial.
    cbn [seq boards_loop take]. rewrite H0. cbn [mbind option_bind].
    rewrite H1. reflexivity.
Qed.

(** X21.  [get_actions] puts chips in (a raise or a call) only on a live
    board whose hand is strong enough.  For the action of board [i]: with
    the pips of that board, its continue cost [opp_pip - my_pip] and the
    generator as the loop has left it after the boards before [i], the
    strength computed for the board is above the raise threshold of the
    stage, or, for a call when that continue cost is positive, above the
    call threshold of the stage. *)
Theorem chips_need_strength self th rs active g actions st' i a :
  get_actions_run random_random random_sample evaluate math_exp self th rs
    active g = Some (actions, st') ->
  actions !! i = Some a -> puts_chips_in a ->
  exists my_pips opp_pips continue_cost my_stack net_cost g0
         cards b my_pip opp_pip stage strength raise_amount g1,
    mapM (board_pip (index active)) (board_states rs) = Some my_pips /\
    mapM (board_pip (index (negb active))) (board_states rs) = Some opp_pips /\
    continue_costs my_pips opp_pips = Some continue_cost /\
    stacks rs !! index active = Some my_stack /\
    boards_loop
      (board_action random_random random_sample evaluate math_exp self th rs
         my_pips opp_pips continue_cost my_stack)
      (seq 0 i) (0, g) = Some (take i actions, (net_cost, g0)) /\
    board_allocations self !! i = Some cards /\
    board_states rs !! i = Some (Live b) /\
    pips b !! index active = Some my_pip /\
    pips b !! index (negb active) = Some opp_pip /\
    strength_and_raise random_sample evaluate math_exp self th (street rs)
      i cards (deck b) my_pip (opp_pip - my_pip) g0
    = Some (stage, strength, raise_amount, g1) /\
    ((at_stage (_RAISE_MIN_STR th) stage <? strength)%float = true \/
     (a = CallAction /\ 0 < opp_pip - my_pip /\
      (at_stage (_CALL_MIN_STR th) stage <? strength)%float = true)).
Proof.
  intros Hrun Hi Hchips.
  destruct (get_actions_prefix _ _ _ _ _ _ _ _ _ Hrun Hi)
    as (my_pips & opp_pips & continue_cost & my_stack & n & g0 & st''
        & Hmy & Hopp & Hcc & Hst & Hpre & Hstep).
  apply board_action_inv in Hstep as (cards & legal & Hcards & _ & Hcase).
  destruct Hcase as [(_ & -> & _)|[(_ & -> & _)|(_ & b & c & p & o
    & stage & strength & ra & g1 & Hb & Hc & Hp & Ho & Hstr & Hres)]];
    [destruct Hchips..|].
  pose proof (continue_costs_lookup _ _ _ _ _ _ _ Hcc Hc Hp Ho) as ->.
  exists my_pips, opp_pips, continue_cost, my_stack, n, g0,
         cards, b, p, o, stage, strength, ra, g1.
  do 7 (split; [done|]).
  split; [by eapply live_board_pips|]. split; [by eapply live_board_pips|].
  split; [done|].
  apply respond_cases in Hres
    as [[_ ?]|[(Hpos & -> & _ & [?|?])|[(_ & ->)|(_ & ->)]]];
    auto; destruct Hchips.
Qed.

Lemma board_pips_defined (rs : RoundState) who :
  Forall (fun bd => match bd with
                    | Live b => (2 <= length (pips b))%nat
                    | Terminal _ => True
                    end) (board_states rs) ->
  (who < 2)%nat ->
  exists pips_list,
    mapM (board_pip who) (board_states rs) = Some pips_list /\
    length pips_list = length (board_states rs).
Proof.
  intros Hall Hwho.
  destruct (mapM (board_pip who) (board_states rs)) as [l|] eqn:E.
  - exists l. split; [done|]. apply mapM_Some in E. symmetry.
    by eapply Forall2_length.
  - apply mapM_None, Exists_exists in E as (bd & Hbd & Hnone).
    rewrite Forall_forall in Hall. specialize (Hall bd Hbd).
    destruct bd as [b|prev]; simpl in Hnone; [|discriminate].
    apply lookup_ge_None in Hnone. lia.
Qed.

Lemma continue_costs_defined my_pips opp_pips :
  (3 <= length my_pips)%nat -> (3 <= length opp_pips)%nat ->
  is_Some (continue_costs my_pips opp_pips).
Proof.
  intros Hm Ho.
  destruct my_pips as [|p0 [|p1 [|p2 ps]]]; simpl in Hm; try lia.
  destruct opp_pips as [|o0 [|o1 [|o2 os]]]; simpl in Ho; try lia.
  unfold continue_costs. simpl. eauto.
Qed.

Lemma get_actions_run_assign self th rs active g h0 h1 h2 more :
  assign_ready rs ->
  board_allocations self = h0 :: h1 :: h2 :: more ->
  get_actions_run random_random random_sample evaluate math_exp self th rs
    active g
  = Some ([AssignAction h0; AssignAction h1; AssignAction h2], (0, g)).
Proof.
  intros (Hb & Hpips & Hst & l0 & l1 & l2 & rest & Hl & A0 & A1 & A2) Hcards.
  unfold get_actions_run.
  destruct (board_pips_defined rs (index active) Hpips) as (my_pips & -> & Lm).
  { destruct active; simpl; lia. }
  cbn [mbind option_bind].
  destruct (board_pips_defined rs (index (negb active)) Hpips)
    as (opp_pips & -> & Lo).
  { destruct active; simpl; lia. }
  cbn [mbind option_bind].
  destruct (continue_costs_defined my_pips opp_pips) as [cc ->]; [lia|lia|].
  cbn [mbind option_bind].
  destruct (lookup_lt_is_Some_2 (stacks rs) (index active)) as [s0 ->].
  { destruct active; simpl; lia. }
  cbn [mbind option_bind].
  destruct (lookup_lt_is_Some_2 (stacks rs) (index (negb active))) as [s1 ->].
  { destruct active; simpl; lia. }
  cbn [mbind option_bind].
  unfold NUM_BOARDS. cbn [seq boards_loop]. unfold board_action.
  rewrite Hcards, Hl. cbn [lookup list_lookup mbind option_bind].
  rewrite !bool_decide_eq_true_2 by done.
  cbn [mbind option_bind]. reflexivity.
Qed.

(** X22.  At the start of a round, when every board allows an assignment,
    [get_actions] returns the assignment of the three hands the allocator
    stored, in board order; it commits no chips and makes no random
    draw. *)
Theorem get_actions_assigns self th rs active g h0 h1 h2 more :
  assign_ready rs ->
  board_allocations self = h0 :: h1 :: h2 :: more ->
  get_actions_run random_random random_sample evaluate math_exp self th rs
    active g
  = Some ([AssignAction h0; AssignAction h1; AssignAction h2], (0, g)).
Proof. apply get_actions_run_assign. Qed.

(** X23.  With chips to call and a strength that is not negative,
    [respond] returns: neither square root nor the pot-odds division
    raises. *)
Theorem respond_total th legal street my_pip board_cont_cost pot_total my_stack
    net_cost stage strength raise_amount g :
  board_cont_cost < 2 ^ 53 -> 0 <= pot_total ->
  (strength <? 0)%float = false ->
  is_Some (respond random_random th legal street my_pip board_cont_cost pot_total
             my_stack net_cost stage strength raise_amount g).
Proof.
  intros Hsmall Hpot Hstr. unfold respond.
  destruct (commit _ _ _ _ _ _) as [ca cc].
  destruct (Z.ltb_spec 0 board_cont_cost) as [Hc|Hc].
  2:{ destruct (random_random g) as [u g']. destruct (_ && _); eauto. }
  assert (PyFloat.math_sqrt
            (PyFloat.float_of_Z (board_cont_cost - _INTIMIDATION_THRESHOLD))
          = Some (sqrt (PyFloat.float_of_Z
                          (board_cont_cost - _INTIMIDATION_THRESHOLD)))) as Hroot.
  { unfold PyFloat.math_sqrt, _INTIMIDATION_THRESHOLD. rewrite Z.sub_0_r.
    by rewrite FloatFacts.float_of_Z_pos by lia. }
  assert (is_Some (intimidated street board_cont_cost strength)) as [adj ->].
  { unfold intimidated. destruct (_ <? _); [|eauto].
    destruct (_ && _); [eauto|]. rewrite Hroot. cbn [mbind option_bind].
    unfold PyFloat.math_sqrt at 1. rewrite Hstr. cbn [mbind option_bind]. eauto. }
  cbn [mbind option_bind].
  unfold pot_odds, PyFloat.int_div.
  destruct (Z.eqb_spec (pot_total + board_cont_cost) 0); [lia|].
  cbn [mbind option_bind].
  destruct (_ <=? adj)%float; [|eauto].
  destruct (random_random g) as [u g'].
  destruct (_ && _); [eauto|].
  rewrite Hroot. cbn [mbind option_bind].
  destruct (_ || _); [|eauto].
  destruct (_ <=? _); eauto.
Qed.

End PolicyEdges.

(** X24.  The pot odds of a positive continue cost against a pot that is
    not negative are defined and lie in [0, 1] (for chip counts below
    [2^53]). *)
Theorem pot_odds_unit board_cont_cost pot_total :
  0 < board_cont_cost -> 0 <= pot_total ->
  pot_total + board_cont_cost < 2 ^ 53 ->
  exists odds,
    pot_odds board_cont_cost pot_total = Some odds /\
    (0 <=? odds)%float = true /\ (odds <=? 1)%float = true.
Proof.
  intros Hc Hp Hsmall. unfold pot_odds, PyFloat.int_div.
  destruct (Z.eqb_spec (pot_total + board_cont_cost) 0); [lia|].
  eexists. split; [reflexivity|]. apply PyFloat.int_div_unit; lia.
Qed.

Lemma pot_odds_unit_witness :
  exists odds,
    pot_odds 10 14 = Some odds /\
    (0 <=? odds)%float = true /\ (odds <=? 1)%float = true.
Proof. apply (pot_odds_unit 10 14); [lia|lia|reflexivity]. Defined.

Example get_actions_mixed_round :
  get_actions tape_random sample_prefix rank_sum sample_exp
    Allocator.sample_allocated shipped_thresholds mixed_round false
    [0.3; 0.3]%float
  = Some [FoldAction; RaiseAction 5; CheckAction].
Proof. vm_compute. reflexivity. Qed.

Lemma mixed_round_engine_legal : engine_legal_sets mixed_round false.
Proof.
  intros [|[|[|i]]] legal Hl Ha; simpl in Hl; try discriminate;
    injection Hl as <-; simpl.
  - intros p o [= <-] [= <-]. simpl. split; apply (bool_decide_unpack _); done.
  - intros p o [= <-] [= <-]. simpl. apply (bool_decide_unpack _); done.
  - apply (bool_decide_unpack _); done.
Qed.

Lemma get_actions_shape_witness :
  length [FoldAction; RaiseAction 5; CheckAction] = 3%nat /\
  forall i a cards legal,
    [FoldAction; RaiseAction 5; CheckAction] !! i = Some a ->
    board_allocations Allocator.sample_allocated !! i = Some cards ->
    legal_actions mixed_round !! i = Some legal ->
    (AssignClass ∈ legal -> a = AssignAction cards) /\
    (AssignClass ∉ legal ->
     forall prev, board_states mixed_round !! i = Some (Terminal prev) ->
                  a = CheckAction).
Proof.
  apply (get_actions_shape tape_random sample_prefix rank_sum sample_exp
           Allocator.sample_allocated shipped_thresholds mixed_round false
           [0.3; 0.3]%float).
  vm_compute. reflexivity.
Defined.

Lemma get_actions_legal_witness :
  engine_legal_sets mixed_round false /\
  (action_class (RaiseAction 5) ∈ [CheckClass; RaiseClass]) /\
  (engine_legal_sets mixed_round false ->
   action_class (RaiseAction 5) ∈ [CheckClass; RaiseClass]).
Proof.
  split; [exact mixed_round_engine_legal|].
  apply (get_actions_legal tape_random sample_prefix rank_sum sample_exp
           Allocator.sample_allocated shipped_thresholds mixed_round false
           [0.3; 0.3]%float [FoldAction; RaiseAction 5; CheckAction] 1
           (RaiseAction 5) [CheckClass; RaiseClass]).
  - vm_compute. reflexivity.
  - reflexivity.
  - reflexivity.
Defined.

Lemma chips_need_strength_witness :
  exists my_pips opp_pips continue_cost my_stack net_cost (g0 : list float)
         cards b my_pip opp_pip stage strength raise_amount g1,
    mapM (board_pip (index false)) (board_states mixed_round) = Some my_pips /\
    mapM (board_pip (index (negb false))) (board_states mixed_round)
      = Some opp_pips /\
    continue_costs my_pips opp_pips = Some continue_cost /\
    stacks mixed_round !! index false = Some my_stack /\
    boards_loop
      (board_action tape_random sample_prefix rank_sum sample_exp
         Allocator.sample_allocated shipped_thresholds mixed_round
         my_pips opp_pips continue_cost my_stack)
      (seq 0 1) (0, [0.3; 0.3]%float)
    = Some (take 1 [FoldAction; RaiseAction 5; CheckAction], (net_cost, g0)) /\
    board_allocations Allocator.sample_allocated !! 1%nat = Some cards /\
    board_states mixed_round !! 1%nat = Some (Live b) /\
    pips b !! index false = Some my_pip /\
    pips b !! index (negb false) = Some opp_pip /\
    strength_and_raise sample_prefix rank_sum sample_exp
      Allocator.sample_allocated shipped_thresholds (street mixed_round)
      1 cards (deck b) my_pip (opp_pip - my_pip) g0
    = Some (stage, strength, raise_amount, g1) /\
    ((at_stage (_RAISE_MIN_STR shipped_thresholds) stage <? strength)%float = true \/
     (RaiseAction 5 = CallAction /\ 0 < opp_pip - my_pip /\
      (at_stage (_CALL_MIN_STR shipped_thresholds) stage <? strength)%float = true)).
Proof.
  apply (chips_need_strength tape_random sample_prefix rank_sum sample_exp
           Allocator.sample_allocated shipped_thresholds mixed_round false
           [0.3; 0.3]%float [FoldAction; RaiseAction 5; CheckAction] (3, [])
           1 (RaiseAction 5)).
  - vm_compute. reflexivity.
  - reflexivity.
  - exact I.
Defined.

Lemma respond_total_witness :
  is_Some (respond tape_random shipped_thresholds
             [FoldClass; CallClass; RaiseClass] 0 2 10 14 192 0 Pre 0.85%float
             22 [0.3]%float).
Proof.
  apply (respond_total tape_random shipped_thresholds
           [FoldClass; CallClass; RaiseClass] 0 2 10 14 192 0 Pre 0.85%float
           22 [0.3]%float); [reflexivity|lia|reflexivity].
Defined.

Lemma boards_loop_ext {rng}
    (step1 step2 : nat -> Z * rng -> option (Action * (Z * rng))) boards :
  (forall i st, step1 i st = step2 i st) ->
  forall st, boards_loop step1 boards st = boards_loop step2 boards st.
Proof.
  intros Hext. induction boards as [|i later IH]; intros st; simpl; [done|].
  rewrite Hext. destruct (step2 i st) as [[a st1]|]; simpl; [|done].
  by rewrite IH.
Qed.

Lemma board_action_preflop {rng} (random_random : rng -> float * rng)
    (sample1 sample2 : rng -> list card -> nat -> option (list card * rng))
    (evaluate1 evaluate2 : list card -> Z) (exp1 exp2 : float -> option float)
    self th rs my_pips opp_pips continue_cost my_stack i st :
  street rs < 3 ->
  board_action random_random sample1 evaluate1 exp1 self th rs my_pips opp_pips
    continue_cost my_stack i st
  = board_action random_random sample2 evaluate2 exp2 self th rs my_pips opp_pips
      continue_cost my_stack i st.
Proof.
  intros Hs. unfold board_action. destruct st as [net_cost g].
  apply option_bind_ext_fun. intros cards.
  apply option_bind_ext_fun. intros legal.
  destruct (bool_decide (AssignClass ∈ legal)); [reflexivity|].
  apply option_bind_ext_fun. intros [b|prev]; [|reflexivity].
  apply option_bind_ext_fun. intros c.
  apply option_bind_ext_fun. intros p.
  apply option_bind_ext_fun. intros o.
  destruct (raise_bounds b) as [min_raise max_raise].
  apply option_bind_ext; [reflexivity|].
  unfold strength_and_raise.
  destruct (Z.ltb_spec (street rs) 3); [reflexivity|lia].
Qed.

(** X25.  Before the flop [get_actions] never runs the estimator: what it
    returns does not depend on the sampler, on the hand evaluator or on the
    exponential, only on the stored strengths, the table and the draws of
    [random.random]. *)
Theorem preflop_no_sampling {rng} (random_random : rng -> float * rng)
    (sample1 sample2 : rng -> list card -> nat -> option (list card * rng))
    (evaluate1 evaluate2 : list card -> Z) (exp1 exp2 : float -> option float)
    self th rs active g :
  street rs < 3 ->
  get_actions_run random_random sample1 evaluate1 exp1 self th rs active g
  = get_actions_run random_random sample2 evaluate2 exp2 self th rs active g.
Proof.
  intros Hs. unfold get_actions_run.
  apply option_bind_ext_fun. intros my_pips.
  apply option_bind_ext_fun. intros opp_pips.
  apply option_bind_ext_fun. intros continue_cost.
  apply option_bind_ext_fun. intros my_stack.
  apply option_bind_ext_fun. intros opp_stack.
  apply boards_loop_ext. intros i st. by apply board_action_preflop.
Qed.

Lemma preflop_no_sampling_witness :
  get_actions_run tape_random sample_prefix rank_sum sample_exp
    Allocator.sample_allocated shipped_thresholds sample_round false
    [0.3; 0.3; 0.3]%float
  = get_actions_run tape_random (fun _ _ _ => None) (fun _ => 0) (fun _ => None)
      Allocator.sample_allocated shipped_thresholds sample_round false
      [0.3; 0.3; 0.3]%float.
Proof.
  apply (preflop_no_sampling tape_random sample_prefix (fun _ _ _ => None)
           rank_sum (fun _ => 0) sample_exp (fun _ => None)
           Allocator.sample_allocated shipped_thresholds sample_round false
           [0.3; 0.3; 0.3]%float).
  reflexivity.
Defined.

Lemma assign_round_ready : assign_ready assign_round.
Proof.
  split; [simpl; lia|]. split; [repeat constructor|]. split; [simpl; lia|].
  exists [AssignClass], [AssignClass], [AssignClass], [].
  repeat split; apply (bool_decide_unpack _); done.
Qed.

Lemma get_actions_assigns_witness :
  get_actions_run tape_random sample_prefix rank_sum sample_exp
    Allocator.sample_allocated shipped_thresholds assign_round true [0.3]%float
  = Some ([AssignAction ["2c"; "2d"]; AssignAction ["Ks"; "Kd"];
           AssignAction ["As"; "Ah"]]%string, (0, [0.3]%float)).
Proof.
  apply (get_actions_assigns tape_random sample_prefix rank_sum sample_exp
           Allocator.sample_allocated shipped_thresholds assign_round true
           [0.3]%float _ _ _ []).
  - exact assign_round_ready.
  - reflexivity.
Defined.

End BettingEdges.
(** ** The round callbacks *)

Module Rounds.
Import Cards Allocator Tuner Betting.

Local Open Scope list_scope.

(** What the callbacks read of the engine's [GameState]. *)
Record GameState := mkGameState {
  bankroll : Z;
  opp_bankroll : Z;
  game_clock : float;
  round_num : Z
}.

(** What [handle_round_over] reads of the engine's [TerminalState]: the
    deltas, and [previous_state] with its street and its board states.  A
    board state of a finished round is read through its own
    [previous_state], whose [hands] are indexed; a board state without a
    [previous_state] raises [AttributeError]. *)
Record FinishedBoard := mkFinishedBoard {
  hands : list (list card)
}.

Inductive final_board :=
  | Settled (previous_state : FinishedBoard)
  | Unsettled.

Record TerminalState := mkTerminalState {
  deltas : list Z;
  final_street : Z;
  final_boards : list final_board
}.

(** The two lists have the three slots that [allocate_cards] and
    [get_actions] index. *)
Definition three_slots (self : Player) : Prop :=
  length (board_allocations self) = 3%nat /\ length (hole_strengths self) = 3%nat.

(** [handle_new_round]: of the round state only [hands[active]] is used,
    [round_hands] being [round_state.hands]. *)
Definition handle_new_round (self : Player) (round_hands : list (list card))
    (active : bool) : option Player :=
  my_cards ← round_hands !! index active;
  allocate_cards self my_cards.

(** The loop over the finished boards only reads the two hands. *)
Definition read_hands (active : bool) (tb : final_board) : option unit :=
  match tb with
  | Settled previous_board_state =>
      my_cards ← hands previous_board_state !! index active;
      opp_cards ← hands previous_board_state !! index (negb active);
      Some tt
  | Unsettled => None
  end.

(** The reset in the middle of [handle_round_over]. *)
Definition reset_round (self : Player) : Player :=
  mkPlayer [[]; []; []] [0; 0; 0]%float (total_payoffs self) (mutated self)
    (draise_pre self) (draise_post self) (dcall_pre self) (dcall_post self)
    (draise_exp self) (draise_const self) (starting_strengths self).

(** A finished round to start from: the third round of a game, lost by
    four chips, with both hands shown on every board. *)
Definition sample_finished : TerminalState :=
  mkTerminalState [-4; 4] 5
    [Settled (mkFinishedBoard [["2c"; "2d"]; ["7h"; "8h"]]%string);
     Settled (mkFinishedBoard [["Ks"; "Kd"]; ["9c"; "Tc"]]%string);
     Settled (mkFinishedBoard [["As"; "Ah"]; ["Qd"; "Jd"]]%string)].

Definition sample_game : GameState := mkGameState (-4) 4 29.5%float 3.

Section Callbacks.

Context {rng : Type}.
Variable random_random : rng -> float * rng.

(** [handle_round_over]: the player, the value left in
    [self.last_seen_street], the thresholds and the generator. *)
Definition handle_round_over (self : Player) (th : Thresholds)
    (game_state : GameState) (terminal_state : TerminalState) (active : bool)
    (g : rng) : option (Player * Z * Thresholds * rng) :=
  my_delta ← deltas terminal_state !! index active;
  opp_delta ← deltas terminal_state !! index (negb active);
  let street := final_street terminal_state in
  _ ← mapM (read_hands active) (final_boards terminal_state);
  let self := reset_round self in
  let last_seen_street := 0 in
  '(self, th, g) ← mutate random_random (self, th) my_delta
                     (round_num game_state) g;
  Some (self, last_seen_street, th, g).

(** A finished round whose deltas and hands can be read. *)
Definition readable (terminal_state : TerminalState) : Prop :=
  (2 <= length (deltas terminal_state))%nat /\
  Forall (fun tb => match tb with
                    | Settled prev => (2 <= length (hands prev))%nat
                    | Unsettled => False
                    end) (final_boards terminal_state).

Lemma mutate_slots self th my_delta r g self' th' g' :
  mutate random_random (self, th) my_delta r g = Some (self', th', g') ->
  board_allocations self' = board_allocations self /\
  hole_strengths self' = hole_strengths self /\
  starting_strengths self' = starting_strengths self.
Proof.
  intros H. apply (TunerEdges.mutate_inv random_random) in H. cbv zeta in H.
  destruct H as
    [(_ & -> & _)|[(_ & _ & _ & self1 & Hnew & ->)|[(_ & _ & _ & -> & _)
     |[(_ & _ & -> & _)|(_ & _ & -> & _)]]]]; try by repeat split.
  apply TunerEdges.new_mutation_spec in Hnew as (_ & _ & _ & _ & E1 & E2 & E3).
  by repeat split.
Qed.

Lemma handle_round_over_inv self th game_state terminal_state active g
    self' street' th' g' :
  handle_round_over self th game_state terminal_state active g
    = Some (self', street', th', g') ->
  exists my_delta,
    deltas terminal_state !! index active = Some my_delta /\
    is_Some (deltas terminal_state !! index (negb active)) /\
    is_Some (mapM (read_hands active) (final_boards terminal_state)) /\
    street' = 0 /\
    mutate random_random (reset_round self, th) my_delta (round_num game_state) g
      = Some (self', th', g').
Proof.
  unfold handle_round_over. intros H.
  destruct (deltas terminal_state !! index active) as [my_delta|];
    cbn [mbind option_bind] in H; [|discriminate].
  destruct (deltas terminal_state !! index (negb active)) as [opp_delta|];
    cbn [mbind option_bind] in H; [|discriminate].
  destruct (mapM _ _) as [u|]; cbn [mbind option_bind] in H; [|discriminate].
  destruct (mutate _ _ _ _ _) as [[[s t] g0]|] eqn:Hm;
    cbn [mbind option_bind] in H; [|discriminate].
  injection H as <- <- <- <-. exists my_delta. eauto 10.
Qed.

(** X26.  [handle_round_over] returns exactly when the two deltas and the
    two hands of every finished board can be read and [mutate] returns; so
    it returns on every readable finished round at a positive round number
    (below [2^53]).  It leaves [last_seen_street] at 0. *)
Theorem handle_round_over_returns self th game_state terminal_state active g :
  (is_Some (handle_round_over self th game_state terminal_state active g) <->
   is_Some (deltas terminal_state !! index active) /\
   is_Some (deltas terminal_state !! index (negb active)) /\
   is_Some (mapM (read_hands active) (final_boards terminal_state)) /\
   (forall my_delta, deltas terminal_state !! index active = Some my_delta ->
      is_Some (mutate random_random (reset_round self, th) my_delta
                 (round_num game_state) g))) /\
  (readable terminal_state -> 0 < round_num game_state < 2 ^ 53 ->
   exists self' th' g',
     handle_round_over self th game_state terminal_state active g
       = Some (self', 0, th', g')).
Proof.
  split.
  - split.
    + intros [[[[self' street'] th'] g'] H].
      apply handle_round_over_inv in H as (my_delta & Hd & Ho & Hh & _ & Hm).
      repeat split; eauto. intros d' Hd'. rewrite Hd in Hd'.
      injection Hd' as <-. eauto.
    + intros ([d Hd] & [o Ho] & [u Hu] & Hm). unfold handle_round_over.
      rewrite Hd. cbn [mbind option_bind]. rewrite Ho. cbn [mbind option_bind].
      rewrite Hu. cbn [mbind option_bind].
      destruct (Hm d Hd) as [[[s t] g0] ->]. cbn [mbind option_bind]. eauto.
  - intros [Hlen Hall] Hr. unfold handle_round_over.
    destruct (lookup_lt_is_Some_2 (deltas terminal_state) (index active))
      as [d ->]; [destruct active; simpl; lia|].
    cbn [mbind option_bind].
    destruct (lookup_lt_is_Some_2 (deltas terminal_state) (index (negb active)))
      as [o ->]; [destruct active; simpl; lia|].
    cbn [mbind option_bind].
    assert (is_Some (mapM (read_hands active) (final_boards terminal_state)))
      as [u ->].
    { apply mapM_is_Some. eapply Forall_impl; [exact Hall|].
      intros [prev|] Hp; [|done]. simpl.
      destruct (lookup_lt_is_Some_2 (hands prev) (index active)) as [h ->];
        [destruct active; simpl; lia|].
      destruct (lookup_lt_is_Some_2 (hands prev) (index (negb active))) as [h' ->];
        [destruct active; simpl; lia|].
      simpl. eauto. }
    cbn [mbind option_bind].
    destruct (TunerEdges.mutate_returns random_random (reset_round self) th
                d (round_num game_state) g Hr) as [[[s t] g0] ->].
    cbn [mbind option_bind]. eauto.
Qed.

(** X27.  The two per-board lists always have three slots: [__init__]
    and every [handle_round_over] set them up, whatever they were, and
    [mutate] and [handle_new_round] keep them.  A [handle_round_over]
    moreover leaves the allocations empty and the recorded strengths at
    zero, and keeps the strength table. *)
Theorem three_slots_invariant :
  (forall table, three_slots (init_player table)) /\
  (forall self th game_state terminal_state active g self' street' th' g',
     handle_round_over self th game_state terminal_state active g
       = Some (self', street', th', g') ->
     board_allocations self' = [[]; []; []] /\
     hole_strengths self' = [0; 0; 0]%float /\
     starting_strengths self' = starting_strengths self /\
     three_slots self') /\
  (forall self th my_delta r g self' th' g',
     mutate random_random (self, th) my_delta r g = Some (self', th', g') ->
     three_slots self -> three_slots self') /\
  (forall self round_hands active self',
     handle_new_round self round_hands active = Some self' ->
     three_slots self -> three_slots self').
Proof.
  split; [by split|]. split; [|split].
  - intros self th game_state terminal_state active g self' street' th' g' H.
    apply handle_round_over_inv in H as (d & _ & _ & _ & _ & Hm).
    apply mutate_slots in Hm as (E1 & E2 & E3). unfold three_slots.
    rewrite E1, E2, E3. by repeat split.
  - intros self th d r g self' th' g' Hm [H1 H2].
    apply mutate_slots in Hm as (E1 & E2 & _). unfold three_slots.
    rewrite E1, E2. by split.
  - intros self round_hands active self' H [H1 H2].
    unfold handle_new_round in H.
    destruct (round_hands !! index active) as [my_cards|];
      cbn [mbind option_bind] in H; [|discriminate].
    apply AllocatorEdges.allocate_cards_inv in H
      as (sorted & p1 & s1 & r1 & p2 & s2 & r2 & p3 & s3 & r3 & _ & _
          & _ & _ & _ & _ & _ & _ & _ & _ & _ & _ & _ & _ & _ & _ & ->).
    split; simpl; by rewrite !length_insert.
Qed.

End Callbacks.

(** X28.  A round after a round.  Once [handle_round_over] has returned,
    whatever the allocations were before it, [handle_new_round] on six
    different cards every pair of which has a positive strength in the
    table returns, with three two-card hands that together are the dealt
    cards; and on a round state where every board allows an assignment
    [get_actions] then assigns exactly these hands: the cards it assigns
    are the dealt cards, each once. *)
Theorem round_cycle {rng} (random_random : rng -> float * rng)
    (random_sample : rng -> list card -> nat -> option (list card * rng))
    (evaluate : list card -> Z) (math_exp : float -> option float)
    self th game_state terminal_state active g self1 street1 th1 g1
    round_hands active' my_cards rs :
  handle_round_over random_random self th game_state terminal_state active g
    = Some (self1, street1, th1, g1) ->
  round_hands !! index active' = Some my_cards ->
  length my_cards = 6%nat -> NoDup my_cards ->
  (forall a b, a ∈ my_cards -> b ∈ my_cards -> a <> b ->
               pair_ok (starting_strengths self) (a, b)) ->
  BettingEdges.assign_ready rs ->
  exists self2 h0 h1 h2,
    handle_new_round self1 round_hands active' = Some self2 /\
    board_allocations self2 = [h0; h1; h2] /\
    length h0 = 2%nat /\ length h1 = 2%nat /\ length h2 = 2%nat /\
    h0 ++ h1 ++ h2 ≡ₚ my_cards /\
    get_actions_run random_random random_sample evaluate math_exp self2 th1 rs
      active' g1
    = Some ([AssignAction h0; AssignAction h1; AssignAction h2], (0, g1)).
Proof.
  intros Hover Hhands Hlen Hnd Hok Hready.
  apply handle_round_over_inv in Hover as (d & _ & _ & _ & _ & Hm).
  apply mutate_slots in Hm as (Hba & Hhs & Htab). simpl in Hba, Hhs, Htab.
  destruct (allocate_cards_run self1 my_cards)
    as (sorted & p1 & s1 & r1 & p2 & s2 & r2 & p3 & s3 & self2 & Hrun & _
        & Hperm & _ & _ & _ & _ & _ & _ & _ & _ & Hall & Hba2 & _).
  { split; [done|]. split; [done|]. rewrite Hba, Hhs, Htab. by repeat split. }
  exists self2, [p3.1; p3.2], [p2.1; p2.2], [p1.1; p1.2].
  unfold handle_new_round. rewrite Hhands. cbn [mbind option_bind].
  repeat split; trivial.
  - simpl. by rewrite <- Hall.
  - by apply (BettingEdges.get_actions_run_assign _ _ _ _ _ _ _ _ _ _ _ _ []).
Qed.

Lemma round_cycle_witness :
  exists self2 h0 h1 h2,
    handle_new_round
      (set_total_payoffs (-4) (reset_round sample_allocated))
      [sample_hand; []] false = Some self2 /\
    board_allocations self2 = [h0; h1; h2] /\
    length h0 = 2%nat /\ length h1 = 2%nat /\ length h2 = 2%nat /\
    h0 ++ h1 ++ h2 ≡ₚ sample_hand /\
    get_actions_run tape_random Equity.sample_prefix Equity.rank_sum sample_exp
      self2 shipped_thresholds BettingEdges.assign_round false [0.3]%float
    = Some ([AssignAction h0; AssignAction h1; AssignAction h2], (0, [0.3]%float)).
Proof.
  apply (round_cycle tape_random Equity.sample_prefix Equity.rank_sum sample_exp
           sample_allocated shipped_thresholds sample_game sample_finished false
           [0.3]%float _ 0 shipped_thresholds [0.3]%float
           [sample_hand; []] false sample_hand BettingEdges.assign_round).
  - vm_compute. reflexivity.
  - reflexivity.
  - reflexivity.
  - apply (bool_decide_unpack (NoDup sample_hand)). vm_compute. exact I.
  - apply all_pairs_okb_ok. vm_compute. reflexivity.
  - exact BettingEdges.assign_round_ready.
Defined.

End Rounds.
